(** * tidb2dw: DDL translation, merge generation, snapshot load, orchestration

    A shallow embedding of
      - [pkg/redshiftsql/ddl.go]    (schema diff to Redshift DDL),
      - [snowsql/sql.go]            (Snowflake statements, snapshot COPY with a
                                     progress poller, merge generation),
      - [cmd/snowflake/snapshot.go] (the snapshot session),
      - the [snowflake] command's [run] closure (phase orchestration),
    followed by the properties proved about them. *)

From Stdlib Require Import String Ascii List Bool Arith NArith ZArith Lia.
From Stdlib Require Import DecimalString Permutation.
From Stdlib Require OrderedTypeEx.
Import ListNotations.
Open Scope list_scope.
Open Scope string_scope.

(* ================================================================== *)
(** ** Go library functions used by the sources                        *)
(* ================================================================== *)

Module GoStrings.

(** [strings.Join]. *)
Fixpoint Join (elems : list string) (sep : string) : string :=
  match elems with
  | [] => ""
  | [x] => x
  | x :: rest => x ++ sep ++ Join rest sep
  end.

(** [strings.HasPrefix s prefix]. *)
Definition HasPrefix (s pre : string) : bool := String.prefix pre s.

(** [strings.TrimPrefix s prefix]: [s] without the leading [prefix], or [s]
    itself when it does not start with [prefix]. *)
Definition TrimPrefix (s pre : string) : string :=
  if HasPrefix s pre
  then substring (String.length pre) (String.length s - String.length pre) s
  else s.

(** [strings.HasSuffix s suffix]. *)
Definition HasSuffix (s suf : string) : bool :=
  (String.length suf <=? String.length s)%nat &&
  String.eqb (substring (String.length s - String.length suf)
                        (String.length suf) s) suf.

(** [%d] of a non-negative [int]. *)
Definition itoa (n : nat) : string := NilEmpty.string_of_uint (Nat.to_uint n).

(** The double quote character, for the one place a statement carries it. *)
Definition dquote : string := String (ascii_of_nat 34) "".
Definition tab : string := String (ascii_of_nat 9) "".
Definition nl : string := String (ascii_of_nat 10) "".

End GoStrings.
Import GoStrings.

(** Results of fallible Go functions: a value, an [error] carrying its
    message, or a run-time panic (a nil pointer dereference). *)
Inductive result (A : Type) : Type :=
| Ok (a : A)
| Err (msg : string)
| Panic (msg : string).
Arguments Ok {A} a.
Arguments Err {A} msg.
Arguments Panic {A} msg.

(* ================================================================== *)
(** ** tiflow's [cloudstorage] table definitions and [timodel] actions  *)
(* ================================================================== *)

(** [timodel.ActionType]: the actions the translator tests for, and every
    other action code (add column, modify column, ...) under [ActionOther]. *)
Inductive ActionType : Type :=
| ActionNone
| ActionCreateSchema
| ActionDropSchema
| ActionCreateTable
| ActionDropTable
| ActionTruncateTable
| ActionRenameTables
| ActionOther (code : N).

Definition ActionType_eqb (a b : ActionType) : bool :=
  match a, b with
  | ActionNone, ActionNone
  | ActionCreateSchema, ActionCreateSchema
  | ActionDropSchema, ActionDropSchema
  | ActionCreateTable, ActionCreateTable
  | ActionDropTable, ActionDropTable
  | ActionTruncateTable, ActionTruncateTable
  | ActionRenameTables, ActionRenameTables => true
  | ActionOther x, ActionOther y => N.eqb x y
  | _, _ => false
  end.

(** [cloudstorage.TableCol].  [Default] is an [interface{}]: [None] is the nil
    interface, [Some v] a value kept as its [%v] rendering, the only way the
    translators read it. *)
Record TableCol : Type := mkTableCol {
  Name : string;
  Tp : string;
  Default : option string;
  Precision : string;
  Scale : string;
  Nullable : string;
  IsPK : string
}.

(** [cloudstorage.TableDefinition] (the fields the sources read). *)
Record TableDefinition : Type := mkTableDefinition {
  Table : string;
  Schema : string;
  Type_ : ActionType;
  Columns : list TableCol
}.

(* ================================================================== *)
(** ** [pkg/redshiftsql/ddl.go]                                        *)
(* ================================================================== *)

Module Redshiftsql.

(** [tidbsql.ColumnDiff] and its action tags.  [Before] and [After] are
    pointers: [None] is nil. *)
Inductive ColumnAction : Type :=
| ADD_COLUMN | DROP_COLUMN | MODIFY_COLUMN | RENAME_COLUMN | UNCHANGE.

Record ColumnDiff : Type := mkColumnDiff {
  Action : ColumnAction;
  Before : option TableCol;
  After : option TableCol
}.

Section Translator.

(** [strconv.ParseFloat(s, 64)] returns a nil error. *)
Variable ParseFloat_ok : string -> bool.
(** [GetRedshiftTypeString] and [tidbsql.GetColumnDiff] live in files of
    the repository that are not part of this development. *)
Variable GetRedshiftTypeString : TableCol -> result string.
Variable GetColumnDiff :
  list TableCol -> list TableCol -> result (list ColumnDiff).

(** [getDefaultString], on the [%v] rendering of the value. *)
Definition getDefaultString (val : string) : string :=
  if ParseFloat_ok val then val else "'" ++ val ++ "'".

Definition GetRedshiftColumnString (column : TableCol) : result string :=
  match GetRedshiftTypeString column with
  | Err e => Err e
  | Panic e => Panic e
  | Ok typeStr =>
      let sb := typeStr in
      let sb := if String.eqb (Nullable column) "false"
                then sb ++ " NOT NULL" else sb in
      let sb :=
        match Default column with
        | Some d => sb ++ " DEFAULT " ++ getDefaultString d
        | None => if String.eqb (Nullable column) "true"
                  then sb ++ " DEFAULT NULL" else sb
        end in
      Ok sb
  end.

(** The body of the [switch item.Action]: the statement text built for one
    diff entry, [""] when the entry is unchanged. *)
Definition item_ddl (table : string) (item : ColumnDiff) : result string :=
  match Action item with
  | ADD_COLUMN =>
      match After item with
      | None => Panic "nil pointer dereference"
      | Some a =>
          match GetRedshiftColumnString a with
          | Ok colStr => Ok ("ALTER TABLE " ++ table ++ " ADD COLUMN " ++ colStr)
          | Err e => Err e
          | Panic e => Panic e
          end
      end
  | DROP_COLUMN =>
      match Before item with
      | None => Panic "nil pointer dereference"
      | Some b => Ok ("ALTER TABLE " ++ table ++ " DROP COLUMN " ++ Name b)
      end
  | MODIFY_COLUMN =>
      Err "Received modify column ddl, which is not supported by redshift yet"
  | RENAME_COLUMN =>
      match Before item, After item with
      | Some b, Some a =>
          Ok ("ALTER TABLE " ++ table ++ " RENAME COLUMN " ++ Name b
                ++ " TO " ++ Name a)
      | _, _ => Panic "nil pointer dereference"
      end
  | UNCHANGE => Ok ""
  end.

(** The [for _, item := range columnDiff] loop, [ddls] being the slice
    built so far. *)
Fixpoint ddl_loop (table : string) (columnDiff : list ColumnDiff)
         (ddls : list string) : result (list string) :=
  match columnDiff with
  | [] => Ok ddls
  | item :: rest =>
      match item_ddl table item with
      | Err e => Err e
      | Panic e => Panic e
      | Ok ddl =>
          if String.eqb ddl ""
          then ddl_loop table rest ddls
          else ddl_loop table rest (app ddls [ddl ++ ";"])
      end
  end.

Definition GenDDLViaColumnsDiff (prevColumns : list TableCol)
           (curTableDef : TableDefinition) : result (list string) :=
  if ActionType_eqb (Type_ curTableDef) ActionTruncateTable then
    Ok ["TRUNCATE TABLE " ++ Table curTableDef]
  else if ActionType_eqb (Type_ curTableDef) ActionDropTable then
    Ok ["DROP TABLE " ++ Table curTableDef]
  else if ActionType_eqb (Type_ curTableDef) ActionCreateTable then
    Err "Received create table ddl, which should not happen"
  else if ActionType_eqb (Type_ curTableDef) ActionRenameTables then
    Err ("Received rename table ddl, new change data can not be capture by TiCDC any more."
         ++ "If you want to rename table, please start a new task to capture the new table")
  else if ActionType_eqb (Type_ curTableDef) ActionDropSchema then
    Ok ["DROP SCHEMA " ++ Schema curTableDef ++ " CASCADE"]
  else if ActionType_eqb (Type_ curTableDef) ActionCreateSchema then
    Err "Received create schema ddl, which should not happen"
  else
    match GetColumnDiff prevColumns (Columns curTableDef) with
    | Err e => Err e
    | Panic e => Panic e
    | Ok columnDiff => ddl_loop (Table curTableDef) columnDiff []
    end.

End Translator.

(** The structural action tags of a table definition. *)
Definition structural (a : ActionType) : bool :=
  match a with
  | ActionTruncateTable | ActionDropTable | ActionDropSchema
  | ActionCreateTable | ActionRenameTables | ActionCreateSchema => true
  | ActionNone | ActionOther _ => false
  end.

(** A column-level statement is one that alters a table. *)
Definition is_alter_table (stmt : string) : bool :=
  String.prefix "ALTER TABLE " stmt.

Definition unchanged (item : ColumnDiff) : bool :=
  match Action item with UNCHANGE => true | _ => false end.

End Redshiftsql.

(* ================================================================== *)
(** ** [snowsql/sql.go]: schema and merge statements                   *)
(* ================================================================== *)

Module Snowsql.

(** [tidbsql.TiDBColumnInfo]: one row of [information_schema.columns].
    Pointer fields are options. *)
Record TiDBColumnInfo : Type := mkTiDBColumnInfo {
  ColumnName : string;
  ColumnDefault : option string;
  IsNullable : string;
  DataType : string;
  CharMaxLength : option Z;
  NumPrecision : option Z;
  NumScale : option Z;
  DateTimePrec : option Z
}.

(** [%d] of an [int]. *)
Definition ztoa (z : Z) : string := NilEmpty.string_of_int (Z.to_int z).

(** [strings.ToUpper] on the ASCII letters of the type names. *)
Definition upper_ascii (c : ascii) : ascii :=
  let n := nat_of_ascii c in
  if ((97 <=? n) && (n <=? 122))%nat then ascii_of_nat (n - 32) else c.

Fixpoint ToUpper (s : string) : string :=
  match s with
  | EmptyString => EmptyString
  | String c r => String (upper_ascii c) (ToUpper r)
  end.

Definition one_of (s : string) (l : list string) : bool :=
  existsb (String.eqb s) l.

Section Schema.

(** [strconv.ParseFloat(s, 64)] returns a nil error. *)
Variable ParseFloat_ok : string -> bool.

Definition GetDefaultValueString (val : string) : string :=
  if ParseFloat_ok val then val else "'" ++ val ++ "'".

(** The type part of one column, the [switch column.DataType] of
    [GenCreateSchema]; a nil length or precision pointer panics. *)
Definition column_type (column : TiDBColumnInfo) : result string :=
  let name := ColumnName column in
  let dt := DataType column in
  let deref (p : option Z) (k : Z -> string) : result string :=
    match p with
    | Some v => Ok (k v)
    | None => Panic "nil pointer dereference"
    end in
  if one_of dt ["text"; "longtext"; "mediumtext"; "tinytext";
                "blob"; "longblob"; "mediumblob"; "tinyblob"] then
    Ok (name ++ " " ++ "TEXT")
  else if one_of dt ["varchar"; "char"; "binary"; "varbinary"] then
    deref (CharMaxLength column)
          (fun n => name ++ " " ++ ToUpper dt ++ "(" ++ ztoa n ++ ")")
  else if one_of dt ["int"; "mediumint"] then
    Ok (name ++ " " ++ "INT")
  else if one_of dt ["bigint"; "tinyint"; "smallint"; "float"; "double"] then
    Ok (name ++ " " ++ ToUpper dt)
  else if one_of dt ["decimal"; "numeric"] then
    match NumPrecision column, NumScale column with
    | Some p, Some s =>
        Ok (name ++ " " ++ ToUpper dt ++ "(" ++ ztoa p ++ ", " ++ ztoa s ++ ")")
    | _, _ => Panic "nil pointer dereference"
    end
  else if one_of dt ["bool"; "boolean"] then
    Ok (name ++ " " ++ "BOOLEAN")
  else if String.eqb dt "date" then
    Ok (name ++ " " ++ "DATE")
  else if one_of dt ["datetime"; "timestamp"; "time"] then
    deref (DateTimePrec column)
          (fun n => name ++ " " ++ ToUpper dt ++ "(" ++ ztoa n ++ ")")
  else Ok "".

(** What [GenCreateSchema] appends after the type for the default value. *)
Definition default_clause (column : TiDBColumnInfo) : string :=
  match ColumnDefault column with
  | Some d => " DEFAULT '" ++ GetDefaultValueString d ++ "'"
  | None => if String.eqb (IsNullable column) "true"
            then " DEFAULT NULL" else ""
  end.

(** One element of [columnRows]: the body of the [for rows.Next()] loop. *)
Definition column_row (column : TiDBColumnInfo) : result string :=
  match column_type column with
  | Err e => Err e
  | Panic e => Panic e
  | Ok createTableQuery =>
      let q := if String.eqb (IsNullable column) "false"
               then createTableQuery ++ " NOT NULL" else createTableQuery in
      Ok (q ++ default_clause column)
  end.

Fixpoint column_rows (columns : list TiDBColumnInfo) : result (list string) :=
  match columns with
  | [] => Ok []
  | c :: rest =>
      match column_row c with
      | Err e => Err e
      | Panic e => Panic e
      | Ok r =>
          match column_rows rest with
          | Ok rs => Ok (r :: rs)
          | other => other
          end
      end
  end.

(** [GenCreateSchema] on the rows it scans: the rows of
    [information_schema.columns] and the primary-key column names it keeps
    from the sorted [SHOW INDEX] rows.  Its two queries are the database's
    part. *)
Definition GenCreateSchema (sourceTable : string)
           (columns : list TiDBColumnInfo)
           (snowflakePKColumns : list string) : result string :=
  match column_rows columns with
  | Err e => Err e
  | Panic e => Panic e
  | Ok columnRows =>
      let sqlRows :=
        match snowflakePKColumns with
        | [] => columnRows
        | _ => app columnRows
                 ["PRIMARY KEY (" ++ Join snowflakePKColumns ", " ++ ")"]
        end in
      let sqlRows := map (fun r => "    " ++ r) sqlRows in
      Ok (Join ["CREATE OR REPLACE TABLE " ++ sourceTable ++ " (";
                Join sqlRows ("," ++ nl);
                ")"] nl)
  end.

End Schema.

(** The column [c] with default value [d]. *)
Definition with_default (c : TiDBColumnInfo) (d : string) : TiDBColumnInfo :=
  {| ColumnName := ColumnName c; ColumnDefault := Some d;
     IsNullable := IsNullable c; DataType := DataType c;
     CharMaxLength := CharMaxLength c; NumPrecision := NumPrecision c;
     NumScale := NumScale c; DateTimePrec := DateTimePrec c |}.

(** *** [GenMergeInto] *)

Definition is_pk (col : TableCol) : bool := String.eqb (IsPK col) "true".

(** The slices [GenMergeInto] builds. *)
Definition indexed {A : Type} (l : list A) : list (nat * A) :=
  combine (seq 0 (List.length l)) l.

Definition selectStat (tableDef : TableDefinition) : list string :=
  ("$1 AS " ++ dquote ++ "METADATA$FLAG" ++ dquote)
    :: map (fun ic => "$" ++ itoa (fst ic + 5) ++ " AS " ++ Name (snd ic))
           (indexed (Columns tableDef)).

Definition pkColumn (tableDef : TableDefinition) : list string :=
  map Name (filter is_pk (Columns tableDef)).

Definition onStat (tableDef : TableDefinition) : list string :=
  map (fun col => "T." ++ Name col ++ " = S." ++ Name col)
      (filter is_pk (Columns tableDef)).

Definition updateStat (tableDef : TableDefinition) : list string :=
  map (fun col => Name col ++ " = S." ++ Name col) (Columns tableDef).

Definition insertStat (tableDef : TableDefinition) : list string :=
  map Name (Columns tableDef).

Definition valuesStat (tableDef : TableDefinition) : list string :=
  map (fun col => "S." ++ Name col) (Columns tableDef).

Definition t2 : string := tab ++ tab.
Definition t3 : string := tab ++ tab ++ tab.
Definition t4 : string := tab ++ tab ++ tab ++ tab.

(** The [fmt.Sprintf] of the merge template with its nine arguments. *)
Definition merge_template (a1 a2 a3 a4 a5 a6 a7 a8 a9 : string) : string :=
  "MERGE INTO " ++ a1 ++ " AS T USING" ++ nl ++
  t2 ++ "(" ++ nl ++
  t3 ++ "SELECT" ++ nl ++
  t4 ++ a2 ++ nl ++
  t3 ++ "FROM '@" ++ a3 ++ "/" ++ a4 ++ "'" ++ nl ++
  t3 ++ "QUALIFY row_number() over (partition by " ++ a5
     ++ " order by $4 desc) = 1" ++ nl ++
  t2 ++ ") AS S" ++ nl ++
  t2 ++ "ON" ++ nl ++
  t2 ++ "(" ++ nl ++
  t3 ++ a6 ++ nl ++
  t2 ++ ")" ++ nl ++
  t2 ++ "WHEN MATCHED AND S.METADATA$FLAG != 'D' THEN UPDATE SET " ++ a7 ++ nl ++
  t2 ++ "WHEN MATCHED AND S.METADATA$FLAG = 'D' THEN DELETE" ++ nl ++
  t2 ++ "WHEN NOT MATCHED AND S.METADATA$FLAG != 'D' THEN INSERT ("
     ++ a8 ++ ") VALUES (" ++ a9 ++ ");".

Definition GenMergeInto (tableDef : TableDefinition)
           (filePath stageName : string) : string :=
  merge_template
    (Table tableDef)
    (Join (selectStat tableDef) ("," ++ nl))
    stageName
    filePath
    (Join (pkColumn tableDef) ", ")
    (Join (onStat tableDef) " AND ")
    (Join (updateStat tableDef) ", ")
    (Join (insertStat tableDef) ", ")
    (Join (valuesStat tableDef) ", ").

End Snowsql.

(* ================================================================== *)
(** ** The merge statement as the warehouse reads it                   *)
(* ================================================================== *)

(** [GenMergeInto] returns text; the warehouse executes it.  [MergeStmt] is
    the syntax of the statements of this form: every clause of the text is
    a field, down to the direction of the [order by], the rank compared with
    [row_number()], and the list of [WHEN] clauses with their tests and
    actions.  [print] writes a statement out, keyword by keyword;
    [GenMergeInto_stmt] is the statement whose print is the text of
    [GenMergeInto], character for character (proved below).  The meaning of
    a statement is read from its fields only: [is_qualified] from the
    partition list, the ordering field, the direction and the rank;
    [merge_rows] from the [ON] list and the [WHEN] clauses in their order. *)
Module MergeSQL.
Import Snowsql.

Inductive Direction : Type := Asc | Desc.

(** [$<pos> AS <alias>], the alias between double quotes or bare. *)
Record SelectItem : Type := mkSelectItem {
  i_pos : nat;
  i_alias : string;
  i_quoted : bool
}.

(** [S.<col> = '<lit>'] and [S.<col> != '<lit>']. *)
Inductive Test : Type :=
| TestEq (col lit : string)
| TestNe (col lit : string).

Inductive Action : Type :=
| UpdateSet (set : list (string * string))  (* UPDATE SET <a> = S.<b>, ... *)
| Delete                                     (* DELETE *)
| Insert (cols vals : list string).          (* INSERT (<a>, ...) VALUES (S.<b>, ...) *)

(** [WHEN [NOT] MATCHED AND <test> THEN <action>]. *)
Record WhenClause : Type := mkWhenClause {
  w_matched : bool;
  w_test : Test;
  w_action : Action
}.

Record MergeStmt : Type := mkMergeStmt {
  m_target : string;                      (* MERGE INTO <target> AS T *)
  m_select : list SelectItem;             (* SELECT $n AS <alias>, ... *)
  m_stage : string;                       (* FROM '@<stage>/<file>' *)
  m_file : string;
  m_partition_by : list string;           (* partition by <aliases> *)
  m_order_by : nat;                       (* order by $<n> *)
  m_order : Direction;                    (* asc, desc *)
  m_rank : nat;                           (* row_number() ... = <rank> *)
  m_on : list (string * string);          (* T.<a> = S.<b> AND ... *)
  m_when : list WhenClause                (* the WHEN clauses, in order *)
}.

(** *** Printing a statement *)

Definition print_item (i : SelectItem) : string :=
  "$" ++ itoa (i_pos i) ++ " AS " ++
  (if i_quoted i then dquote ++ i_alias i ++ dquote else i_alias i).

Definition print_direction (d : Direction) : string :=
  match d with Asc => "asc" | Desc => "desc" end.

Definition print_test (t : Test) : string :=
  match t with
  | TestEq c l => "S." ++ c ++ " = '" ++ l ++ "'"
  | TestNe c l => "S." ++ c ++ " != '" ++ l ++ "'"
  end.

Definition print_action (a : Action) : string :=
  match a with
  | UpdateSet set =>
      "UPDATE SET " ++
      Join (map (fun ab => fst ab ++ " = S." ++ snd ab) set) ", "
  | Delete => "DELETE"
  | Insert cols vals =>
      "INSERT (" ++ Join cols ", " ++ ") VALUES (" ++
      Join (map (fun b => "S." ++ b) vals) ", " ++ ")"
  end.

Definition print_when (w : WhenClause) : string :=
  "WHEN " ++ (if w_matched w then "MATCHED" else "NOT MATCHED") ++
  " AND " ++ print_test (w_test w) ++ " THEN " ++ print_action (w_action w).

Definition print (m : MergeStmt) : string :=
  "MERGE INTO " ++ m_target m ++ " AS T USING" ++ nl ++
  t2 ++ "(" ++ nl ++
  t3 ++ "SELECT" ++ nl ++
  t4 ++ Join (map print_item (m_select m)) ("," ++ nl) ++ nl ++
  t3 ++ "FROM '@" ++ m_stage m ++ "/" ++ m_file m ++ "'" ++ nl ++
  t3 ++ "QUALIFY row_number() over (partition by " ++
        Join (m_partition_by m) ", " ++
        " order by $" ++ itoa (m_order_by m) ++ " " ++
        print_direction (m_order m) ++ ") = " ++ itoa (m_rank m) ++ nl ++
  t2 ++ ") AS S" ++ nl ++
  t2 ++ "ON" ++ nl ++
  t2 ++ "(" ++ nl ++
  t3 ++ Join (map (fun ab => "T." ++ fst ab ++ " = S." ++ snd ab) (m_on m))
             " AND " ++ nl ++
  t2 ++ ")" ++ nl ++
  t2 ++ Join (map print_when (m_when m)) (nl ++ t2) ++ ";".

Definition flag_alias : string := "METADATA$FLAG".

(** The statement [GenMergeInto] writes, clause by clause, from the same
    loops over the columns. *)
Definition GenMergeInto_stmt (tableDef : TableDefinition)
           (filePath stageName : string) : MergeStmt :=
  {| m_target := Table tableDef;
     m_select :=
       {| i_pos := 1; i_alias := flag_alias; i_quoted := true |}
         :: map (fun ic => {| i_pos := fst ic + 5; i_alias := Name (snd ic);
                              i_quoted := false |})
                (indexed (Columns tableDef));
     m_stage := stageName;
     m_file := filePath;
     m_partition_by := pkColumn tableDef;
     m_order_by := 4;
     m_order := Desc;
     m_rank := 1;
     m_on := map (fun col => (Name col, Name col))
                 (filter is_pk (Columns tableDef));
     m_when :=
       [ {| w_matched := true; w_test := TestNe flag_alias "D";
            w_action := UpdateSet (map (fun col => (Name col, Name col))
                                       (Columns tableDef)) |};
         {| w_matched := true; w_test := TestEq flag_alias "D";
            w_action := Delete |};
         {| w_matched := false; w_test := TestNe flag_alias "D";
            w_action := Insert (insertStat tableDef)
                               (map Name (Columns tableDef)) |} ] |}.

(** *** Rows *)

(** A row binds column names to values.  Names are compared as written. *)
Definition Row : Type := list (string * string).

Fixpoint get (c : string) (r : Row) : string :=
  match r with
  | [] => ""
  | (k, v) :: r' => if String.eqb k c then v else get c r'
  end.

(** [SET c = v] on a row: the column keeps its place; a row has no column
    added by an update. *)
Fixpoint set_col (c v : string) (r : Row) : Row :=
  match r with
  | [] => []
  | (k, x) :: r' =>
      if String.eqb k c then (k, v) :: r' else (k, x) :: set_col c v r'
  end.

(** One line of a staged change file, as TiCDC's CSV sink writes it:
    [$1] the flag, [$2] the table name, [$3] the schema name, [$4] the
    commit timestamp, [$5], [$6], ... the column values.  Every field is
    text, as the warehouse reads the fields of a staged file. *)
Record ChangeRow : Type := mkChangeRow {
  cr_flag : string;
  cr_table : string;
  cr_schema : string;
  cr_commit_ts : string;
  cr_cols : list string
}.

(** [$n] of a line; a field the line does not have is empty. *)
Definition field (n : nat) (r : ChangeRow) : string :=
  match n with
  | 0 => ""
  | 1 => cr_flag r
  | 2 => cr_table r
  | 3 => cr_schema r
  | 4 => cr_commit_ts r
  | S (S (S (S (S k)))) => nth k (cr_cols r) ""
  end.

(** A row of the sub-query [S]: the projected columns, and the value of the
    field it is ordered by. *)
Record SRow : Type := mkSRow {
  s_key : string;
  s_row : Row
}.

Definition select_row (m : MergeStmt) (r : ChangeRow) : SRow :=
  {| s_key := field (m_order_by m) r;
     s_row := map (fun i => (i_alias i, field (i_pos i) r)) (m_select m) |}.

Fixpoint list_eqb (a b : list string) : bool :=
  match a, b with
  | [], [] => true
  | x :: a', y :: b' => String.eqb x y && list_eqb a' b'
  | _, _ => false
  end.

Fixpoint row_eqb (a b : Row) : bool :=
  match a, b with
  | [], [] => true
  | (k, v) :: a', (k', v') :: b' =>
      String.eqb k k' && String.eqb v v' && row_eqb a' b'
  | _, _ => false
  end.

Definition srow_eqb (a b : SRow) : bool :=
  String.eqb (s_key a) (s_key b) && row_eqb (s_row a) (s_row b).

Definition partition_key (m : MergeStmt) (r : Row) : list string :=
  map (fun c => get c r) (m_partition_by m).

Definition same_partition (m : MergeStmt) (a b : SRow) : bool :=
  list_eqb (partition_key m (s_row a)) (partition_key m (s_row b)).

(** *** [QUALIFY row_number() over (partition by ... order by $n <dir>) = 1] *)

(** [a] is ordered strictly before [b]: the ordering field is text, compared
    character by character. *)
Definition comes_first (m : MergeStmt) (a b : SRow) : bool :=
  match m_order m with
  | Desc => String.ltb (s_key b) (s_key a)
  | Asc => String.ltb (s_key a) (s_key b)
  end.

(** [s] can be numbered one among [rows]: it is one of them, and no row of
    its partition is ordered strictly before it. *)
Definition number_one (m : MergeStmt) (rows : list SRow) (s : SRow) : bool :=
  existsb (srow_eqb s) rows &&
  forallb (fun r => negb (same_partition m r s && comes_first m r s)) rows.

Fixpoint nodupb (l : list (list string)) : bool :=
  match l with
  | [] => true
  | a :: rest => negb (existsb (list_eqb a) rest) && nodupb rest
  end.

(** [S] is a result of the sub-query on [rows]: one row of every partition,
    each one a row that can be numbered one.  Where two rows of a partition
    carry the same ordering field the warehouse numbers them as it likes,
    and either can be the row kept; the rows come in no fixed order.  Only
    the rank 1 is given a meaning. *)
Definition is_qualified (m : MergeStmt) (rows S : list SRow) : bool :=
  Nat.eqb (m_rank m) 1 &&
  nodupb (map (fun s => partition_key m (s_row s)) S) &&
  forallb (number_one m rows) S &&
  forallb (fun r => existsb (fun s => same_partition m s r) S) rows.

(** *** The join and the [WHEN] clauses *)

Definition on_match (m : MergeStmt) (t s : Row) : bool :=
  forallb (fun ab => String.eqb (get (fst ab) t) (get (snd ab) s)) (m_on m).

Definition test_holds (t : Test) (s : Row) : bool :=
  match t with
  | TestEq c l => String.eqb (get c s) l
  | TestNe c l => negb (String.eqb (get c s) l)
  end.

(** The clause that applies to a source row: the first one, in the order of
    the statement, of the right kind whose test holds. *)
Definition first_clause (m : MergeStmt) (matched : bool) (s : Row)
  : option WhenClause :=
  find (fun w => Bool.eqb (w_matched w) matched && test_holds (w_test w) s)
       (m_when m).

Definition update_row (set : list (string * string)) (t s : Row) : Row :=
  fold_left (fun acc ab => set_col (fst ab) (get (snd ab) s) acc) set t.

Definition insert_row (cols vals : list string) (s : Row) : Row :=
  combine cols (map (fun b => get b s) vals).

(** What becomes of the target row [t] joined with the source row [s]. *)
Definition when_matched (m : MergeStmt) (t s : Row) : list Row :=
  match first_clause m true s with
  | Some w =>
      match w_action w with
      | UpdateSet set => [update_row set t s]
      | Delete => []
      | Insert _ _ => [t]
      end
  | None => [t]
  end.

(** What the source row [s], joined with no target row, adds. *)
Definition when_not_matched (m : MergeStmt) (s : Row) : list Row :=
  match first_clause m false s with
  | Some w =>
      match w_action w with
      | Insert cols vals => [insert_row cols vals s]
      | _ => []
      end
  | None => []
  end.

Definition merge_rows (m : MergeStmt) (S : list SRow) (T : list Row) : list Row :=
  app
    (flat_map
       (fun t =>
          match find (fun s => on_match m t (s_row s)) S with
          | Some s => when_matched m t (s_row s)
          | None => [t]
          end) T)
    (flat_map
       (fun s =>
          if existsb (fun t => on_match m t (s_row s)) T then []
          else when_not_matched m (s_row s)) S).

(** A target row joined with two source rows: the warehouse refuses the
    merge (a nondeterministic merge) and changes nothing. *)
Definition ambiguous (m : MergeStmt) (S : list SRow) (T : list Row) : bool :=
  existsb
    (fun t =>
       (1 <? List.length (filter (fun s => on_match m t (s_row s)) S))%nat) T.

(** [T'] is a result of running the statement on the staged lines [batch]
    and the target [T]. *)
Definition merge_result (m : MergeStmt) (batch : list ChangeRow)
           (T T' : list Row) : Prop :=
  exists S : list SRow,
    is_qualified m (map (select_row m) batch) S = true /\
    ambiguous m S T = false /\
    T' = merge_rows m S T.

(** *** The four rules of the specification *)

Definition is_delete (s : Row) : bool := String.eqb (get flag_alias s) "D".

Definition key_names (td : TableDefinition) : list string :=
  map Name (filter is_pk (Columns td)).

Definition nonkey_names (td : TableDefinition) : list string :=
  map Name (filter (fun c => negb (is_pk c)) (Columns td)).

Definition all_names (td : TableDefinition) : list string :=
  map Name (Columns td).

Definition pk_equal (td : TableDefinition) (t s : Row) : bool :=
  forallb (fun c => String.eqb (get c t) (get c s)) (key_names td).

Definition update_nonkey (td : TableDefinition) (t s : Row) : Row :=
  fold_left (fun acc c => set_col c (get c s) acc) (nonkey_names td) t.

Definition row_of_all (td : TableDefinition) (s : Row) : Row :=
  map (fun c => (c, get c s)) (all_names td).

(** The merge of one staged row [s] into [T], in the specification's words:
    matched and not a delete, update every non-key column from the source
    row; matched and a delete, delete the target row; not matched and not a
    delete, insert a row with all columns; not matched and a delete,
    nothing. *)
Definition spec_merge_rules (td : TableDefinition) (s : Row)
           (T : list Row) : list Row :=
  if existsb (fun t => pk_equal td t s) T then
    if negb (is_delete s)
    then map (fun t => if pk_equal td t s then update_nonkey td t s else t) T
    else filter (fun t => negb (pk_equal td t s)) T
  else
    if negb (is_delete s)
    then app T [row_of_all td s]
    else T.

(** *** Applying the events one by one *)

(** Applying the events of a list one after the other, each one as a run of
    the statement on a file of that one line. *)
Inductive replay (m : MergeStmt) : list ChangeRow -> list Row -> list Row -> Prop :=
| replay_nil (T : list Row) : replay m [] T T
| replay_cons (e : ChangeRow) (events : list ChangeRow) (T T1 T' : list Row) :
    merge_result m [e] T T1 ->
    replay m events T1 T' ->
    replay m (e :: events) T T'.

(** The same as a function: a file of one line has one result. *)
Definition merge_one (m : MergeStmt) (e : ChangeRow) (T : list Row) : list Row :=
  merge_rows m [select_row m e] T.

Definition apply_in_order (m : MergeStmt) (events : list ChangeRow)
           (T : list Row) : list Row :=
  fold_left (fun acc e => merge_one m e acc) events T.

(** The events in commit order, the ordering key a sequence per row: of two
    events of one primary-key tuple the later one carries the greater
    ordering field, unless it is the same line delivered again.  Events of
    different tuples may share an ordering key. *)
Fixpoint commit_ordered (m : MergeStmt) (events : list ChangeRow) : bool :=
  match events with
  | [] => true
  | e :: rest =>
      forallb (fun e' =>
                 negb (same_partition m (select_row m e) (select_row m e'))
                 || String.ltb (field (m_order_by m) e) (field (m_order_by m) e')
                 || srow_eqb (select_row m e) (select_row m e'))
              rest
      && commit_ordered m rest
  end.

(** No two lines of one primary-key tuple that differ carry the same
    ordering field. *)
Definition distinct_keys (m : MergeStmt) (batch : list ChangeRow) : bool :=
  forallb
    (fun a =>
       forallb
         (fun b =>
            negb (same_partition m (select_row m a) (select_row m b))
            || negb (String.eqb (field (m_order_by m) a) (field (m_order_by m) b))
            || srow_eqb (select_row m a) (select_row m b))
         batch)
    batch.

(** The target holds at most one row with the primary-key tuple [k]. *)
Definition key_of_target (m : MergeStmt) (t : Row) : list string :=
  map (fun ab => get (fst ab) t) (m_on m).

Definition at_most_one (m : MergeStmt) (k : list string) (T : list Row) : bool :=
  (List.length (filter (fun t => list_eqb (key_of_target m t) k) T) <=? 1)%nat.

(** A target row has exactly the table's columns, in the table's order. *)
Definition well_shaped (td : TableDefinition) (t : Row) : bool :=
  list_eqb (map fst t) (all_names td).

End MergeSQL.

(* ================================================================== *)
(** ** Calls to the outside world                                      *)
(* ================================================================== *)

(** The commands talk to databases, object storage and the capture server.
    A computation threads the list of calls made so far (each with the
    outcome it had) and stops at the first error, as the Go code returns at
    the first non-nil [err]. *)
Module Effects.

Definition Eff (E A : Type) : Type := list E -> list E * result A.

Definition ret {E A : Type} (a : A) : Eff E A := fun h => (h, Ok a).

Definition bind {E A B : Type} (c : Eff E A) (k : A -> Eff E B) : Eff E B :=
  fun h =>
    match c h with
    | (h', Ok a) => k a h'
    | (h', Err e) => (h', Err e)
    | (h', Panic e) => (h', Panic e)
    end.

(** A call whose outcome [oracle] depends on what happened before; the
    call is recorded with its outcome. *)
Definition call {E A : Type} (record : result A -> E)
           (oracle : list E -> result A) : Eff E A :=
  fun h => let r := oracle h in (app h [record r], r).

(** A pure fallible step. *)
Definition lift {E A : Type} (r : result A) : Eff E A := fun h => (h, r).

(** [errors.Annotate(err, msg)] on the error of [c]; [errors.Trace] leaves
    the message as it is. *)
Definition annotate {E A : Type} (msg : string) (c : Eff E A) : Eff E A :=
  fun h =>
    match c h with
    | (h', Err e) => (h', Err (msg ++ ": " ++ e))
    | other => other
    end.

Definition trace_of {E A : Type} (c : Eff E A) : list E := fst (c []).
Definition outcome_of {E A : Type} (c : Eff E A) : result A := snd (c []).

End Effects.
Import Effects.

Notation "x <- c ;; k" := (bind c (fun x => k))
  (at level 61, c at next level, right associativity).
Notation "c ;;; k" := (bind c (fun _ => k))
  (at level 61, right associativity).

(** A parsed URL: the parts the commands read. *)
Record URL : Type := mkURL {
  Scheme : string;
  Host : string;
  Path : string;
  Query : list (string * string)
}.

(* ================================================================== *)
(** ** [cmd/snowflake/snapshot.go]: loading the dumped snapshot         *)
(* ================================================================== *)

Module Snapshot.

(** The calls of [loadSnapshotDataIntoSnowflake]. *)
Inductive Call : Type :=
| CreateExternalStage (stageName url : string) (r : result unit)
| ListObjectsV2 (bucket pre : string) (r : result (list string))
| Exec (sql : string) (r : result unit)
| DropStage (stageName : string) (r : result unit).

(** What the warehouse and the object store answer, given the calls so
    far. *)
Record World : Type := mkWorld {
  w_create_stage : list Call -> string -> string -> result unit;
  w_list : list Call -> string -> string -> result (list string);
  w_exec : list Call -> string -> result unit;
  w_drop_stage : list Call -> string -> result unit
}.

(** The fields of [ReplicateSession] the load reads. *)
Record ReplicateSession : Type := mkSession {
  SourceDatabase : string;
  SourceTable : string;
  StorageWorkspacePath : string
}.

Section Load.

(** [url.Parse]. *)
Variable url_Parse : string -> result URL.
(** [snowsql.GenLoadSnapshotFromStage targetTable stageName file], in a
    revision of [snowsql] that is not part of this development. *)
Variable GenLoadSnapshotFromStage : string -> string -> string -> string.
Variable w : World.

Definition is_dump_file (dumpFilePrefix key : string) : bool :=
  HasPrefix key dumpFilePrefix && HasSuffix key ".csv".

(** The [for _, dumpedSnapshot := range dumpedSnapshots] loop. *)
Fixpoint load_loop (table stageName : string) (dumpedSnapshots : list string)
  : Eff Call unit :=
  match dumpedSnapshots with
  | [] => ret tt
  | dumpedSnapshot :: rest =>
      let sql := GenLoadSnapshotFromStage table stageName dumpedSnapshot in
      call (Exec sql) (fun h => w_exec w h sql) ;;;
      load_loop table stageName rest
  end.

Definition loadSnapshotDataIntoSnowflake (sess : ReplicateSession)
  : Eff Call unit :=
  let stageName := "snapshot_stage_" ++ SourceTable sess in
  annotate "Failed to create stage"
    (call (CreateExternalStage stageName (StorageWorkspacePath sess))
          (fun h => w_create_stage w h stageName (StorageWorkspacePath sess))) ;;;
  parsedWorkspace <- lift (url_Parse (StorageWorkspacePath sess)) ;;
  let workspacePrefix := TrimPrefix (Path parsedWorkspace) "/" in
  let snapshotPrefix := workspacePrefix ++ "/snapshot/" in
  let dumpFilePrefix :=
    snapshotPrefix ++ SourceDatabase sess ++ "." ++ SourceTable sess ++ "." in
  contents <- call (ListObjectsV2 (Host parsedWorkspace) workspacePrefix)
                   (fun h => w_list w h (Host parsedWorkspace) workspacePrefix) ;;
  if (List.length contents =? 0)%nat then
    lift (Err "No snapshot files found")
  else
    let dumpedSnapshots :=
      map (fun key => TrimPrefix key workspacePrefix)
          (filter (is_dump_file dumpFilePrefix) contents) in
    load_loop (SourceTable sess) stageName dumpedSnapshots ;;;
    call (DropStage stageName) (fun h => w_drop_stage w h stageName) ;;;
    ret tt.

(** The loop tests [err] once more after building the statement; [err]
    is nil there (the listing succeeded, or the previous COPY did), so
    the test never fires. *)

(** The keys of a listing that follow the part-file naming convention. *)
Definition matching_parts (sess : ReplicateSession) (workspacePath : string)
           (contents : list string) : list string :=
  let workspacePrefix := TrimPrefix workspacePath "/" in
  filter (is_dump_file (workspacePrefix ++ "/snapshot/" ++ SourceDatabase sess
                          ++ "." ++ SourceTable sess ++ ".")) contents.

End Load.

Definition is_exec (c : Call) : bool :=
  match c with Exec _ _ => true | _ => false end.

Definition is_drop_stage (c : Call) : bool :=
  match c with DropStage _ _ => true | _ => false end.

End Snapshot.

(* ================================================================== *)
(** ** The [snowflake] command: phases of a replication job            *)
(* ================================================================== *)

Module Orchestrator.

Inductive RunMode : Type :=
| RunModeFull | RunModeSnapshotOnly | RunModeIncrementalOnly.

(** [cdcv2.ChangefeedConfig]: the fields that vary ([createChangefeed] fixes
    the CSV and cloud-storage settings). *)
Record ChangefeedConfig : Type := mkChangefeedConfig {
  SinkURI : string;
  FilterRules : list string;
  StartTs : N
}.

(** The reply to the POST: its status code and what reading and decoding
    the body gives. *)
Record HttpResponse : Type := mkHttpResponse {
  StatusCode : nat;
  Body : result unit
}.

(** [credentials.Value]. *)
Record Credential : Type := mkCredential {
  AccessKeyID : string;
  SecretAccessKey : string;
  SessionToken : string
}.

(** The calls of [run], each recorded with its outcome. *)
Inductive Call : Type :=
| GetExternalStorageFromURI (storagePath : string) (r : result unit)
| FileExists (name : string) (r : result bool)
| GetCurrentTSO (r : result N)
| EnvCredentials (r : result Credential)
| Getenv (name : string) (r : result (option string))
| HttpPost (url : string) (cfg : ChangefeedConfig) (r : result HttpResponse)
| OpenDB (r : result unit)
| NewSnowflakeConnector (stageName : string) (uri : option URL) (r : result unit)
| StartReplicateSnapshot (sourceDatabase sourceTable : string) (uri : URL)
                         (tso : string) (r : result unit)
| StartReplicateIncrement (uri : option URL) (r : result unit).

Record World : Type := mkWorld {
  w_storage : list Call -> string -> result unit;
  w_file_exists : list Call -> string -> result bool;
  w_current_tso : list Call -> result N;
  w_env_credentials : list Call -> result Credential;
  w_getenv : list Call -> string -> result (option string);
  w_http_post : list Call -> string -> ChangefeedConfig -> result HttpResponse;
  w_open_db : list Call -> result unit;
  w_new_connector : list Call -> string -> option URL -> result unit;
  w_replicate_snapshot :
    list Call -> string -> string -> URL -> string -> result unit;
  w_replicate_increment : list Call -> option URL -> result unit
}.

(** The flags of the command. *)
Record Flags : Type := mkFlags {
  mode : RunMode;
  tableFQN : string;
  storagePath : string;
  cdcHost : string;
  cdcPort : Z;
  cdcFlushInterval : Z;
  cdcFileSize : Z;
  sindURIStr : string
}.

Definition RunMode_eqb (a b : RunMode) : bool :=
  match a, b with
  | RunModeFull, RunModeFull
  | RunModeSnapshotOnly, RunModeSnapshotOnly
  | RunModeIncrementalOnly, RunModeIncrementalOnly => true
  | _, _ => false
  end.

(** [fmt.Sprint] of a [uint64]. *)
Definition utoa (n : N) : string := NilEmpty.string_of_uint (N.to_uint n).

(** [strings.SplitN(s, ".", 2)]: [None] when [s] has no dot (one part),
    otherwise the text before and after the first dot. *)
Fixpoint split_dot (s : string) : option (string * string) :=
  match s with
  | EmptyString => None
  | String c r =>
      if Ascii.eqb c "."%char then Some ("", r)
      else match split_dot r with
           | Some (a, b) => Some (String c a, b)
           | None => None
           end
  end.

Section Run.

(** [url.Parse], [url.JoinPath], the [String] method of a URL and that of
    a [time.Duration]. *)
Variable url_Parse : string -> result URL.
Variable url_JoinPath : string -> string -> result string.
Variable URL_String : URL -> string.
Variable Duration_String : Z -> string.
Variable w : World.

(** [values.Add] for each pair; the query is kept as the list of its
    pairs. *)
Definition add_values (u : URL) (vs : list (string * string)) : URL :=
  {| Scheme := Scheme u; Host := Host u; Path := Path u;
     Query := app (Query u) vs |}.

Definition genSinkURI (storagePath : string) (flushInterval fileSize : Z)
  : Eff Call URL :=
  sinkUri <- lift (url_Parse storagePath) ;;
  let sinkUri :=
    add_values sinkUri [("flush-interval", Duration_String flushInterval);
                        ("file-size", Snowsql.ztoa fileSize);
                        ("protocol", "csv")] in
  if String.eqb (Scheme sinkUri) "s3" then
    credValue <- annotate "Failed to resolve AWS credential"
                   (call EnvCredentials (w_env_credentials w)) ;;
    let sinkUri :=
      add_values sinkUri [("access-key", AccessKeyID credValue);
                          ("secret-access-key", SecretAccessKey credValue)] in
    ret (if String.eqb (SessionToken credValue) "" then sinkUri
         else add_values sinkUri [("session-token", SessionToken credValue)])
  else if String.eqb (Scheme sinkUri) "gcs" then
    found <- call (Getenv "GOOGLE_APPLICATION_CREDENTIALS")
                  (fun h => w_getenv w h "GOOGLE_APPLICATION_CREDENTIALS") ;;
    match found with
    | None => lift (Err "Failed to resolve GCS credential")
    | Some credValue =>
        ret (add_values sinkUri [("credentials-file", credValue)])
    end
  else
    lift (Err ("get sink uri failed, unsupported uri schema: "
                 ++ Scheme sinkUri)).

Definition createChangefeed (cdcServer : string) (sinkURI : URL)
           (tableFQN : string) (startTSO : N) : Eff Call unit :=
  let cfCfg := {| SinkURI := URL_String sinkURI;
                  FilterRules := [tableFQN];
                  StartTs := 0 |} in
  let cfCfg := if negb (N.eqb startTSO 0)
               then {| SinkURI := SinkURI cfCfg;
                       FilterRules := FilterRules cfCfg;
                       StartTs := startTSO |}
               else cfCfg in
  url <- annotate "join url failed"
           (lift (url_JoinPath cdcServer "api/v2/changefeeds")) ;;
  resp <- call (HttpPost url cfCfg) (fun h => w_http_post w h url cfCfg) ;;
  if negb (StatusCode resp =? 200)%nat then
    lift (Err ("create changefeed failed, status code: "
                 ++ itoa (StatusCode resp)))
  else
    lift (Body resp).

Definition run (fl : Flags) : Eff Call unit :=
  (* 0. check status *)
  call (GetExternalStorageFromURI (storagePath fl))
       (fun h => w_storage w h (storagePath fl)) ;;;
  metadataExist <- call (FileExists "increment/metadata")
                        (fun h => w_file_exists w h "increment/metadata") ;;
  loadinfoExist <- call (FileExists "snapshot/loadinfo")
                        (fun h => w_file_exists w h "snapshot/loadinfo") ;;
  (* 1. get current tso *)
  startTSO <-
    (if negb loadinfoExist
     then annotate "Failed to get current TSO"
            (call GetCurrentTSO (w_current_tso w))
     else ret 0%N) ;;
  (* 2. create changefeed *)
  sinkURI <-
    (if RunMode_eqb (mode fl) RunModeFull
        || (RunMode_eqb (mode fl) RunModeIncrementalOnly
            && String.eqb (sindURIStr fl) "")
     then
       increStoragePath <- lift (url_JoinPath (storagePath fl) "increment") ;;
       sinkURI <- genSinkURI increStoragePath (cdcFlushInterval fl)
                             (cdcFileSize fl) ;;
       (if negb loadinfoExist || negb metadataExist
        then annotate "Failed to create changefeed"
               (createChangefeed
                  ("http://" ++ cdcHost fl ++ ":" ++ Snowsql.ztoa (cdcPort fl))
                  sinkURI (tableFQN fl) startTSO)
        else ret tt) ;;;
       ret (Some sinkURI)
     else if RunMode_eqb (mode fl) RunModeIncrementalOnly
             && negb (String.eqb (sindURIStr fl) "")
     then
       uri <- lift (url_Parse (sindURIStr fl)) ;;
       ret (Some uri)
     else ret None) ;;
  names <-
    (if negb (String.eqb (tableFQN fl) "")
     then match split_dot (tableFQN fl) with
          | Some parts => ret parts
          | None => lift (Err "table must be a full-qualified name like mydb.mytable")
          end
     else ret ("", "")) ;;
  let sourceDatabase := fst names in
  let sourceTable := snd names in
  (* 3. run replicate snapshot *)
  (if (RunMode_eqb (mode fl) RunModeFull
       || RunMode_eqb (mode fl) RunModeSnapshotOnly)
      && negb loadinfoExist
   then
     snapStoragePath <- lift (url_JoinPath (storagePath fl) "snapshot") ;;
     call OpenDB (w_open_db w) ;;;
     snapshotURI <- annotate "Failed to parse workspace path"
                      (lift (url_Parse snapStoragePath)) ;;
     call (NewSnowflakeConnector ("snapshot_stage_" ++ sourceTable)
                                 (Some snapshotURI))
          (fun h => w_new_connector w h ("snapshot_stage_" ++ sourceTable)
                                    (Some snapshotURI)) ;;;
     annotate "Failed to replicate snapshot"
       (call (StartReplicateSnapshot sourceDatabase sourceTable snapshotURI
                                     (utoa startTSO))
             (fun h => w_replicate_snapshot w h sourceDatabase sourceTable
                                            snapshotURI (utoa startTSO)))
   else ret tt) ;;;
  (* 4. run replicate increment *)
  (if RunMode_eqb (mode fl) RunModeFull
      || RunMode_eqb (mode fl) RunModeIncrementalOnly
   then
     call OpenDB (w_open_db w) ;;;
     call (NewSnowflakeConnector ("increment_stage_" ++ sourceTable) sinkURI)
          (fun h => w_new_connector w h ("increment_stage_" ++ sourceTable)
                                    sinkURI) ;;;
     annotate "Failed to replicate incremental"
       (call (StartReplicateIncrement sinkURI)
             (fun h => w_replicate_increment w h sinkURI))
   else ret tt) ;;;
  ret tt.

End Run.

(** The kinds of call a claim speaks of. *)
Definition resolves_tso (c : Call) : bool :=
  match c with GetCurrentTSO _ => true | _ => false end.

Definition snapshot_load (c : Call) : bool :=
  match c with
  | StartReplicateSnapshot _ _ _ _ _ => true
  | _ => false
  end.

Definition registers_capture (c : Call) : bool :=
  match c with HttpPost _ _ _ => true | _ => false end.

(** The calls that probe the workspace, and those of incremental setup and
    replication. *)
Definition probe (c : Call) : bool :=
  match c with
  | GetExternalStorageFromURI _ _ | FileExists _ _ => true
  | _ => false
  end.


End Orchestrator.

(* ================================================================== *)
(** ** [snowsql/sql.go]: [LoadSnapshotFromStage] and its progress poller *)
(* ================================================================== *)

(** The load runs two goroutines: the caller, which executes the COPY, sends
    on the unbuffered channel [copyFinished] and waits on the wait group; and
    the poller, which leaves at once when the callback is nil and otherwise
    loops on a [select] between [copyFinished] and the ticker.  The model is
    the interleaving of the two, one state per program point. *)
Module Poller.

(** Program points of the caller. *)
Inductive Main : Type :=
| MStart      (* before [GetServerSideTimestamp] *)
| MExec       (* goroutine started, in [db.ExecContext] *)
| MSend       (* COPY returned, at [copyFinished <- struct{}{}] *)
| MWait       (* sent, at [wg.Wait()] *)
| MDone.      (* returned *)

(** Program points of the poller goroutine. *)
Inductive Worker : Type :=
| PNone       (* not started *)
| PInit       (* started, before the nil test *)
| PSelect     (* at the [select] *)
| PPoll       (* in the [ticker.C] case: query and callback *)
| PExit.      (* returned, [wg.Done()] called *)

Inductive Event : Type :=
| EvCopyReturned
| EvPoll            (* the callback was called *)
| EvStop            (* the poller received from [copyFinished] *)
| EvReturn.         (* [LoadSnapshotFromStage] returned *)

Record State : Type := mkState {
  main : Main;
  worker : Worker;
  log : list Event
}.

(** What the run depends on: whether [onSnapshotLoadProgress] is nil, and
    whether [GetServerSideTimestamp] succeeds. *)
Record Input : Type := mkInput {
  callback_nil : bool;
  timestamp_ok : bool
}.

Definition init : State := {| main := MStart; worker := PNone; log := [] |}.

Definition at_ (mn : Main) (wk : Worker) (s : State) (evs : list Event) : State :=
  {| main := mn; worker := wk; log := app (log s) evs |}.

(** The steps of the caller enabled in [s]. *)
Definition main_steps (i : Input) (s : State) : list State :=
  match main s with
  | MStart =>
      if timestamp_ok i
      then [at_ MExec PInit s []]          (* wg.Add(1); go func() ... *)
      else [at_ MDone (worker s) s [EvReturn]]
  | MExec => [at_ MSend (worker s) s [EvCopyReturned]]
  | MSend =>
      (* the send completes when the poller is receiving at its select *)
      match worker s with
      | PSelect => [at_ MWait PExit s [EvStop]]
      | _ => []
      end
  | MWait =>
      match worker s with
      | PExit => [at_ MDone PExit s [EvReturn]]
      | _ => []
      end
  | MDone => []
  end.

(** The steps of the poller enabled in [s] (the hand-over on the channel
    is counted with the caller). *)
Definition worker_steps (i : Input) (s : State) : list State :=
  match worker s with
  | PNone => []
  | PInit =>
      if callback_nil i
      then [at_ (main s) PExit s []]       (* return; deferred wg.Done() *)
      else [at_ (main s) PSelect s []]
  | PSelect => [at_ (main s) PPoll s []]   (* a tick *)
  | PPoll => [at_ (main s) PSelect s [EvPoll]]
  | PExit => []
  end.

Definition steps (i : Input) (s : State) : list State :=
  app (main_steps i s) (worker_steps i s).

Inductive reachable (i : Input) : State -> Prop :=
| reach_init : reachable i init
| reach_step (s s' : State) :
    reachable i s -> In s' (steps i s) -> reachable i s'.

(** Nothing can run any more. *)
Definition stuck (i : Input) (s : State) : Prop := steps i s = [].

Fixpoint count_stop (l : list Event) : nat :=
  match l with
  | [] => 0
  | EvStop :: r => S (count_stop r)
  | _ :: r => count_stop r
  end.

End Poller.

(* ================================================================== *)
(** ** Sample tables and batches                                       *)
(* ================================================================== *)

Module Samples.
Import MergeSQL.

Definition col (name tp : string) (pk : bool) : TableCol :=
  {| Name := name; Tp := tp; Default := None; Precision := ""; Scale := "";
     Nullable := if pk then "false" else "true";
     IsPK := if pk then "true" else "false" |}.

(** [users(id INT PRIMARY KEY, name VARCHAR)]. *)
Definition td_users : TableDefinition :=
  {| Table := "users"; Schema := "test"; Type_ := ActionNone;
     Columns := [col "id" "int" true; col "name" "varchar" false] |}.

(** [logs(line VARCHAR)], a table without primary key. *)
Definition td_logs : TableDefinition :=
  {| Table := "logs"; Schema := "test"; Type_ := ActionNone;
     Columns := [col "line" "varchar" false] |}.

Definition ev (flag ts : string) (cols : list string) : ChangeRow :=
  {| cr_flag := flag; cr_table := "users"; cr_schema := "test";
     cr_commit_ts := ts; cr_cols := cols |}.

(** The batch [(U,1,pk=5,name=a), (U,2,pk=5,name=b), (D,3,pk=5)]. *)
Definition batch_5 : list ChangeRow :=
  [ev "U" "1" ["5"; "a"]; ev "U" "2" ["5"; "b"]; ev "D" "3" ["5"; "b"]].

(** Events on three tuples, in commit order. *)
Definition batch_578 : list ChangeRow :=
  [ev "U" "1" ["5"; "a"]; ev "I" "2" ["8"; "n"]; ev "U" "3" ["5"; "b"];
   ev "D" "4" ["7"; "z"]].

Definition row_5 (name : string) : Row := [("id", "5"); ("name", name)].
Definition row_7 : Row := [("id", "7"); ("name", "z")].

End Samples.

(** Further samples: a stand-in for [strconv.ParseFloat] on the sample
    values (it accepts the non-empty strings of decimal digits), and columns
    with default values. *)
Module DefaultSamples.
Import Snowsql.

Definition is_digit (c : ascii) : bool :=
  let n := nat_of_ascii c in ((48 <=? n) && (n <=? 57))%nat.

Fixpoint all_digits (s : string) : bool :=
  match s with
  | EmptyString => true
  | String c r => is_digit c && all_digits r
  end.

Definition digits_only (s : string) : bool :=
  negb (String.eqb s "") && all_digits s.

Definition ci_id : TiDBColumnInfo :=
  {| ColumnName := "id"; ColumnDefault := Some "0"; IsNullable := "false";
     DataType := "int"; CharMaxLength := None; NumPrecision := Some 10%Z;
     NumScale := Some 0%Z; DateTimePrec := None |}.

Definition ci_name : TiDBColumnInfo :=
  {| ColumnName := "name"; ColumnDefault := Some "abc"; IsNullable := "true";
     DataType := "varchar"; CharMaxLength := Some 10%Z; NumPrecision := None;
     NumScale := None; DateTimePrec := None |}.

Definition tc_name : TableCol :=
  {| Name := "name"; Tp := "varchar"; Default := Some "abc";
     Precision := "10"; Scale := ""; Nullable := "true"; IsPK := "false" |}.

Definition tc_id : TableCol :=
  {| Name := "id"; Tp := "int"; Default := Some "0";
     Precision := "10"; Scale := ""; Nullable := "false"; IsPK := "true" |}.

(** A type rendering for the samples. *)
Definition sample_type (c : TableCol) : result string :=
  Ok (Name c ++ " " ++ ToUpper (Tp c)).

End DefaultSamples.

Module DDLSamples.
Import Redshiftsql DefaultSamples.

Definition tc_age : TableCol :=
  {| Name := "age"; Tp := "int"; Default := None;
     Precision := ""; Scale := ""; Nullable := "true"; IsPK := "false" |}.

Definition add_age : ColumnDiff :=
  {| Action := ADD_COLUMN; Before := None; After := Some tc_age |}.

Definition keep_name : ColumnDiff :=
  {| Action := UNCHANGE; Before := Some tc_name; After := Some tc_name |}.

Definition td_truncate : TableDefinition :=
  {| Table := "t"; Schema := "test"; Type_ := ActionTruncateTable;
     Columns := [tc_id; tc_name] |}.

Definition sample_diff (prev cur : list TableCol) : result (list ColumnDiff) :=
  Ok [keep_name; add_age].

End DDLSamples.

Module SnapshotSamples.
Import Snapshot.

Definition sample_parse (s : string) : result URL :=
  if String.eqb s "s3://bucket/ws"
  then Ok {| Scheme := "s3"; Host := "bucket"; Path := "/ws"; Query := [] |}
  else Err "parse error".

Definition sample_copy (table stage file : string) : string :=
  "COPY INTO " ++ table ++ " FROM @" ++ stage ++ file.

Definition sess_users : ReplicateSession :=
  {| SourceDatabase := "test"; SourceTable := "users";
     StorageWorkspacePath := "s3://bucket/ws" |}.

(** A workspace that holds the dump's metadata and schema files but no
    part-file of the table; every statement succeeds. *)
Definition world_no_parts : World :=
  {| w_create_stage := fun _ _ _ => Ok tt;
     w_list := fun _ _ _ =>
                 Ok ["ws/snapshot/metadata";
                     "ws/snapshot/test.users-schema.sql"];
     w_exec := fun _ _ => Ok tt;
     w_drop_stage := fun _ _ => Ok tt |}.

(** Two part-files; the second COPY fails. *)
Definition world_second_fails : World :=
  {| w_create_stage := fun _ _ _ => Ok tt;
     w_list := fun _ _ _ =>
                 Ok ["ws/snapshot/test.users.0.csv";
                     "ws/snapshot/test.users.1.csv"];
     w_exec := fun h _ => if (List.length h =? 3)%nat
                          then Err "copy failed" else Ok tt;
     w_drop_stage := fun _ _ => Ok tt |}.

End SnapshotSamples.

Module OrchSamples.
Import Orchestrator.

Definition sample_url (s : string) : result URL :=
  if String.prefix "s3://bucket" s
  then Ok {| Scheme := "s3"; Host := "bucket";
             Path := substring 11 (String.length s - 11) s; Query := [] |}
  else Err "parse error".

Definition sample_join (base elem : string) : result string :=
  Ok (base ++ "/" ++ elem).

Definition sample_string (u : URL) : string :=
  Scheme u ++ "://" ++ Host u ++ Path u.

Definition sample_duration (d : Z) : string := "1m0s".

(** A world where every call succeeds; the markers present are those of
    [markers], and the source's current TSO is 442. *)
Definition world_with (markers : list string) : World :=
  {| w_storage := fun _ _ => Ok tt;
     w_file_exists := fun _ name => Ok (existsb (String.eqb name) markers);
     w_current_tso := fun _ => Ok 442%N;
     w_env_credentials := fun _ =>
       Ok {| AccessKeyID := "key"; SecretAccessKey := "secret";
             SessionToken := "" |};
     w_getenv := fun _ _ => Ok None;
     w_http_post := fun _ _ _ => Ok {| StatusCode := 200; Body := Ok tt |};
     w_open_db := fun _ => Ok tt;
     w_new_connector := fun _ _ _ => Ok tt;
     w_replicate_snapshot := fun _ _ _ _ _ => Ok tt;
     w_replicate_increment := fun _ _ => Ok tt |}.

Definition flags_full : Flags :=
  {| mode := RunModeFull; tableFQN := "test.users";
     storagePath := "s3://bucket/ws"; cdcHost := "127.0.0.1";
     cdcPort := 8300; cdcFlushInterval := 60000000000;
     cdcFileSize := 67108864; sindURIStr := "" |}.

Definition sample_run (w : World) (fl : Flags) : Eff Call unit :=
  run sample_url sample_join sample_string sample_duration w fl.

End OrchSamples.

(* ================================================================== *)
(** ** [pkg/redshiftsql/ddl.go]: column changes and read-back columns   *)
(* ================================================================== *)

Module RedshiftMore.
Import Redshiftsql.

Section Modify.

Variable GetRedshiftTypeString : TableCol -> result string.
(** [!=] on the two [interface{}] default values. *)
Variable Default_differs : option string -> option string -> bool.

(** [GetColumnModifyString]; a nil [Before] or [After] panics at the first
    field read. *)
Definition GetColumnModifyString (diff : ColumnDiff) : result string :=
  match Before diff, After diff with
  | Some b, Some a =>
      let typed : result (list string) :=
        if negb (String.eqb (Tp b) (Tp a))
           || negb (String.eqb (Precision b) (Precision a))
           || negb (String.eqb (Scale b) (Scale a))
        then match GetRedshiftTypeString a with
             | Ok colStr => Ok ["COLUMN " ++ colStr]
             | Err e => Err e
             | Panic e => Panic e
             end
        else Ok [] in
      match typed with
      | Err e => Err e
      | Panic e => Panic e
      | Ok strs =>
          let strs :=
            if Default_differs (Default b) (Default a) then
              match Default a with
              | None => app strs ["COLUMN " ++ Name a ++ " DROP DEFAULT"]
              | Some _ => strs  (* a warning is logged *)
              end
            else strs in
          let strs :=
            if negb (String.eqb (Nullable b) (Nullable a)) then
              if String.eqb (Nullable a) "true"
              then app strs ["COLUMN " ++ Name a ++ " DROP NOT NULL"]
              else app strs ["COLUMN " ++ Name a ++ " SET NOT NULL"]
            else strs in
          Ok (Join strs ", ")
      end
  | _, _ => Panic "nil pointer dereference"
  end.

End Modify.

(** One row of [information_schema.columns] as [GetRedshiftTableColumn]
    scans it. *)
Record ColumnRow : Type := mkColumnRow {
  ColumnName : string;
  ColumnDefault : option string;
  IsNullable : string;
  DataType : string;
  CharMaxLength : option Z;
  NumPrecision : option Z;
  NumScale : option Z;
  DateTimePrec : option Z
}.

(** The [cloudstorage.TableCol] built from one scanned row: the body of the
    [for rows.Next()] loop after the scan. *)
Definition table_col_of (column : ColumnRow) : TableCol :=
  let precision :=
    match NumPrecision column, DateTimePrec column, CharMaxLength column with
    | Some p, _, _ => Snowsql.ztoa p
    | None, Some p, _ => Snowsql.ztoa p
    | None, None, Some p => Snowsql.ztoa p
    | None, None, None => ""
    end in
  let scale :=
    match NumScale column with
    | Some s => Snowsql.ztoa s
    | None => ""
    end in
  let nullable := if String.eqb (IsNullable column) "YES" then "true" else "false" in
  {| Name := ColumnName column;
     Tp := DataType column;
     Default := ColumnDefault column;
     Precision := precision;
     Scale := scale;
     Nullable := nullable;
     IsPK := "" |}.

(** [GetRedshiftTableColumn] on the rows its query returns. *)
Definition GetRedshiftTableColumn (rows : list ColumnRow) : list TableCol :=
  map table_col_of rows.

End RedshiftMore.

(* ================================================================== *)
(** ** Further samples for the schema and the Redshift translation     *)
(* ================================================================== *)

Module SchemaMore.
Import Snowsql.

(** The data types the [switch column.DataType] of [GenCreateSchema] has a
    case for. *)
Definition supported (dt : string) : bool :=
  one_of dt ["text"; "longtext"; "mediumtext"; "tinytext";
             "blob"; "longblob"; "mediumblob"; "tinyblob"]
  || one_of dt ["varchar"; "char"; "binary"; "varbinary"]
  || one_of dt ["int"; "mediumint"]
  || one_of dt ["bigint"; "tinyint"; "smallint"; "float"; "double"]
  || one_of dt ["decimal"; "numeric"]
  || one_of dt ["bool"; "boolean"]
  || String.eqb dt "date"
  || one_of dt ["datetime"; "timestamp"; "time"].

(** The [switch column.DataType] of [GenCreateSchema] with what it writes
    on standard output: the lines printed, and the type part as
    [column_type] gives it.  Only the default case prints:
    [fmt.Println("Unsupported data type: ", column.DataType)] writes its two
    operands with a space between them and a newline after them. *)
Definition column_type_out (column : TiDBColumnInfo)
  : list string * result string :=
  let name := ColumnName column in
  let dt := DataType column in
  let deref (p : option Z) (k : Z -> string) : result string :=
    match p with
    | Some v => Ok (k v)
    | None => Panic "nil pointer dereference"
    end in
  if one_of dt ["text"; "longtext"; "mediumtext"; "tinytext";
                "blob"; "longblob"; "mediumblob"; "tinyblob"] then
    ([], Ok (name ++ " " ++ "TEXT"))
  else if one_of dt ["varchar"; "char"; "binary"; "varbinary"] then
    ([], deref (CharMaxLength column)
               (fun n => name ++ " " ++ ToUpper dt ++ "(" ++ ztoa n ++ ")"))
  else if one_of dt ["int"; "mediumint"] then
    ([], Ok (name ++ " " ++ "INT"))
  else if one_of dt ["bigint"; "tinyint"; "smallint"; "float"; "double"] then
    ([], Ok (name ++ " " ++ ToUpper dt))
  else if one_of dt ["decimal"; "numeric"] then
    ([], match NumPrecision column, NumScale column with
         | Some p, Some s =>
             Ok (name ++ " " ++ ToUpper dt ++ "(" ++ ztoa p ++ ", "
                      ++ ztoa s ++ ")")
         | _, _ => Panic "nil pointer dereference"
         end)
  else if one_of dt ["bool"; "boolean"] then
    ([], Ok (name ++ " " ++ "BOOLEAN"))
  else if String.eqb dt "date" then
    ([], Ok (name ++ " " ++ "DATE"))
  else if one_of dt ["datetime"; "timestamp"; "time"] then
    ([], deref (DateTimePrec column)
               (fun n => name ++ " " ++ ToUpper dt ++ "(" ++ ztoa n ++ ")"))
  else (["Unsupported data type: " ++ " " ++ dt ++ nl], Ok "").

(** The body of the [for rows.Next()] loop, and the loop, with the lines
    printed; a panic ends the loop and keeps what was printed before. *)
Definition column_row_out (ParseFloat_ok : string -> bool)
           (column : TiDBColumnInfo) : list string * result string :=
  let (out, ty) := column_type_out column in
  (out,
   match ty with
   | Err e => Err e
   | Panic e => Panic e
   | Ok createTableQuery =>
       let q := if String.eqb (IsNullable column) "false"
                then createTableQuery ++ " NOT NULL" else createTableQuery in
       Ok (q ++ default_clause ParseFloat_ok column)
   end).

Fixpoint column_rows_out (ParseFloat_ok : string -> bool)
         (columns : list TiDBColumnInfo) : list string * result (list string) :=
  match columns with
  | [] => ([], Ok [])
  | c :: rest =>
      let (out, r) := column_row_out ParseFloat_ok c in
      match r with
      | Err e => (out, Err e)
      | Panic e => (out, Panic e)
      | Ok row =>
          let (out', rs) := column_rows_out ParseFloat_ok rest in
          (app out out',
           match rs with
           | Ok rs => Ok (row :: rs)
           | other => other
           end)
      end
  end.

(** A row of [information_schema.columns] as the database returns it. *)
Definition ci_no : TiDBColumnInfo :=
  {| ColumnName := "id"; ColumnDefault := None; IsNullable := "NO";
     DataType := "bigint"; CharMaxLength := None; NumPrecision := Some 19%Z;
     NumScale := Some 0%Z; DateTimePrec := None |}.

End SchemaMore.

Module RedshiftSamples.
Import Redshiftsql RedshiftMore.

Definition tc_name_required : TableCol :=
  {| Name := "name"; Tp := "varchar"; Default := Some "n/a";
     Precision := "10"; Scale := ""; Nullable := "false"; IsPK := "false" |}.

Definition td_users_v2 : TableDefinition :=
  {| Table := "t"; Schema := "test"; Type_ := ActionOther 5;
     Columns := [DefaultSamples.tc_id; DefaultSamples.tc_name;
                 DDLSamples.tc_age] |}.

Definition cr_id : ColumnRow :=
  {| ColumnName := "id"; ColumnDefault := None; IsNullable := "NO";
     DataType := "integer"; CharMaxLength := None; NumPrecision := Some 32%Z;
     NumScale := Some 0%Z; DateTimePrec := None |}.

End RedshiftSamples.

Module SnapshotMoreSamples.
Import Snapshot SnapshotSamples.

(** Two part-files beside the dump's metadata; every statement succeeds. *)
Definition world_two_parts : World :=
  {| w_create_stage := fun _ _ _ => Ok tt;
     w_list := fun _ _ _ =>
                 Ok ["ws/snapshot/metadata";
                     "ws/snapshot/test.users.0.csv";
                     "ws/snapshot/test.users.1.csv"];
     w_exec := fun _ _ => Ok tt;
     w_drop_stage := fun _ _ => Ok tt |}.

(** The warehouse refuses to create the stage. *)
Definition world_no_stage : World :=
  {| w_create_stage := fun _ _ _ => Err "denied";
     w_list := fun _ _ _ => Ok ["ws/snapshot/test.users.0.csv"];
     w_exec := fun _ _ => Ok tt;
     w_drop_stage := fun _ _ => Ok tt |}.

End SnapshotMoreSamples.

(* ================================================================== *)
(** ** Kinds of calls and samples for the runs of the command          *)
(* ================================================================== *)

Module OrchMore.
Import Orchestrator OrchSamples.

(** The kind of a call, without its arguments and outcome. *)
Inductive Kind : Type :=
| KStorage | KFileExists | KTSO | KEnvCredentials | KGetenv | KPost
| KOpenDB | KConnector | KSnapshot | KIncrement.

Definition kind (c : Call) : Kind :=
  match c with
  | GetExternalStorageFromURI _ _ => KStorage
  | FileExists _ _ => KFileExists
  | GetCurrentTSO _ => KTSO
  | EnvCredentials _ => KEnvCredentials
  | Getenv _ _ => KGetenv
  | HttpPost _ _ _ => KPost
  | OpenDB _ => KOpenDB
  | NewSnowflakeConnector _ _ _ => KConnector
  | StartReplicateSnapshot _ _ _ _ _ => KSnapshot
  | StartReplicateIncrement _ _ => KIncrement
  end.

Definition Kind_eqb (a b : Kind) : bool :=
  match a, b with
  | KStorage, KStorage | KFileExists, KFileExists | KTSO, KTSO
  | KEnvCredentials, KEnvCredentials | KGetenv, KGetenv | KPost, KPost
  | KOpenDB, KOpenDB | KConnector, KConnector | KSnapshot, KSnapshot
  | KIncrement, KIncrement => true
  | _, _ => false
  end.

(** [l] is [p] with some of its elements left out. *)
Fixpoint subseqb (l p : list Kind) : bool :=
  match l, p with
  | [], _ => true
  | _ :: _, [] => false
  | x :: l', y :: p' =>
      if Kind_eqb x y then subseqb l' p' else subseqb l p'
  end.

(** The calls of a run in the order of the source text of [run]. *)
Definition protocol : list Kind :=
  [KStorage; KFileExists; KFileExists; KTSO;
   KEnvCredentials; KGetenv; KPost;
   KOpenDB; KConnector; KSnapshot;
   KOpenDB; KConnector; KIncrement].

(** The recorded outcome of a call is a failure. *)
Definition failed (c : Call) : bool :=
  match c with
  | GetExternalStorageFromURI _ (Ok _) | FileExists _ (Ok _)
  | GetCurrentTSO (Ok _) | EnvCredentials (Ok _) | Getenv _ (Ok _)
  | HttpPost _ _ (Ok _) | OpenDB (Ok _) | NewSnowflakeConnector _ _ (Ok _)
  | StartReplicateSnapshot _ _ _ _ (Ok _)
  | StartReplicateIncrement _ (Ok _) => false
  | _ => true
  end.

(** The capture service answered the registration, but not with status
    200 and a body that can be read and decoded. *)
Definition refused (c : Call) : bool :=
  match c with
  | HttpPost _ _ (Ok resp) =>
      negb (StatusCode resp =? 200)%nat
      || match Body resp with Ok _ => false | _ => true end
  | _ => false
  end.

(** The calls that replicate: opening the warehouse, building a connector,
    and the two replications. *)
Definition replicates (c : Call) : bool :=
  match kind c with
  | KOpenDB | KConnector | KSnapshot | KIncrement => true
  | _ => false
  end.

(** Reading credentials from the environment. *)
Definition reads_credentials (c : Call) : bool :=
  match kind c with
  | KEnvCredentials | KGetenv => true
  | _ => false
  end.

(** The capture service is there but answers 404. *)
Definition world_cdc_404 : World :=
  {| w_storage := fun _ _ => Ok tt;
     w_file_exists := fun _ _ => Ok false;
     w_current_tso := fun _ => Ok 442%N;
     w_env_credentials := fun _ =>
       Ok {| AccessKeyID := "key"; SecretAccessKey := "secret";
             SessionToken := "" |};
     w_getenv := fun _ _ => Ok None;
     w_http_post := fun _ _ _ => Ok {| StatusCode := 404; Body := Ok tt |};
     w_open_db := fun _ => Ok tt;
     w_new_connector := fun _ _ _ => Ok tt;
     w_replicate_snapshot := fun _ _ _ _ _ => Ok tt;
     w_replicate_increment := fun _ _ => Ok tt |}.

(** Every call succeeds but the snapshot replication. *)
Definition world_snapshot_fails : World :=
  {| w_storage := fun _ _ => Ok tt;
     w_file_exists := fun _ _ => Ok false;
     w_current_tso := fun _ => Ok 442%N;
     w_env_credentials := fun _ =>
       Ok {| AccessKeyID := "key"; SecretAccessKey := "secret";
             SessionToken := "" |};
     w_getenv := fun _ _ => Ok None;
     w_http_post := fun _ _ _ => Ok {| StatusCode := 200; Body := Ok tt |};
     w_open_db := fun _ => Ok tt;
     w_new_connector := fun _ _ _ => Ok tt;
     w_replicate_snapshot := fun _ _ _ _ _ => Err "dump failed";
     w_replicate_increment := fun _ _ => Ok tt |}.

(** The text holds no dot. *)
Fixpoint no_dot (s : string) : bool :=
  match s with
  | EmptyString => true
  | String c r => negb (Ascii.eqb c "."%char) && no_dot r
  end.

(** What [genSinkURI] makes of the parsed storage path [u]: the same
    location, with the query of [u] and the sink settings in its query. *)
Definition sink_of (Duration_String : Z -> string) (flushInterval fileSize : Z)
           (u sink : URL) : Prop :=
  Scheme sink = Scheme u /\ Host sink = Host u /\ Path sink = Path u
  /\ incl (Query u) (Query sink)
  /\ In ("flush-interval", Duration_String flushInterval) (Query sink)
  /\ In ("file-size", Snowsql.ztoa fileSize) (Query sink)
  /\ In ("protocol", "csv") (Query sink).

Definition flags_unqualified : Flags :=
  {| mode := RunModeFull; tableFQN := "users";
     storagePath := "s3://bucket/ws"; cdcHost := "127.0.0.1";
     cdcPort := 8300; cdcFlushInterval := 60000000000;
     cdcFileSize := 67108864; sindURIStr := "" |}.

Definition flags_snapshot_only : Flags :=
  {| mode := RunModeSnapshotOnly; tableFQN := "test.users";
     storagePath := "s3://bucket/ws"; cdcHost := "127.0.0.1";
     cdcPort := 8300; cdcFlushInterval := 60000000000;
     cdcFileSize := 67108864; sindURIStr := "" |}.

Definition flags_incremental_from : Flags :=
  {| mode := RunModeIncrementalOnly; tableFQN := "test.users";
     storagePath := "s3://bucket/ws"; cdcHost := "127.0.0.1";
     cdcPort := 8300; cdcFlushInterval := 60000000000;
     cdcFileSize := 67108864; sindURIStr := "s3://bucket/other" |}.

End OrchMore.

(* ================================================================== *)
(** ** Runs of the progress poller                                      *)
(* ================================================================== *)

Module PollerMore.
Import Poller.

(** [s'] can be reached from [s]. *)
Inductive reaches (i : Input) : State -> State -> Prop :=
| reaches_refl (s : State) : reaches i s s
| reaches_step (s s' s'' : State) :
    In s' (steps i s) -> reaches i s' s'' -> reaches i s s''.

(** The progress reports of [n] ticks. *)
Definition polls (n : nat) : list Event := repeat EvPoll n.

End PollerMore.

(* ================================================================== *)
(** ** [cmd/snowflake/snapshot.go]: the replication session            *)
(* ================================================================== *)

Module Session.

(** The calls of [ReplicateSession.Run], each recorded with its outcome.
    [NewDumper] is recorded with the value of [conf.Snapshot] it leaves;
    [LoadSnapshot] stands for [loadSnapshotDataIntoSnowflake]. *)
Inductive Call : Type :=
| PingSnowflake (r : result unit)
| PingTiDB (r : result unit)
| GetConfTables (tableFQN : string) (r : result unit)
| NewDumper (r : result string)
| SetSnapshot (snapshot : string) (r : result unit)
| GenCreateSchema (sourceDatabase sourceTable : string) (r : result string)
| ExecSchema (sql : string) (r : result unit)
| Dump (r : result unit)
| CloseDumper (r : result unit)
| LoadSnapshot (r : result unit).

Record World : Type := mkWorld {
  w_ping_snowflake : list Call -> result unit;
  w_ping_tidb : list Call -> result unit;
  w_conf_tables : list Call -> string -> result unit;
  w_new_dumper : list Call -> result string;
  w_set_snapshot : list Call -> string -> result unit;
  w_gen_schema : list Call -> string -> string -> result string;
  w_exec_schema : list Call -> string -> result unit;
  w_dump : list Call -> result unit;
  w_close_dumper : list Call -> result unit;
  w_load : list Call -> result unit
}.

(** The fields of [ReplicateSession] that [Run] reads. *)
Record ReplicateSession : Type := mkSession {
  TableFQN : string;
  SourceDatabase : string;
  SourceTable : string
}.

(** [v, err := f()] without a test of [err]: the error is kept as a value
    and the function goes on; a panic still unwinds. *)
Definition attempt {A : Type} (c : Eff Call A) : Eff Call (result A) :=
  fun h =>
    match c h with
    | (h', Panic e) => (h', Panic e)
    | (h', r) => (h', Ok r)
    end.

Section Run.
Variable w : World.

Definition buildDumperConfig (sess : ReplicateSession) : Eff Call unit :=
  call (GetConfTables (TableFQN sess))
       (fun h => w_conf_tables w h (TableFQN sess)).

(** [buildDumper]: the result is [sess.ResolvedTSO]. *)
Definition buildDumper (sess : ReplicateSession) : Eff Call string :=
  annotate "Failed to build dumpling config" (buildDumperConfig sess) ;;;
  snapshot <- annotate "Failed to create dumpling instance"
                (call NewDumper (w_new_dumper w)) ;;
  if (String.length snapshot =? 0)%nat then
    lift (Err "Snapshot is not available")
  else
    call (SetSnapshot snapshot) (fun h => w_set_snapshot w h snapshot) ;;;
    ret snapshot.

Definition dumpPrepareTargetTable (sess : ReplicateSession) : Eff Call unit :=
  sql <- call (GenCreateSchema (SourceDatabase sess) (SourceTable sess))
              (fun h => w_gen_schema w h (SourceDatabase sess)
                                     (SourceTable sess)) ;;
  call (ExecSchema sql) (fun h => w_exec_schema w h sql).

Definition Run (sess : ReplicateSession) : Eff Call unit :=
  annotate "Failed to connect to Snowflake"
    (call PingSnowflake (w_ping_snowflake w)) ;;;
  annotate "Failed to connect to TiDB"
    (call PingTiDB (w_ping_tidb w)) ;;;
  buildDumper sess ;;;
  dumpPrepareTargetTable sess ;;;
  err <- attempt (call Dump (w_dump w)) ;;
  attempt (call CloseDumper (w_close_dumper w)) ;;;
  annotate "Failed to dump table from TiDB" (lift err) ;;;
  annotate "Failed to load snapshot data into Snowflake"
    (call LoadSnapshot (w_load w)) ;;;
  ret tt.

End Run.

Definition is_close (c : Call) : bool :=
  match c with CloseDumper _ => true | _ => false end.

Definition is_dump (c : Call) : bool :=
  match c with Dump _ => true | _ => false end.

Definition is_load (c : Call) : bool :=
  match c with LoadSnapshot _ => true | _ => false end.

(** The dumper was created. *)
Definition dumper_created (c : Call) : bool :=
  match c with NewDumper (Ok _) => true | _ => false end.

(** Every call succeeds but the creation of the target table. *)
Definition world_schema_fails : World :=
  {| w_ping_snowflake := fun _ => Ok tt;
     w_ping_tidb := fun _ => Ok tt;
     w_conf_tables := fun _ _ => Ok tt;
     w_new_dumper := fun _ => Ok "442";
     w_set_snapshot := fun _ _ => Ok tt;
     w_gen_schema := fun _ _ _ => Ok "CREATE OR REPLACE TABLE users (id INT)";
     w_exec_schema := fun _ _ => Err "denied";
     w_dump := fun _ => Ok tt;
     w_close_dumper := fun _ => Ok tt;
     w_load := fun _ => Ok tt |}.

(** Everything succeeds but the closing of the dumper. *)
Definition world_close_fails : World :=
  {| w_ping_snowflake := fun _ => Ok tt;
     w_ping_tidb := fun _ => Ok tt;
     w_conf_tables := fun _ _ => Ok tt;
     w_new_dumper := fun _ => Ok "442";
     w_set_snapshot := fun _ _ => Ok tt;
     w_gen_schema := fun _ _ _ => Ok "CREATE OR REPLACE TABLE users (id INT)";
     w_exec_schema := fun _ _ => Ok tt;
     w_dump := fun _ => Ok tt;
     w_close_dumper := fun _ => Err "close failed";
     w_load := fun _ => Ok tt |}.

Definition sess_users : ReplicateSession :=
  {| TableFQN := "test.users"; SourceDatabase := "test";
     SourceTable := "users" |}.

End Session.

Module NewSession.
Import Orchestrator.

(** The calls of [NewReplicateSession]. *)
Inductive Call : Type :=
| NewAWSSession (r : result unit)
| EnvCredentials (r : result Credential)
| GetBucketRegion (bucket : string) (r : result string)
| SnowflakeDSN (r : result string)
| OpenSnowflake (dsn : string) (r : result unit)
| ReadFile (name : string) (r : result string)
| AppendCertsFromPEM (pem : string) (r : result bool)
| OpenTiDB (r : result unit).

Record World : Type := mkWorld {
  w_aws_session : list Call -> result unit;
  w_env_credentials : list Call -> result Credential;
  w_bucket_region : list Call -> string -> result string;
  w_dsn : list Call -> result string;
  w_open_snowflake : list Call -> string -> result unit;
  w_read_file : list Call -> string -> result string;
  w_append_certs : list Call -> string -> result bool;
  w_open_tidb : list Call -> result unit
}.

(** The fields of the session that [NewReplicateSession] computes. *)
Record ReplicateSession : Type := mkSession {
  ID : string;
  TableFQN : string;
  SourceDatabase : string;
  SourceTable : string;
  StorageWorkspacePath : string;
  ResolvedS3Region : string;
  AWSCredential : Credential
}.

Section New.

Variable url_Parse : string -> result URL.
(** The error is an [awserr.Error] whose code is [NotFound]. *)
Variable is_not_found : string -> bool.
Variable w : World.

(** [s3manager.GetBucketRegion] with the two ways its error is reported. *)
Definition resolve_region (bucket : string) : Eff Call string :=
  fun h =>
    match call (GetBucketRegion bucket)
               (fun h => w_bucket_region w h bucket) h with
    | (h', Err e) =>
        if is_not_found e
        then (h', Err ("unable to find bucket " ++ bucket
                         ++ "'s region not found"))
        else (h', Err ("Failed to resolve --storage region" ++ ": " ++ e))
    | other => other
    end.

(** The TLS set-up when [TiDBSSLCA] is given; [log.Fatal] ends the process
    and is kept as a panic. *)
Definition tls_setup (TiDBSSLCA : string) : Eff Call unit :=
  if negb (String.eqb TiDBSSLCA "") then
    pem <- (fun h =>
              match call (ReadFile TiDBSSLCA)
                         (fun h => w_read_file w h TiDBSSLCA) h with
              | (h', Err e) => (h', Panic e)
              | other => other
              end) ;;
    ok <- call (AppendCertsFromPEM pem) (fun h => w_append_certs w h pem) ;;
    if negb ok then lift (Panic "Failed to append PEM.") else ret tt
  else ret tt.

(** [NewReplicateSession]; [id] is the [uuid.New().String()] it draws. *)
Definition NewReplicateSession (id tableFQN s3StoragePath TiDBSSLCA : string)
  : Eff Call ReplicateSession :=
  names <- lift (match split_dot tableFQN with
                 | Some parts => Ok parts
                 | None =>
                     Err "table must be a full-qualified name like mydb.mytable"
                 end) ;;
  annotate "Failed to establish AWS session"
    (call NewAWSSession (w_aws_session w)) ;;;
  credValue <- annotate "Failed to resolve AWS credential"
                 (call EnvCredentials (w_env_credentials w)) ;;
  parsed <- annotate "Failed to parse --storage value"
              (lift (url_Parse s3StoragePath)) ;;
  if negb (String.eqb (Scheme parsed) "s3") then
    lift (Err "storage must be like s3://...")
  else
    s3Region <- resolve_region (Host parsed) ;;
    dsn <- annotate "Failed to generate Snowflake DSN"
             (call SnowflakeDSN (w_dsn w)) ;;
    annotate "Failed to open Snowflake connection"
      (call (OpenSnowflake dsn) (fun h => w_open_snowflake w h dsn)) ;;;
    tls_setup TiDBSSLCA ;;;
    annotate "Failed to open TiDB connection"
      (call OpenTiDB (w_open_tidb w)) ;;;
    ret {| ID := id; TableFQN := tableFQN;
           SourceDatabase := fst names; SourceTable := snd names;
           StorageWorkspacePath := s3StoragePath ++ "/" ++ id;
           ResolvedS3Region := s3Region;
           AWSCredential := credValue |}.

End New.

(** The calls that reach out to the bucket, the warehouse and the source
    database. *)
Definition connects (c : Call) : bool :=
  match c with
  | GetBucketRegion _ _ | OpenSnowflake _ _ | OpenTiDB _ => true
  | _ => false
  end.

Definition world_ok : World :=
  {| w_aws_session := fun _ => Ok tt;
     w_env_credentials := fun _ =>
       Ok {| AccessKeyID := "key"; SecretAccessKey := "secret";
             SessionToken := "" |};
     w_bucket_region := fun _ _ => Ok "us-west-2";
     w_dsn := fun _ => Ok "user:pass@account/db/schema";
     w_open_snowflake := fun _ _ => Ok tt;
     w_read_file := fun _ _ => Ok "pem";
     w_append_certs := fun _ _ => Ok true;
     w_open_tidb := fun _ => Ok tt |}.

End NewSession.

(* ================================================================== *)
(** ** The GCS service account and the bucket policy                    *)
(* ================================================================== *)

Module GCS.

(** One row of [DESC STORAGE INTEGRATION]. *)
Record PropertyRow : Type := mkPropertyRow {
  property : string;
  propertyType : string;
  propertyValue : string;
  propertyDefault : string
}.

(** The [for rows.Next()] loop of [GetGCSServiceAccount] over the outcomes
    of [rows.Scan], row by row: [None] when the rows are exhausted without
    a match. *)
Fixpoint scan_rows (rows : list (result PropertyRow))
  : option (result string) :=
  match rows with
  | [] => None
  | Ok row :: rest =>
      if String.eqb (property row) "STORAGE_GCP_SERVICE_ACCOUNT"
      then Some (Ok (propertyValue row))
      else scan_rows rest
  | Err e :: _ => Some (Err e)
  | Panic e :: _ => Some (Panic e)
  end.

(** [GetGCSServiceAccount] on what [db.Query] returns: the rows, each with
    the outcome of its scan, and the error [rows.Err()] reports when the
    iteration ended early. *)
Definition GetGCSServiceAccount
           (query : result (list (result PropertyRow) * option string))
  : result string :=
  match query with
  | Err e => Err e
  | Panic e => Panic e
  | Ok (rows, rowsErr) =>
      match scan_rows rows with
      | Some r => r
      | None =>
          match rowsErr with
          | Some e => Err e
          | None => Ok ""
          end
      end
  end.

(** An IAM policy: the members of each role. *)
Definition Policy : Type := list (string * string).

(** [policy.Add(member, role)]: the member is added to the role unless it
    is there already. *)
Definition policy_add (p : Policy) (member role : string) : Policy :=
  if existsb (fun b => String.eqb (fst b) role && String.eqb (snd b) member) p
  then p else app p [(role, member)].

(** The calls of [addBucketIAMMember]. *)
Inductive Call : Type :=
| NewClient (r : result unit)
| GetPolicy (bucketName : string) (r : result Policy)
| SetPolicy (bucketName : string) (policy : Policy) (r : result unit)
| CloseClient (r : result unit).

Record World : Type := mkWorld {
  w_new_client : list Call -> result unit;
  w_get_policy : list Call -> string -> result Policy;
  w_set_policy : list Call -> string -> Policy -> result unit;
  w_close : list Call -> result unit
}.

(** [defer cleanup()] around [body]: the clean-up runs when the body has
    returned or panicked, and what it returns is dropped. *)
Definition deferred {A : Type} (cleanup : Eff Call unit) (body : Eff Call A)
  : Eff Call A :=
  fun h =>
    match body h with
    | (h1, r) =>
        match cleanup h1 with
        | (h2, Panic e) => (h2, Panic e)
        | (h2, _) => (h2, r)
        end
    end.

Section IAM.
Variable w : World.

Definition addBucketIAMMember (bucketName identity roleName : string)
  : Eff Call unit :=
  call NewClient (w_new_client w) ;;;
  deferred (call CloseClient (w_close w))
    (policy <- call (GetPolicy bucketName)
                    (fun h => w_get_policy w h bucketName) ;;
     let identity := "serviceAccount:" ++ identity in
     let policy := policy_add policy identity roleName in
     call (SetPolicy bucketName policy)
          (fun h => w_set_policy w h bucketName policy)).

End IAM.

Definition is_close (c : Call) : bool :=
  match c with CloseClient _ => true | _ => false end.

(** The policy cannot be written, and closing the client fails too. *)
Definition world_denied : World :=
  {| w_new_client := fun _ => Ok tt;
     w_get_policy := fun _ _ => Ok [("roles/viewer", "user:a@example.com")];
     w_set_policy := fun _ _ _ => Err "denied";
     w_close := fun _ => Err "close failed" |}.

Definition rows_without_account : list (result PropertyRow) :=
  [Ok {| property := "ENABLED"; propertyType := "Boolean";
         propertyValue := "true"; propertyDefault := "false" |};
   Ok {| property := "STORAGE_PROVIDER"; propertyType := "String";
         propertyValue := "S3"; propertyDefault := "" |}].

End GCS.

(* ================================================================== *)
(** ** [GenCreateSchema]: the columns of the primary key               *)
(* ================================================================== *)

Module PrimaryKey.

(** A row of [SHOW INDEX] as [GetSpecifiedColumnValuesAndClose] returns it:
    the three columns asked for, as text. *)
Record IndexRow : Type := mkIndexRow {
  KeyName : string;
  ColumnName : string;
  SeqInIndex : string
}.

(** The comparison given to [slices.SortFunc]; [<] on Go strings compares
    them byte by byte. *)
Definition index_less (i j : IndexRow) : bool :=
  if String.eqb (KeyName i) (KeyName j)
  then String.ltb (SeqInIndex i) (SeqInIndex j)
  else String.ltb (KeyName i) (KeyName j).

(** What [slices.SortFunc] leaves: no element is less than one before
    it. *)
Fixpoint sortedb (less : IndexRow -> IndexRow -> bool) (l : list IndexRow)
  : bool :=
  match l with
  | [] => true
  | a :: rest => forallb (fun b => negb (less b a)) rest && sortedb less rest
  end.

(** The loop over the sorted index rows that collects the columns of the
    primary key. *)
Definition snowflakePKColumns (sorted : list IndexRow) : list string :=
  map ColumnName
      (filter (fun oneRow => String.eqb (KeyName oneRow) "PRIMARY") sorted).

Definition index_abj : list IndexRow :=
  [{| KeyName := "PRIMARY"; ColumnName := "a"; SeqInIndex := "1" |};
   {| KeyName := "PRIMARY"; ColumnName := "b"; SeqInIndex := "2" |};
   {| KeyName := "PRIMARY"; ColumnName := "j"; SeqInIndex := "10" |}].

Definition sorted_ajb : list IndexRow :=
  [{| KeyName := "PRIMARY"; ColumnName := "a"; SeqInIndex := "1" |};
   {| KeyName := "PRIMARY"; ColumnName := "j"; SeqInIndex := "10" |};
   {| KeyName := "PRIMARY"; ColumnName := "b"; SeqInIndex := "2" |}].

End PrimaryKey.

(* ================================================================== *)
(** * Properties                                                       *)
(* ================================================================== *)

(** ** Lists and strings *)

Lemma list_eqb_refl (a : list string) : MergeSQL.list_eqb a a = true.
Proof.
  induction a as [|x a IH]; simpl; [reflexivity|].
  now rewrite String.eqb_refl, IH.
Qed.

Lemma list_eqb_eq (a b : list string) : MergeSQL.list_eqb a b = true <-> a = b.
Proof.
  split.
  - revert b; induction a as [|x a IH]; intros [|y b] H; simpl in H;
      try discriminate; [reflexivity|].
    apply andb_true_iff in H as [Hx Hr].
    apply String.eqb_eq in Hx. apply IH in Hr. now subst.
  - intros ->. apply list_eqb_refl.
Qed.

Lemma HasPrefix_app (p s : string) : HasPrefix (p ++ s) p = true.
Proof.
  unfold HasPrefix. induction p as [|c p IH]; simpl.
  - now destruct s.
  - destruct (ascii_dec c c) as [_|N]; [exact IH|now elim N].
Qed.

Lemma existsb_false_all {A : Type} (p : A -> bool) (l : list A) :
  existsb p l = false -> forall x, In x l -> p x = false.
Proof.
  induction l as [|a l IH]; simpl; intros H x Hx; [contradiction|].
  apply orb_false_iff in H as [Ha Hl].
  destruct Hx as [->|Hx]; [assumption|now apply IH].
Qed.

Lemma flat_map_keep {A : Type} (f : A -> list A) (l : list A) :
  (forall x, In x l -> f x = [x]) -> flat_map f l = l.
Proof.
  induction l as [|a l IH]; simpl; intros H; [reflexivity|].
  rewrite (H a (or_introl eq_refl)), IH; [reflexivity|].
  intros x Hx. apply H. now right.
Qed.

Lemma flat_map_filter {A : Type} (p : A -> bool) (l : list A) :
  flat_map (fun x => if p x then [] else [x]) l = filter (fun x => negb (p x)) l.
Proof.
  induction l as [|a l IH]; simpl; [reflexivity|].
  rewrite IH. now destruct (p a).
Qed.

Lemma flat_map_map_if {A : Type} (p : A -> bool) (g : A -> A) (l : list A) :
  flat_map (fun x => if p x then [g x] else [x]) l
  = map (fun x => if p x then g x else x) l.
Proof.
  induction l as [|a l IH]; simpl; [reflexivity|].
  rewrite IH. now destruct (p a).
Qed.

(** ** Rows *)

Module RowFacts.
Import MergeSQL.

Lemma set_col_noop (c v : string) (t : Row) :
  get c t = v -> set_col c v t = t.
Proof.
  induction t as [|[k x] t IH]; simpl; intros H; [reflexivity|].
  destruct (String.eqb k c) eqn:E.
  - now subst.
  - now rewrite IH.
Qed.

Lemma get_set_col_agree (t s : Row) (k c : string) :
  get k t = get k s -> get k (set_col c (get c s) t) = get k s.
Proof.
  induction t as [|[a x] t IH]; simpl; intros H; [assumption|].
  destruct (String.eqb a c) eqn:Eac; simpl.
  - destruct (String.eqb a k) eqn:Eak; [|assumption].
    apply String.eqb_eq in Eac, Eak. now subst.
  - destruct (String.eqb a k) eqn:Eak; [assumption|].
    now apply IH.
Qed.

Lemma get_set_col_other (t : Row) (k c v : string) :
  k <> c -> get k (set_col c v t) = get k t.
Proof.
  intros Hkc. induction t as [|[a x] t IH]; simpl; [reflexivity|].
  destruct (String.eqb a c) eqn:Eac; simpl.
  - destruct (String.eqb a k) eqn:Eak; [|reflexivity].
    apply String.eqb_eq in Eac, Eak. congruence.
  - now rewrite IH.
Qed.

Lemma keys_set_col (c v : string) (t : Row) :
  map fst (set_col c v t) = map fst t.
Proof.
  induction t as [|[k x] t IH]; simpl; [reflexivity|].
  destruct (String.eqb k c); simpl; [reflexivity|now rewrite IH].
Qed.

End RowFacts.

(** ** The statement [GenMergeInto] writes *)

Module PrintFacts.
Import Snowsql MergeSQL.

Lemma text_app_assoc (a b c : string) : (a ++ b) ++ c = a ++ (b ++ c).
Proof. induction a as [|x a IH]; simpl; [reflexivity|now rewrite IH]. Qed.

Lemma print_select (td : TableDefinition) (f st : string) :
  map print_item (m_select (GenMergeInto_stmt td f st)) = selectStat td.
Proof.
  unfold GenMergeInto_stmt, selectStat; cbn [m_select map].
  f_equal. rewrite map_map. reflexivity.
Qed.

Lemma print_on (td : TableDefinition) (f st : string) :
  map (fun ab => "T." ++ fst ab ++ " = S." ++ snd ab)
      (m_on (GenMergeInto_stmt td f st)) = onStat td.
Proof. unfold GenMergeInto_stmt, onStat; cbn [m_on]. now rewrite map_map. Qed.

(** Printing the statement gives the text of [GenMergeInto]. *)
Lemma print_GenMergeInto_stmt (td : TableDefinition) (f st : string) :
  print (GenMergeInto_stmt td f st) = GenMergeInto td f st.
Proof.
  unfold print. rewrite print_select, print_on.
  unfold GenMergeInto, merge_template.
  cbn [GenMergeInto_stmt m_target m_stage m_file m_partition_by m_order_by
       m_order m_rank m_when map Join].
  unfold print_when, print_test, print_action, print_direction.
  cbn [w_matched w_test w_action].
  rewrite !map_map. cbn [fst snd].
  fold (updateStat td). fold (valuesStat td).
  change (itoa 4) with "4". change (itoa 1) with "1".
  unfold flag_alias.
  repeat rewrite text_app_assoc.
  reflexivity.
Qed.

End PrintFacts.

Module MergeFacts.
Import Snowsql MergeSQL RowFacts.

(** The [UPDATE SET] list of [GenMergeInto]: every column, from the source
    column of the same name. *)
Definition set_all (td : TableDefinition) : list (string * string) :=
  map (fun col => (Name col, Name col)) (Columns td).

Lemma on_match_pk_equal (td : TableDefinition) (f st : string) (t s : Row) :
  on_match (GenMergeInto_stmt td f st) t s = pk_equal td t s.
Proof.
  unfold on_match, pk_equal, key_names; simpl.
  induction (filter is_pk (Columns td)) as [|c l IH]; simpl; [reflexivity|].
  now rewrite IH.
Qed.

Lemma insert_row_all (td : TableDefinition) (s : Row) :
  insert_row (insertStat td) (map Name (Columns td)) s = row_of_all td s.
Proof.
  unfold insert_row, row_of_all, all_names, insertStat.
  induction (Columns td) as [|c l IH]; simpl; [reflexivity|].
  now rewrite IH.
Qed.

(** Assigning the key columns of a matched row changes nothing: the update
    of all columns is the update of the non-key ones. *)
Lemma update_cols_nonkey (keys : list string) (s : Row) (cols : list TableCol) :
  (forall c, In c cols -> is_pk c = true -> In (Name c) keys) ->
  forall t : Row,
    (forall k, In k keys -> get k t = get k s) ->
    fold_left (fun acc ab => set_col (fst ab) (get (snd ab) s) acc)
              (map (fun col => (Name col, Name col)) cols) t
    = fold_left (fun acc c => set_col c (get c s) acc)
                (map Name (filter (fun c => negb (is_pk c)) cols)) t.
Proof.
  induction cols as [|c cols IH]; intros Hk t Ht; simpl; [reflexivity|].
  assert (Hk' : forall c', In c' cols -> is_pk c' = true -> In (Name c') keys)
    by (intros c' Hc'; apply Hk; now right).
  destruct (is_pk c) eqn:Epk; simpl.
  - rewrite set_col_noop.
    + now apply IH.
    + apply Ht, Hk; [now left|assumption].
  - apply IH; [assumption|].
    intros k Hin. apply get_set_col_agree. now apply Ht.
Qed.

Lemma update_row_nonkey (td : TableDefinition) (t s : Row) :
  pk_equal td t s = true ->
  update_row (set_all td) t s = update_nonkey td t s.
Proof.
  intros Hm. unfold update_row, set_all, update_nonkey, nonkey_names.
  apply update_cols_nonkey with (keys := key_names td).
  - intros c Hc Hpk. unfold key_names. apply in_map.
    apply filter_In. now split.
  - intros k Hk. unfold pk_equal in Hm.
    rewrite forallb_forall in Hm. now apply String.eqb_eq, Hm.
Qed.

(** The [WHEN] clauses of the statement, read in their order: of the two
    [MATCHED] clauses the first applies to a row that is no delete and the
    second to a delete; the [NOT MATCHED] clause applies to a row that is no
    delete. *)
Lemma when_matched_stmt (td : TableDefinition) (f st : string) (t s : Row) :
  when_matched (GenMergeInto_stmt td f st) t s
  = if is_delete s then [] else [update_row (set_all td) t s].
Proof.
  unfold when_matched, first_clause, is_delete.
  cbn [GenMergeInto_stmt m_when find w_matched w_test test_holds Bool.eqb andb].
  destruct (String.eqb (get flag_alias s) "D"); reflexivity.
Qed.

Lemma when_not_matched_stmt (td : TableDefinition) (f st : string) (s : Row) :
  when_not_matched (GenMergeInto_stmt td f st) s
  = if is_delete s then [] else [row_of_all td s].
Proof.
  unfold when_not_matched, first_clause, is_delete.
  cbn [GenMergeInto_stmt m_when find w_matched w_test test_holds Bool.eqb andb].
  destruct (String.eqb (get flag_alias s) "D"); cbn [negb w_action];
    [reflexivity|].
  now rewrite insert_row_all.
Qed.

(** A file of one line: the merge is the three clauses on that line's
    row. *)
Lemma merge_one_stmt (td : TableDefinition) (f st : string)
      (r : ChangeRow) (T : list Row) :
  merge_one (GenMergeInto_stmt td f st) r T =
  let m := GenMergeInto_stmt td f st in
  let s := s_row (select_row m r) in
  app (flat_map (fun t => if on_match m t s
                          then (if is_delete s then []
                                else [update_row (set_all td) t s])
                          else [t]) T)
      (if existsb (fun t => on_match m t s) T then []
       else if is_delete s then [] else [row_of_all td s]).
Proof.
  unfold merge_one, merge_rows. cbn [flat_map]. cbv zeta.
  rewrite app_nil_r. f_equal.
  - apply flat_map_ext. intros t. cbn [find].
    destruct (on_match _ t _); [apply when_matched_stmt|reflexivity].
  - destruct (existsb _ T); [reflexivity|apply when_not_matched_stmt].
Qed.

Lemma merge_single_rules (td : TableDefinition) (f st : string)
      (r : ChangeRow) (T : list Row) :
  merge_one (GenMergeInto_stmt td f st) r T
  = spec_merge_rules td (s_row (select_row (GenMergeInto_stmt td f st) r)) T.
Proof.
  rewrite merge_one_stmt. cbv zeta.
  set (m := GenMergeInto_stmt td f st).
  set (s := s_row (select_row m r)).
  unfold spec_merge_rules.
  assert (Hex : existsb (fun t => on_match m t s) T
                = existsb (fun t => pk_equal td t s) T).
  { clear. induction T as [|t T IH]; simpl; [reflexivity|].
    unfold m at 1. now rewrite on_match_pk_equal, IH. }
  rewrite Hex.
  destruct (existsb (fun t => pk_equal td t s) T) eqn:Ex.
  - rewrite app_nil_r.
    destruct (is_delete s) eqn:Ed; simpl.
    + rewrite flat_map_filter. apply filter_ext.
      intros t. unfold m. now rewrite on_match_pk_equal.
    + rewrite flat_map_map_if. apply map_ext. intros t.
      unfold m. rewrite on_match_pk_equal.
      destruct (pk_equal td t s) eqn:Em; [|reflexivity].
      now apply update_row_nonkey.
  - rewrite flat_map_keep.
    + destruct (is_delete s); simpl; [now rewrite app_nil_r|reflexivity].
    + intros t Ht. unfold m. rewrite on_match_pk_equal.
      now rewrite (existsb_false_all _ _ Ex t Ht).
Qed.

End MergeFacts.

(** ** The rows numbered one *)

Module OrderFacts.

Lemma text_lt_irrefl (a : string) : String.ltb a a = false.
Proof.
  unfold String.ltb.
  destruct (String.compare a a) eqn:E; try reflexivity.
  pose proof (String.compare_antisym a a) as H. rewrite E in H. discriminate.
Qed.

Lemma text_lt_asym (a b : string) : String.ltb a b = true -> String.ltb b a = false.
Proof.
  unfold String.ltb. rewrite (String.compare_antisym a b).
  now destruct (String.compare b a).
Qed.

Lemma text_lt_total (a b : string) :
  String.ltb a b = false -> String.ltb b a = false -> a = b.
Proof.
  unfold String.ltb. rewrite (String.compare_antisym b a).
  destruct (String.compare a b) eqn:E; try discriminate.
  intros _ _. now apply String.compare_eq_iff.
Qed.

Lemma text_lt_trans (a b c : string) :
  String.ltb a b = true -> String.ltb b c = true -> String.ltb a c = true.
Proof.
  unfold String.ltb. intros H1 H2.
  assert (L1 : OrderedTypeEx.String_as_OT.lt a b).
  { apply OrderedTypeEx.String_as_OT.cmp_lt.
    unfold OrderedTypeEx.String_as_OT.cmp.
    now destruct (String.compare a b). }
  assert (L2 : OrderedTypeEx.String_as_OT.lt b c).
  { apply OrderedTypeEx.String_as_OT.cmp_lt.
    unfold OrderedTypeEx.String_as_OT.cmp.
    now destruct (String.compare b c). }
  pose proof (OrderedTypeEx.String_as_OT.lt_trans _ _ _ L1 L2) as L.
  apply OrderedTypeEx.String_as_OT.cmp_lt in L.
  unfold OrderedTypeEx.String_as_OT.cmp in L. now rewrite L.
Qed.

(** The ordering field is compared as text.  For decimal numerals of one
    width, as the commit timestamps of a feed are, that is the order of the
    numbers. *)
Fixpoint digits_value (s : string) : N :=
  match s with
  | EmptyString => 0
  | String c r =>
      (N_of_ascii c - 48) * 10 ^ N.of_nat (String.length r) + digits_value r
  end%N.

Lemma digits_value_bound (s : string) :
  DefaultSamples.all_digits s = true ->
  (digits_value s < 10 ^ N.of_nat (String.length s))%N.
Proof.
  induction s as [|c r IH]; intros H; [cbn; lia|].
  cbn [DefaultSamples.all_digits] in H. cbn [digits_value String.length].
  apply andb_true_iff in H as [Hc Hr]. specialize (IH Hr).
  unfold DefaultSamples.is_digit in Hc. apply andb_true_iff in Hc as [H1 H2].
  apply Nat.leb_le in H1, H2. unfold nat_of_ascii in H1, H2.
  assert (Hn : (48 <= N_of_ascii c <= 57)%N) by lia.
  rewrite Nat2N.inj_succ, N.pow_succ_r'.
  set (p := (10 ^ N.of_nat (String.length r))%N) in *. nia.
Qed.

Lemma text_order_is_numeric (a : string) :
  forall b,
    DefaultSamples.all_digits a = true -> DefaultSamples.all_digits b = true ->
    String.length a = String.length b ->
    String.ltb a b = (digits_value a <? digits_value b)%N.
Proof.
  unfold String.ltb.
  induction a as [|c a IH]; intros [|d b] Ha Hb Hlen; simpl in Hlen;
    try discriminate; [reflexivity|].
  simpl in Ha, Hb. apply andb_true_iff in Ha as [Hc Ha], Hb as [Hd Hb].
  injection Hlen as Hlen. specialize (IH b Ha Hb Hlen).
  pose proof (digits_value_bound a Ha) as Ba.
  pose proof (digits_value_bound b Hb) as Bb.
  unfold DefaultSamples.is_digit in Hc, Hd.
  apply andb_true_iff in Hc as [Hc1 Hc2], Hd as [Hd1 Hd2].
  apply Nat.leb_le in Hc1, Hc2, Hd1, Hd2. unfold nat_of_ascii in *.
  cbn [String.compare digits_value]. rewrite <- Hlen in *.
  set (p := (10 ^ N.of_nat (String.length a))%N) in *.
  unfold Ascii.compare.
  destruct (N.compare_spec (N_of_ascii c) (N_of_ascii d)) as [E|E|E].
  - rewrite IH. rewrite E.
    destruct (N.ltb_spec (digits_value a) (digits_value b));
      symmetry; [apply N.ltb_lt|apply N.ltb_ge]; lia.
  - symmetry. apply N.ltb_lt. nia.
  - symmetry. apply N.ltb_ge. nia.
Qed.

End OrderFacts.

Module QualifiedFacts.
Import Snowsql MergeSQL OrderFacts.

Lemma row_eqb_eq (a b : Row) : row_eqb a b = true <-> a = b.
Proof.
  split.
  - revert b; induction a as [|[k v] a IH]; intros [|[k' v'] b] H; simpl in H;
      try discriminate; [reflexivity|].
    apply andb_true_iff in H as [H Hr]. apply andb_true_iff in H as [Hk Hv].
    apply String.eqb_eq in Hk, Hv. apply IH in Hr. now subst.
  - intros <-. induction a as [|[k v] a IH]; simpl; [reflexivity|].
    now rewrite !String.eqb_refl, IH.
Qed.

Lemma srow_eqb_eq (a b : SRow) : srow_eqb a b = true <-> a = b.
Proof.
  unfold srow_eqb. split.
  - intros H. apply andb_true_iff in H as [Hk Hr].
    apply String.eqb_eq in Hk. apply row_eqb_eq in Hr.
    destruct a, b; simpl in *. now subst.
  - intros <-. rewrite String.eqb_refl. now apply row_eqb_eq.
Qed.

Lemma existsb_list_eqb (a : list string) (l : list (list string)) :
  existsb (list_eqb a) l = true <-> In a l.
Proof.
  rewrite existsb_exists. split.
  - intros [x [Hx E]]. apply list_eqb_eq in E. now subst.
  - intros H. exists a. split; [assumption|apply list_eqb_refl].
Qed.

Lemma nodupb_NoDup (l : list (list string)) : nodupb l = true <-> NoDup l.
Proof.
  induction l as [|a l IH]; simpl.
  - split; [constructor|reflexivity].
  - rewrite andb_true_iff, negb_true_iff, IH. split.
    + intros [Hn Hd]. constructor; [|assumption].
      intros Hin. apply existsb_list_eqb in Hin. congruence.
    + intros H. inversion H as [|? ? Hn Hd]; subst. split; [|assumption].
      destruct (existsb (list_eqb a) l) eqn:E; [|reflexivity].
      apply existsb_list_eqb in E. contradiction.
Qed.

Section Qualified.
Variable m : MergeStmt.

Definition pkey (s : SRow) : list string := partition_key m (s_row s).

Lemma same_partition_eq (a b : SRow) :
  same_partition m a b = true <-> pkey a = pkey b.
Proof. apply list_eqb_eq. Qed.

Lemma comes_first_irrefl (a : SRow) : comes_first m a a = false.
Proof. unfold comes_first. destruct (m_order m); apply text_lt_irrefl. Qed.

Lemma comes_first_asym (a b : SRow) :
  comes_first m a b = true -> comes_first m b a = false.
Proof. unfold comes_first. destruct (m_order m); apply text_lt_asym. Qed.

Lemma comes_first_total (a b : SRow) :
  comes_first m a b = false -> comes_first m b a = false -> s_key a = s_key b.
Proof.
  unfold comes_first. destruct (m_order m); intros H1 H2.
  - now apply text_lt_total.
  - symmetry. now apply text_lt_total.
Qed.

Lemma comes_first_trans (a b c : SRow) :
  comes_first m a b = true -> comes_first m b c = true ->
  comes_first m a c = true.
Proof.
  unfold comes_first. destruct (m_order m); intros H1 H2.
  - now apply (text_lt_trans _ (s_key b)).
  - now apply (text_lt_trans _ (s_key b)).
Qed.

(** [s] is a row of [rows] and no row of its partition is ordered strictly
    before it. *)
Definition numbered_one (rows : list SRow) (s : SRow) : Prop :=
  In s rows /\
  forall r, In r rows -> pkey r = pkey s -> comes_first m r s = false.

Lemma number_one_spec (rows : list SRow) (s : SRow) :
  number_one m rows s = true <-> numbered_one rows s.
Proof.
  unfold number_one, numbered_one.
  rewrite andb_true_iff, existsb_exists, forallb_forall. split.
  - intros [[x [Hx E]] H]. apply srow_eqb_eq in E. subst x.
    split; [assumption|]. intros r Hr Hk. specialize (H r Hr).
    apply negb_true_iff, andb_false_iff in H as [H|H]; [|assumption].
    apply same_partition_eq in Hk. congruence.
  - intros [Hin H]. split.
    + exists s. split; [assumption|now apply srow_eqb_eq].
    + intros r Hr. apply negb_true_iff.
      destruct (same_partition m r s) eqn:E; [|reflexivity].
      apply same_partition_eq in E. simpl. now apply H.
Qed.

(** What [is_qualified] says. *)
Lemma qualified_spec (rows S : list SRow) :
  is_qualified m rows S = true <->
  m_rank m = 1
  /\ NoDup (map pkey S)
  /\ (forall s, In s S -> numbered_one rows s)
  /\ (forall r, In r rows -> exists s, In s S /\ pkey s = pkey r).
Proof.
  unfold is_qualified. rewrite !andb_true_iff, Nat.eqb_eq.
  fold pkey. rewrite (nodupb_NoDup (map pkey S)), !forallb_forall. split.
  - intros [[[Hr Hn] Ho] Hc].
    split; [assumption|]. split; [assumption|]. split.
    + intros s Hs. now apply number_one_spec, Ho.
    + intros r Hr'. specialize (Hc r Hr'). apply existsb_exists in Hc.
      destruct Hc as [s [Hs E]]. exists s. split; [assumption|].
      now apply same_partition_eq.
  - intros [Hr [Hn [Ho Hc]]].
    split; [split; [split; [assumption|assumption]|]|].
    + intros s Hs. now apply number_one_spec, Ho.
    + intros r Hr'. apply existsb_exists. destruct (Hc r Hr') as [s [Hs E]].
      exists s. split; [assumption|]. now apply same_partition_eq.
Qed.

(** The row of the partition [k] in a list of rows. *)
Definition find_key (k : list string) (S : list SRow) : option SRow :=
  find (fun s => list_eqb (pkey s) k) S.

Lemma find_key_some (k : list string) (S : list SRow) (s : SRow) :
  find_key k S = Some s -> In s S /\ pkey s = k.
Proof.
  intros H. apply find_some in H as [H1 H2]. split; [assumption|].
  now apply list_eqb_eq.
Qed.

Lemma find_key_none (k : list string) (S : list SRow) :
  ~ In k (map pkey S) -> find_key k S = None.
Proof.
  intros Hn. unfold find_key. induction S as [|s S IH]; simpl; [reflexivity|].
  destruct (list_eqb (pkey s) k) eqn:E.
  - exfalso. apply Hn. left. now apply list_eqb_eq.
  - apply IH. intros H. apply Hn. now right.
Qed.

Lemma find_key_in (k : list string) (S : list SRow) (s : SRow) :
  NoDup (map pkey S) -> In s S -> pkey s = k -> find_key k S = Some s.
Proof.
  unfold find_key. induction S as [|a S IH]; intros Hnd Hin Hk; [destruct Hin|].
  simpl. inversion Hnd as [|? ? Hnotin Hnd']; subst.
  destruct Hin as [->|Hin].
  - now rewrite list_eqb_refl.
  - destruct (list_eqb (pkey a) (pkey s)) eqn:E.
    + exfalso. apply Hnotin. apply list_eqb_eq in E. rewrite E. now apply in_map.
    + now apply IH.
Qed.

Lemma nodup_key_eq (S : list SRow) (a b : SRow) :
  NoDup (map pkey S) -> In a S -> In b S -> pkey a = pkey b -> a = b.
Proof.
  intros Hnd Ha Hb E.
  pose proof (find_key_in (pkey b) S a Hnd Ha E) as Fa.
  pose proof (find_key_in (pkey b) S b Hnd Hb eq_refl) as Fb.
  congruence.
Qed.

(** *** A result of the sub-query exists *)

(** One way of numbering: going through the rows, the row kept for a
    partition is replaced by a row ordered strictly before it. *)
Fixpoint keep_first (r : SRow) (acc : list SRow) : list SRow :=
  match acc with
  | [] => [r]
  | a :: acc' =>
      if same_partition m a r
      then (if comes_first m r a then r else a) :: acc'
      else a :: keep_first r acc'
  end.

Definition first_rows (rows : list SRow) : list SRow :=
  fold_left (fun acc r => keep_first r acc) rows [].

(** [x] is covered by [l]: its partition has a row in [l], and [x] is not
    ordered strictly before that row. *)
Definition covered (x : SRow) (l : list SRow) : Prop :=
  exists s, In s l /\ pkey s = pkey x /\ comes_first m x s = false.

Lemma keep_first_in (r : SRow) (acc : list SRow) (s : SRow) :
  In s (keep_first r acc) -> s = r \/ In s acc.
Proof.
  induction acc as [|a acc IH]; simpl.
  - intros [<-|[]]. now left.
  - destruct (same_partition m a r).
    + destruct (comes_first m r a); simpl; intuition.
    + simpl. intuition.
Qed.

Lemma keep_first_nodup (r : SRow) (acc : list SRow) :
  NoDup (map pkey acc) -> NoDup (map pkey (keep_first r acc)).
Proof.
  induction acc as [|a acc IH]; simpl; intros H.
  - constructor; [intros []|constructor].
  - inversion H as [|? ? Hnotin Hnd]; subst.
    destruct (same_partition m a r) eqn:E.
    + apply same_partition_eq in E.
      destruct (comes_first m r a); simpl; [|assumption].
      rewrite <- E. now constructor.
    + simpl. constructor; [|now apply IH].
      intros Hin. apply in_map_iff in Hin as [s [Hs Hin]].
      apply keep_first_in in Hin as [->|Hin].
      * assert (same_partition m a r = true)
          by (apply same_partition_eq; now symmetry).
        congruence.
      * apply Hnotin. rewrite <- Hs. now apply in_map.
Qed.

Lemma keep_first_covers (r : SRow) (acc : list SRow) (x : SRow) :
  x = r \/ covered x acc -> covered x (keep_first r acc).
Proof.
  induction acc as [|a acc IH]; simpl; intros H.
  - destruct H as [->|[s [[] _]]].
    exists r. repeat split; [now left|apply comes_first_irrefl].
  - destruct (same_partition m a r) eqn:E.
    + apply same_partition_eq in E.
      destruct (comes_first m r a) eqn:L.
      * destruct H as [->|[s [[<-|Hs] [Hk Ht]]]].
        -- exists r. repeat split; [now left|apply comes_first_irrefl].
        -- exists r. repeat split; [now left|congruence|].
           destruct (comes_first m x r) eqn:Lx; [|reflexivity].
           rewrite (comes_first_trans x r a Lx L) in Ht. discriminate.
        -- exists s. repeat split; [now right|assumption|assumption].
      * destruct H as [->|[s [[<-|Hs] [Hk Ht]]]].
        -- exists a. repeat split; [now left|assumption|assumption].
        -- exists a. repeat split; [now left|assumption|assumption].
        -- exists s. repeat split; [now right|assumption|assumption].
    + destruct H as [->|[s [[<-|Hs] [Hk Ht]]]].
      * destruct (IH (or_introl eq_refl)) as [s [Hs Hr]].
        exists s. split; [now right|assumption].
      * exists a. repeat split; [now left|assumption|assumption].
      * destruct IH as [s' [Hs' Hr]].
        { right. exists s. now repeat split. }
        exists s'. split; [now right|assumption].
Qed.

Lemma first_rows_fold (rows : list SRow) :
  forall acc,
    NoDup (map pkey acc) ->
    let S := fold_left (fun acc r => keep_first r acc) rows acc in
    NoDup (map pkey S)
    /\ (forall s, In s S -> In s acc \/ In s rows)
    /\ (forall x, In x rows \/ covered x acc -> covered x S).
Proof.
  induction rows as [|r rows IH]; intros acc Hnd; simpl.
  - repeat split; [assumption|now left|].
    intros x [[]|H]. assumption.
  - destruct (IH (keep_first r acc) (keep_first_nodup r acc Hnd))
      as [H1 [H2 H3]].
    repeat split; [assumption| |].
    + intros s Hs. destruct (H2 s Hs) as [Hin|Hin]; [|now right; right].
      apply keep_first_in in Hin as [->|Hin]; [right; now left|now left].
    + intros x [[->|Hx]|Hc].
      * apply H3. right. apply keep_first_covers. now left.
      * apply H3. now left.
      * apply H3. right. apply keep_first_covers. now right.
Qed.

(** Whatever the staged lines, the sub-query has a result. *)
Lemma first_rows_qualified (rows : list SRow) :
  m_rank m = 1 -> is_qualified m rows (first_rows rows) = true.
Proof.
  intros Hrank. apply qualified_spec.
  destruct (first_rows_fold rows [] (NoDup_nil _)) as [H1 [H2 H3]].
  fold (first_rows rows) in H1, H2, H3.
  assert (Hsub : forall s, In s (first_rows rows) -> In s rows).
  { intros s Hs. destruct (H2 s Hs) as [[]|H]. assumption. }
  split; [assumption|]. split; [assumption|]. split.
  - intros s Hs. split; [now apply Hsub|].
    intros r Hr Hk. destruct (H3 r (or_introl Hr)) as [s' [Hs' [Hk' Hc]]].
    assert (s' = s) by (apply (nodup_key_eq (first_rows rows)); congruence).
    now subst s'.
  - intros r Hr. destruct (H3 r (or_introl Hr)) as [s [Hs [Hk _]]].
    now exists s.
Qed.

(** The result depends on the lines of the file, not on their order. *)
Lemma qualified_same_rows (rows1 rows2 S : list SRow) :
  (forall r, In r rows1 <-> In r rows2) ->
  is_qualified m rows1 S = true -> is_qualified m rows2 S = true.
Proof.
  intros Hsame H. apply qualified_spec in H as [Hr [Hn [Ho Hc]]].
  apply qualified_spec.
  split; [assumption|]. split; [assumption|]. split.
  - intros s Hs. destruct (Ho s Hs) as [Hin Hmax]. split.
    + now apply Hsame.
    + intros r Hr' Hk. apply Hmax; [now apply Hsame|assumption].
  - intros r Hr'. apply Hc. now apply Hsame.
Qed.

(** Two results keep, for a partition, rows of the same ordering field. *)
Lemma qualified_same_key (rows S1 S2 : list SRow) (s1 s2 : SRow) :
  is_qualified m rows S1 = true -> is_qualified m rows S2 = true ->
  In s1 S1 -> In s2 S2 -> pkey s1 = pkey s2 -> s_key s1 = s_key s2.
Proof.
  intros Q1 Q2 H1 H2 Hk.
  apply qualified_spec in Q1 as [_ [_ [O1 _]]].
  apply qualified_spec in Q2 as [_ [_ [O2 _]]].
  destruct (O1 s1 H1) as [I1 M1]. destruct (O2 s2 H2) as [I2 M2].
  apply comes_first_total.
  - apply M2; assumption.
  - apply M1; [assumption|now symmetry].
Qed.

(** A file of one line has one result. *)
Lemma qualified_single (s : SRow) (S : list SRow) :
  m_rank m = 1 -> (is_qualified m [s] S = true <-> S = [s]).
Proof.
  intros Hrank. rewrite qualified_spec. split.
  - intros [_ [Hn [Ho Hc]]].
    destruct (Hc s (or_introl eq_refl)) as [s0 [Hs0 _]].
    assert (Hall : forall x, In x S -> x = s).
    { intros x Hx. destruct (Ho x Hx) as [[E|[]] _]. now symmetry. }
    destruct S as [|a [|b S]]; [destruct Hs0| |].
    + now rewrite (Hall a (or_introl eq_refl)).
    + exfalso. inversion Hn as [|? ? Hnotin _]; subst. apply Hnotin. left.
      rewrite (Hall a (or_introl eq_refl)).
      now rewrite (Hall b (or_intror (or_introl eq_refl))).
  - intros ->. split; [assumption|]. split; [|split].
    + simpl. constructor; [intros []|constructor].
    + intros x [<-|[]]. split; [now left|].
      intros r [<-|[]] _. apply comes_first_irrefl.
    + intros r [<-|[]]. exists s. split; [now left|reflexivity].
Qed.

Lemma ambiguous_single (s : SRow) (T : list Row) : ambiguous m [s] T = false.
Proof.
  unfold ambiguous. induction T as [|t T IH]; [reflexivity|].
  cbn [existsb]. rewrite IH. cbn [filter].
  now destruct (on_match m t (s_row s)).
Qed.

Lemma merge_result_single (e : ChangeRow) (T T' : list Row) :
  m_rank m = 1 -> (merge_result m [e] T T' <-> T' = merge_one m e T).
Proof.
  intros Hrank. unfold merge_result, merge_one. cbn [map]. split.
  - intros [S [Q [_ ->]]]. apply (qualified_single _ _ Hrank) in Q. now subst.
  - intros ->. exists [select_row m e]. split; [|split].
    + now apply qualified_single.
    + apply ambiguous_single.
    + reflexivity.
Qed.

(** Replaying the events one run after the other has one result, the one
    [apply_in_order] computes. *)
Lemma replay_apply (evs : list ChangeRow) :
  m_rank m = 1 ->
  forall T T', replay m evs T T' <-> T' = apply_in_order m evs T.
Proof.
  intros Hrank. induction evs as [|e evs IH]; intros T T'; split.
  - intros H. inversion H; subst. reflexivity.
  - intros ->. constructor.
  - intros H. inversion H as [|? ? ? T1 ? H1 H2]; subst.
    apply (merge_result_single _ _ _ Hrank) in H1. subst T1.
    now apply IH in H2.
  - intros ->. apply replay_cons with (T1 := merge_one m e T).
    + now apply merge_result_single.
    + now apply IH.
Qed.

End Qualified.

End QualifiedFacts.


(** ** Merging a batch and replaying its events *)

Module ReplayFacts.
Import Snowsql MergeSQL RowFacts MergeFacts OrderFacts QualifiedFacts.

Lemma get_set_col_same (c v : string) (t : Row) :
  In c (map fst t) -> get c (set_col c v t) = v.
Proof.
  induction t as [|[a x] t IH]; simpl; [intros []|].
  intros H. destruct (String.eqb a c) eqn:E; simpl; rewrite E; [reflexivity|].
  destruct H as [H|H]; [|now apply IH].
  apply String.eqb_neq in E. contradiction.
Qed.

Lemma get_row_of (s : Row) (l : list string) (c : string) :
  In c l -> get c (map (fun c => (c, get c s)) l) = get c s.
Proof.
  induction l as [|a l IH]; simpl; [intros []|].
  intros H. destruct (String.eqb a c) eqn:E.
  - apply String.eqb_eq in E. now subst.
  - destruct H as [H|H]; [|now apply IH].
    apply String.eqb_neq in E. contradiction.
Qed.

(** Rows with the same distinct column names and the same values are the
    same row. *)
Lemma row_ext (t1 : Row) :
  forall t2 : Row,
    map fst t1 = map fst t2 ->
    NoDup (map fst t1) ->
    (forall c, In c (map fst t1) -> get c t1 = get c t2) ->
    t1 = t2.
Proof.
  induction t1 as [|[a x] t1 IH]; intros [|[b y] t2]; simpl;
    intros Hk Hnd Hg; try discriminate; [reflexivity|].
  injection Hk as <- Hk.
  inversion Hnd as [|? ? Hnotin Hnd']; subst.
  assert (x = y).
  { specialize (Hg a (or_introl eq_refl)). now rewrite String.eqb_refl in Hg. }
  subst y. f_equal. apply IH; [assumption|assumption|].
  intros c Hc. specialize (Hg c (or_intror Hc)).
  destruct (String.eqb a c) eqn:E; [|assumption].
  apply String.eqb_eq in E. subst c. contradiction.
Qed.

Lemma fold_set_keys (s : Row) (l : list (string * string)) :
  forall t : Row,
    map fst (fold_left (fun acc ab => set_col (fst ab) (get (snd ab) s) acc) l t)
    = map fst t.
Proof.
  induction l as [|ab l IH]; intros t; simpl; [reflexivity|].
  now rewrite IH, keys_set_col.
Qed.

Lemma fold_set_agree (s : Row) (l : list string) (c : string) :
  forall t : Row,
    get c t = get c s ->
    get c (fold_left (fun acc ab => set_col (fst ab) (get (snd ab) s) acc)
                     (map (fun n => (n, n)) l) t) = get c s.
Proof.
  induction l as [|a l IH]; intros t H; simpl; [assumption|].
  apply IH. now apply get_set_col_agree.
Qed.

(** After [UPDATE SET] over the columns [l], every column of [l] the row
    has carries the source row's value. *)
Lemma fold_set_get (s : Row) (l : list string) (c : string) :
  forall t : Row,
    In c l -> In c (map fst t) ->
    get c (fold_left (fun acc ab => set_col (fst ab) (get (snd ab) s) acc)
                     (map (fun n => (n, n)) l) t) = get c s.
Proof.
  induction l as [|a l IH]; intros t Hin Hb; simpl; [destruct Hin|].
  destruct (string_dec a c) as [->|Hne].
  - apply fold_set_agree. now apply get_set_col_same.
  - destruct Hin as [Hin|Hin]; [contradiction|].
    apply IH; [assumption|]. now rewrite keys_set_col.
Qed.

Section OneKey.
Variable td : TableDefinition.
Variables f st : string.
Variable k : list string.

Let m : MergeStmt := GenMergeInto_stmt td f st.

Definition is_k (t : Row) : bool := list_eqb (key_of_target m t) k.

Lemma update_set_names :
  set_all td = map (fun n => (n, n)) (all_names td).
Proof. unfold set_all, all_names. now rewrite map_map. Qed.

Lemma update_row_get (t s : Row) (c : string) :
  In c (all_names td) -> In c (map fst t) ->
  get c (update_row (set_all td) t s) = get c s.
Proof.
  intros Hc Hb. unfold update_row. rewrite update_set_names.
  now apply fold_set_get.
Qed.

Lemma update_row_full (t s : Row) :
  NoDup (all_names td) -> well_shaped td t = true ->
  update_row (set_all td) t s = row_of_all td s.
Proof.
  intros Hnd Hw. apply list_eqb_eq in Hw.
  assert (Hk : map fst (update_row (set_all td) t s) = all_names td).
  { unfold update_row. now rewrite fold_set_keys. }
  apply row_ext.
  - rewrite Hk. unfold row_of_all. rewrite map_map. simpl.
    now rewrite map_id.
  - now rewrite Hk.
  - rewrite Hk. intros c Hc. unfold row_of_all. rewrite get_row_of by assumption.
    apply update_row_get; [assumption|now rewrite Hw].
Qed.

Lemma row_of_all_shaped (s : Row) : well_shaped td (row_of_all td s) = true.
Proof.
  apply list_eqb_eq. unfold row_of_all. rewrite map_map. simpl.
  now rewrite map_id.
Qed.

Lemma on_match_keys (t s : Row) :
  on_match m t s = list_eqb (key_of_target m t) (partition_key m s).
Proof.
  unfold on_match, key_of_target, partition_key, m; simpl.
  unfold pkColumn.
  induction (filter is_pk (Columns td)) as [|c l IH]; simpl; [reflexivity|].
  now rewrite IH.
Qed.

Lemma on_match_is_k (t s : Row) :
  partition_key m s = k -> on_match m t s = is_k t.
Proof. intros H. unfold is_k. rewrite <- H. apply on_match_keys. Qed.

Lemma key_names_in_all (c : string) :
  In c (key_names td) -> In c (all_names td).
Proof.
  unfold key_names, all_names. intros H.
  apply in_map_iff in H as [col [<- Hcol]].
  apply in_map. apply filter_In in Hcol. tauto.
Qed.

Lemma is_k_row_of_all (s : Row) :
  partition_key m s = k -> is_k (row_of_all td s) = true.
Proof.
  intros H. unfold is_k. rewrite <- H. apply list_eqb_eq.
  unfold key_of_target, partition_key, m; simpl.
  unfold pkColumn. rewrite !map_map. simpl.
  apply map_ext_in. intros c Hc.
  unfold row_of_all. apply get_row_of.
  apply key_names_in_all. unfold key_names. now apply in_map.
Qed.

End OneKey.

Lemma filter_map_if_in {A : Type} (p : A -> bool) (g : A) (X : list A) :
  p g = true ->
  filter p (map (fun t => if p t then g else t) X)
  = map (fun _ => g) (filter p X).
Proof.
  intros Hg. induction X as [|a X IH]; simpl; [reflexivity|].
  destruct (p a) eqn:E; simpl.
  - rewrite Hg. simpl. now rewrite IH.
  - now rewrite E.
Qed.

Lemma filter_map_if_out {A : Type} (p : A -> bool) (g : A) (X : list A) :
  p g = true ->
  filter (fun t => negb (p t)) (map (fun t => if p t then g else t) X)
  = filter (fun t => negb (p t)) X.
Proof.
  intros Hg. induction X as [|a X IH]; simpl; [reflexivity|].
  destruct (p a) eqn:E; simpl.
  - rewrite Hg. simpl. assumption.
  - rewrite E. simpl. now rewrite IH.
Qed.

Lemma filter_neg_in {A : Type} (p : A -> bool) (X : list A) :
  filter p (filter (fun t => negb (p t)) X) = [].
Proof.
  induction X as [|a X IH]; simpl; [reflexivity|].
  destruct (p a) eqn:E; simpl; [assumption|]. now rewrite E.
Qed.

Lemma filter_neg_idem {A : Type} (p : A -> bool) (X : list A) :
  filter (fun t => negb (p t)) (filter (fun t => negb (p t)) X)
  = filter (fun t => negb (p t)) X.
Proof.
  induction X as [|a X IH]; simpl; [reflexivity|].
  destruct (p a) eqn:E; simpl; [assumption|]. rewrite E. simpl. now rewrite IH.
Qed.

Lemma existsb_false_filter {A : Type} (p : A -> bool) (X : list A) :
  existsb p X = false ->
  filter p X = [] /\ filter (fun t => negb (p t)) X = X.
Proof.
  induction X as [|a X IH]; simpl; [now split|].
  intros H. apply orb_false_iff in H as [Ha HX].
  rewrite Ha. simpl. destruct (IH HX) as [H1 H2]. split; [assumption|].
  now rewrite H2.
Qed.

Lemma existsb_true_filter {A : Type} (p : A -> bool) (X : list A) :
  existsb p X = true -> filter p X <> [].
Proof.
  induction X as [|a X IH]; simpl; [discriminate|].
  destruct (p a); simpl; [discriminate|assumption].
Qed.

(** A list is its matching rows and the others, up to order. *)
Lemma filter_split_perm {A : Type} (p : A -> bool) (X : list A) :
  Permutation X (filter p X ++ filter (fun t => negb (p t)) X).
Proof.
  induction X as [|a X IH]; simpl; [constructor|].
  destruct (p a); simpl.
  - now constructor.
  - now apply Permutation_cons_app.
Qed.

Section Replay.
Variable td : TableDefinition.
Variables f st : string.
Variable k : list string.
Hypothesis names_distinct : NoDup (all_names td).

Let m : MergeStmt := GenMergeInto_stmt td f st.
Let isk : Row -> bool := is_k td f st k.

(** What one event leaves of the rows carrying the tuple [k]: nothing
    after a delete, the event's row otherwise. *)
Definition final_rows (e : ChangeRow) : list Row :=
  let s := s_row (select_row m e) in
  if is_delete s then [] else [row_of_all td s].

Definition has_key (e : ChangeRow) : Prop :=
  partition_key m (s_row (select_row m e)) = k.

Definition shaped (X : list Row) : Prop :=
  Forall (fun t => well_shaped td t = true) X.

Lemma matched_part (s : Row) (X : list Row) :
  partition_key m s = k -> shaped X ->
  flat_map (fun t => if on_match m t s
                     then (if is_delete s then []
                           else [update_row (set_all td) t s])
                     else [t]) X
  = if is_delete s then filter (fun t => negb (isk t)) X
    else map (fun t => if isk t then row_of_all td s else t) X.
Proof.
  intros Hk Hs. induction Hs as [|t X Ht HX IH]; simpl.
  - now destruct (is_delete s).
  - rewrite IH. unfold m at 1. rewrite (on_match_is_k td f st k t s Hk).
    fold isk. destruct (isk t) eqn:E; destruct (is_delete s) eqn:D; simpl;
      try reflexivity.
    now rewrite (update_row_full td t s names_distinct Ht).
Qed.

Lemma exists_match (s : Row) (X : list Row) :
  partition_key m s = k ->
  existsb (fun t => on_match m t s) X = existsb isk X.
Proof.
  intros Hk. induction X as [|t X IH]; simpl; [reflexivity|].
  unfold m at 1. now rewrite (on_match_is_k td f st k t s Hk), IH.
Qed.

Lemma exec_single_shape (e : ChangeRow) (X : list Row) :
  has_key e -> shaped X ->
  merge_one m e X =
  let s := s_row (select_row m e) in
  app (if is_delete s then filter (fun t => negb (isk t)) X
       else map (fun t => if isk t then row_of_all td s else t) X)
      (if existsb isk X then []
       else if is_delete s then [] else [row_of_all td s]).
Proof.
  intros Hk Hs. unfold m at 1. rewrite merge_one_stmt. cbv zeta. fold m.
  now rewrite (matched_part _ X Hk Hs), (exists_match _ X Hk).
Qed.

Lemma single_others (e : ChangeRow) (X : list Row) :
  has_key e -> shaped X ->
  filter (fun t => negb (isk t)) (merge_one m e X)
  = filter (fun t => negb (isk t)) X.
Proof.
  intros Hk Hs. rewrite (exec_single_shape e X Hk Hs). cbv zeta.
  set (s := s_row (select_row m e)).
  assert (Hrow : isk (row_of_all td s) = true)
    by (apply is_k_row_of_all; exact Hk).
  rewrite filter_app.
  assert (Hb : filter (fun t => negb (isk t))
                 (if existsb isk X then []
                  else if is_delete s then [] else [row_of_all td s]) = []).
  { destruct (existsb isk X); [reflexivity|].
    destruct (is_delete s); [reflexivity|]. simpl. now rewrite Hrow. }
  rewrite Hb, app_nil_r.
  destruct (is_delete s).
  - apply filter_neg_idem.
  - now apply filter_map_if_out.
Qed.

Lemma single_keyed (e : ChangeRow) (X : list Row) :
  has_key e -> shaped X -> at_most_one m k X = true ->
  filter isk (merge_one m e X) = final_rows e.
Proof.
  intros Hk Hs Hone. rewrite (exec_single_shape e X Hk Hs). cbv zeta.
  unfold final_rows. set (s := s_row (select_row m e)).
  assert (Hrow : isk (row_of_all td s) = true)
    by (apply is_k_row_of_all; exact Hk).
  rewrite filter_app.
  destruct (is_delete s).
  - rewrite filter_neg_in. now destruct (existsb isk X).
  - rewrite (filter_map_if_in isk _ X Hrow).
    destruct (existsb isk X) eqn:Ex.
    + apply existsb_true_filter in Ex.
      assert (Hlen : (List.length (filter isk X) <= 1)%nat)
        by (apply Nat.leb_le; exact Hone).
      destruct (filter isk X) as [|a [|b l]]; simpl in *;
        [contradiction|reflexivity|lia].
    + destruct (existsb_false_filter isk X Ex) as [H0 _].
      rewrite H0. simpl. now rewrite Hrow.
Qed.

Lemma single_shaped (e : ChangeRow) (X : list Row) :
  has_key e -> shaped X -> shaped (merge_one m e X).
Proof.
  intros Hk Hs. rewrite (exec_single_shape e X Hk Hs). cbv zeta.
  set (s := s_row (select_row m e)).
  assert (Hr : well_shaped td (row_of_all td s) = true)
    by apply row_of_all_shaped.
  unfold shaped. apply Forall_app. split.
  - destruct (is_delete s).
    + apply Forall_forall. intros t Ht. apply filter_In in Ht as [Ht _].
      revert t Ht. now apply Forall_forall.
    + apply Forall_forall. intros t Ht.
      apply in_map_iff in Ht as [t0 [<- Ht0]].
      destruct (isk t0); [assumption|].
      revert t0 Ht0. now apply Forall_forall.
  - destruct (existsb isk X); [constructor|].
    destruct (is_delete s); [constructor|]. now repeat constructor.
Qed.

Lemma single_at_most_one (e : ChangeRow) (X : list Row) :
  has_key e -> shaped X -> at_most_one m k X = true ->
  at_most_one m k (merge_one m e X) = true.
Proof.
  intros Hk Hs Hone. unfold at_most_one. apply Nat.leb_le.
  change (List.length (filter isk (merge_one m e X)) <= 1)%nat.
  rewrite (single_keyed e X Hk Hs Hone). unfold final_rows.
  destruct (is_delete _); simpl; lia.
Qed.

End Replay.

(** *** Batches on several primary-key tuples *)

Lemma list_eqb_sym (a b : list string) : list_eqb a b = list_eqb b a.
Proof.
  destruct (list_eqb a b) eqn:E1, (list_eqb b a) eqn:E2; try reflexivity.
  - apply list_eqb_eq in E1. subst. now rewrite list_eqb_refl in E2.
  - apply list_eqb_eq in E2. subst. now rewrite list_eqb_refl in E1.
Qed.

Definition Row_eq_dec : forall a b : Row, {a = b} + {a <> b} :=
  list_eq_dec (fun p q : string * string =>
                 match string_dec (fst p) (fst q), string_dec (snd p) (snd q) with
                 | left e1, left e2 =>
                     left (match p, q return fst p = fst q -> snd p = snd q -> p = q with
                           | (a, b), (c, d) => fun e1 e2 => f_equal2 pair e1 e2
                           end e1 e2)
                 | right n, _ => right (fun e => n (f_equal fst e))
                 | _, right n => right (fun e => n (f_equal snd e))
                 end).

Lemma count_occ_filter (p : Row -> bool) (L : list Row) (x : Row) :
  p x = true ->
  count_occ Row_eq_dec (filter p L) x = count_occ Row_eq_dec L x.
Proof.
  intros Hx. induction L as [|a L IH]; simpl; [reflexivity|].
  destruct (p a) eqn:Ea; simpl; destruct (Row_eq_dec a x) as [->|N];
    try (now rewrite IH); congruence.
Qed.

Section AllKeys.
Variable td : TableDefinition.
Variables f st : string.
Hypothesis names_distinct : NoDup (all_names td).

Let m : MergeStmt := GenMergeInto_stmt td f st.
Let isk (k : list string) : Row -> bool := is_k td f st k.

(** The primary-key tuple of a staged row. *)
Definition ekey (e : ChangeRow) : list string :=
  partition_key m (s_row (select_row m e)).

(** No two rows of the target carry the same primary-key tuple. *)
Definition unique_keys (X : list Row) : Prop :=
  forall k, at_most_one m k X = true.

Definition left_by (s : Row) : list Row :=
  if is_delete s then [] else [row_of_all td s].

(** The last event of a list that carries the tuple [k]. *)
Fixpoint last_with (k : list string) (evs : list ChangeRow) : option ChangeRow :=
  match evs with
  | [] => None
  | e :: rest =>
      match last_with k rest with
      | Some x => Some x
      | None => if list_eqb (ekey e) k then Some e else None
      end
  end.

Lemma isk_key (k : list string) (t : Row) :
  isk k t = true <-> key_of_target m t = k.
Proof. apply list_eqb_eq. Qed.

Lemma key_row_of_all (s : Row) :
  key_of_target m (row_of_all td s) = partition_key m s.
Proof. apply isk_key. now apply is_k_row_of_all. Qed.

Lemma isk_row_of_all (k : list string) (s : Row) :
  isk k (row_of_all td s) = list_eqb (partition_key m s) k.
Proof. unfold isk, is_k. fold m. now rewrite key_row_of_all. Qed.

Lemma filter_key_others (k k' : list string) (X : list Row) :
  k <> k' ->
  filter (isk k) (filter (fun t => negb (isk k' t)) X) = filter (isk k) X.
Proof.
  intros Hne. induction X as [|a X IH]; simpl; [reflexivity|].
  destruct (isk k' a) eqn:E'; simpl.
  - destruct (isk k a) eqn:E; [|exact IH].
    apply isk_key in E, E'. congruence.
  - now rewrite IH.
Qed.

Lemma single_other_key (e : ChangeRow) (X : list Row) (k : list string) :
  shaped td X -> k <> ekey e ->
  filter (isk k) (merge_one m e X) = filter (isk k) X.
Proof.
  intros Hs Hne.
  rewrite <- (filter_key_others k (ekey e) (merge_one m e X) Hne).
  unfold isk at 2, m.
  rewrite (single_others td f st (ekey e) names_distinct e X eq_refl Hs).
  now apply filter_key_others.
Qed.

Lemma single_unique (e : ChangeRow) (X : list Row) :
  shaped td X -> unique_keys X -> unique_keys (merge_one m e X).
Proof.
  intros Hs Hu k.
  destruct (list_eq_dec string_dec k (ekey e)) as [->|Hne].
  - now apply (single_at_most_one td f st (ekey e) names_distinct e X eq_refl Hs).
  - unfold at_most_one.
    change (filter (fun t => list_eqb (key_of_target m t) k)
                   (merge_one m e X))
      with (filter (isk k) (merge_one m e X)).
    rewrite (single_other_key e X k Hs Hne). apply Hu.
Qed.

(** Replaying a list of events leaves, of the rows of a tuple, what the last
    event on that tuple leaves; the rows of a tuple without event stay. *)
Lemma replay_by_key (evs : list ChangeRow) :
  forall X, shaped td X -> unique_keys X ->
  forall k,
    filter (isk k) (apply_in_order m evs X)
    = match last_with k evs with
      | Some e => final_rows td f st e
      | None => filter (isk k) X
      end.
Proof.
  induction evs as [|e evs IH]; intros X Hs Hu k; [reflexivity|].
  change (apply_in_order m (e :: evs) X)
    with (apply_in_order m evs (merge_one m e X)).
  rewrite (IH _ (single_shaped td f st (ekey e) names_distinct e X eq_refl Hs)
              (single_unique e X Hs Hu)).
  simpl. destruct (last_with k evs); [reflexivity|].
  destruct (list_eqb (ekey e) k) eqn:E.
  - apply list_eqb_eq in E. subst k.
    now apply (single_keyed td f st (ekey e) names_distinct e X eq_refl Hs).
  - apply single_other_key; [assumption|].
    intros ->. now rewrite list_eqb_refl in E.
Qed.


Lemma on_match_find (k : list string) (t : Row) (S : list SRow) :
  isk k t = true ->
  find (fun s => on_match m t (s_row s)) S = find_key m k S.
Proof.
  intros Hk. apply isk_key in Hk. unfold find_key.
  induction S as [|s S IH]; simpl; [reflexivity|].
  unfold m at 1. rewrite on_match_keys. fold m. rewrite Hk.
  unfold pkey. rewrite list_eqb_sym. now rewrite IH.
Qed.

Lemma matched_by_key (S : list SRow) (X : list Row) (k : list string) :
  shaped td X ->
  filter (isk k)
    (flat_map (fun t => match find (fun s => on_match m t (s_row s)) S with
                        | Some s => when_matched m t (s_row s)
                        | None => [t]
                        end) X)
  = flat_map (fun t => match find_key m k S with
                       | Some s => left_by (s_row s)
                       | None => [t]
                       end) (filter (isk k) X).
Proof.
  intros Hs. induction Hs as [|t X Ht HX IH]; [reflexivity|].
  cbn [flat_map filter]. rewrite filter_app, IH.
  destruct (isk k t) eqn:Ek.
  - cbn [flat_map]. f_equal. rewrite (on_match_find k t S Ek).
    destruct (find_key m k S) as [s|] eqn:F.
    + apply find_key_some in F as [_ Hs']. unfold left_by.
      unfold m at 1. rewrite when_matched_stmt.
      destruct (is_delete (s_row s)); [reflexivity|].
      rewrite (update_row_full td t (s_row s) names_distinct Ht).
      cbn [filter]. rewrite isk_row_of_all. fold (pkey m s). rewrite Hs'.
      now rewrite list_eqb_refl.
    + cbn [filter]. now rewrite Ek.
  - rewrite <- (app_nil_l (flat_map _ (filter (isk k) X))) at 1. f_equal.
    destruct (find (fun s => on_match m t (s_row s)) S) as [s|] eqn:F.
    + apply find_some in F as [_ Hm]. unfold m in Hm.
      rewrite on_match_keys in Hm. fold m in Hm. apply list_eqb_eq in Hm.
      unfold m at 1. rewrite when_matched_stmt.
      destruct (is_delete (s_row s)); [reflexivity|].
      rewrite (update_row_full td t (s_row s) names_distinct Ht).
      cbn [filter]. rewrite isk_row_of_all. rewrite <- Hm.
      unfold isk, is_k in Ek. fold m in Ek. now rewrite Ek.
    + cbn [filter]. now rewrite Ek.
Qed.

Lemma inserted_by_key (S : list SRow) (X : list Row) (k : list string) :
  NoDup (map (pkey m) S) ->
  filter (isk k)
    (flat_map (fun s => if existsb (fun t => on_match m t (s_row s)) X then []
                        else when_not_matched m (s_row s)) S)
  = match find_key m k S with
    | Some s => if existsb (isk k) X then [] else left_by (s_row s)
    | None => []
    end.
Proof.
  induction S as [|s S IH]; intros Hnd; [reflexivity|].
  inversion Hnd as [|? ? Hnotin Hnd']; subst.
  cbn [flat_map]. rewrite filter_app, (IH Hnd'). unfold find_key. cbn [find].
  fold (find_key m k S).
  unfold m at 2. rewrite when_not_matched_stmt.
  destruct (list_eqb (pkey m s) k) eqn:E.
  - apply list_eqb_eq in E. rewrite <- E in *.
    rewrite (find_key_none _ _ _ Hnotin), app_nil_r.
    pose proof (exists_match td f st (pkey m s) (s_row s) X eq_refl) as Hex.
    fold m in Hex. fold (isk (pkey m s)) in Hex. rewrite Hex.
    destruct (existsb (isk (pkey m s)) X); [reflexivity|].
    unfold left_by. destruct (is_delete (s_row s)); [reflexivity|].
    cbn [filter].
    rewrite isk_row_of_all. fold (pkey m s). now rewrite list_eqb_refl.
  - rewrite <- (app_nil_l (match find_key m k S with Some _ => _ | None => _ end)) at 1.
    f_equal.
    destruct (existsb (fun t => on_match m t (s_row s)) X); [reflexivity|].
    destruct (is_delete (s_row s)); [reflexivity|].
    cbn [filter].
    rewrite isk_row_of_all. fold (pkey m s). now rewrite E.
Qed.

(** Of the rows of a tuple, a merge leaves what the sub-query's row of that
    tuple leaves; the rows of a tuple the sub-query does not hold stay. *)
Lemma merge_by_key (S : list SRow) (X : list Row) (k : list string) :
  NoDup (map (pkey m) S) -> shaped td X -> at_most_one m k X = true ->
  filter (isk k) (merge_rows m S X)
  = match find_key m k S with
    | Some s => left_by (s_row s)
    | None => filter (isk k) X
    end.
Proof.
  intros Hnd Hs Hone. unfold merge_rows.
  rewrite filter_app, (matched_by_key S X k Hs), (inserted_by_key S X k Hnd).
  destruct (find_key m k S) as [s|].
  - destruct (existsb (isk k) X) eqn:Ex.
    + apply existsb_true_filter in Ex.
      assert (Hlen : (List.length (filter (isk k) X) <= 1)%nat)
        by (apply Nat.leb_le; exact Hone).
      destruct (filter (isk k) X) as [|a [|b l]]; simpl in *;
        [contradiction|now rewrite !app_nil_r|lia].
    + destruct (existsb_false_filter (isk k) X Ex) as [H0 _]. now rewrite H0.
  - rewrite app_nil_r. now apply flat_map_keep.
Qed.

(** Distinct partition keys: no target row is joined with two rows of the
    sub-query. *)
Lemma not_ambiguous (S : list SRow) (X : list Row) :
  NoDup (map (pkey m) S) -> ambiguous m S X = false.
Proof.
  intros Hnd. unfold ambiguous.
  destruct (existsb _ X) eqn:Ex; [|reflexivity]. exfalso.
  apply existsb_exists in Ex as [t [_ Hlen]]. apply Nat.ltb_lt in Hlen.
  clear X. induction S as [|a S IH]; simpl in Hlen; [lia|].
  inversion Hnd as [|? ? Hnotin Hnd']; subst.
  destruct (on_match m t (s_row a)) eqn:Ea; [|now apply IH].
  simpl in Hlen.
  destruct (filter (fun s => on_match m t (s_row s)) S) as [|b l] eqn:F;
    [simpl in Hlen; lia|].
  assert (Hb : In b (filter (fun s => on_match m t (s_row s)) S))
    by (rewrite F; now left).
  apply filter_In in Hb as [Hb Eb]. apply Hnotin.
  unfold m in Ea, Eb. rewrite on_match_keys in Ea, Eb. fold m in Ea, Eb.
  apply list_eqb_eq in Ea, Eb. unfold pkey at 1. rewrite <- Ea, Eb.
  now apply (in_map (pkey m)).
Qed.

Lemma last_with_none (k : list string) (evs : list ChangeRow) :
  last_with k evs = None -> forall e, In e evs -> ekey e <> k.
Proof.
  induction evs as [|a evs IH]; simpl; intros H e He; [destruct He|].
  destruct (last_with k evs); [discriminate|].
  destruct (list_eqb (ekey a) k) eqn:E; [discriminate|].
  destruct He as [<-|He]; [|now apply IH].
  intros Hk. rewrite Hk, list_eqb_refl in E. discriminate.
Qed.

(** In commit order, the last event on a tuple carries the greatest
    ordering key of the tuple. *)
Lemma last_with_some (k : list string) (evs : list ChangeRow) (e : ChangeRow) :
  last_with k evs = Some e ->
  In e evs /\ ekey e = k
  /\ (commit_ordered m evs = true ->
      forall b, In b evs -> ekey b = k ->
                select_row m b = select_row m e
                \/ String.ltb (cr_commit_ts b) (cr_commit_ts e) = true).
Proof.
  revert e. induction evs as [|a evs IH]; simpl; intros e H; [discriminate|].
  destruct (last_with k evs) as [x|] eqn:L.
  - injection H as <-. destruct (IH x eq_refl) as [H1 [H2 H3]].
    split; [now right|]. split; [assumption|].
    intros Hord b Hb Hk. apply andb_true_iff in Hord as [Ha Hord].
    destruct Hb as [<-|Hb]; [|now apply H3].
    rewrite forallb_forall in Ha. specialize (Ha x H1).
    apply orb_true_iff in Ha as [Ha|Ha];
      [|left; now apply srow_eqb_eq].
    apply orb_true_iff in Ha as [Ha|Ha]; [|now right].
    apply negb_true_iff in Ha.
    assert (Hsame : same_partition m (select_row m a) (select_row m x) = true).
    { apply list_eqb_eq. fold (ekey a). fold (ekey x). congruence. }
    congruence.
  - destruct (list_eqb (ekey a) k) eqn:E; [|discriminate].
    injection H as <-. apply list_eqb_eq in E.
    split; [now left|]. split; [assumption|].
    intros _ b Hb Hk. destruct Hb as [<-|Hb]; [now left|].
    exfalso. now apply (last_with_none k evs L b Hb).
Qed.

(** The row a result of the sub-query holds for the tuple of [e], when
    every other line of that tuple carries a smaller ordering key. *)
Lemma qualified_latest (batch : list ChangeRow) (S : list SRow) (e : ChangeRow) :
  is_qualified m (map (select_row m) batch) S = true ->
  In e batch ->
  (forall b, In b batch -> ekey b = ekey e ->
             select_row m b = select_row m e
             \/ String.ltb (cr_commit_ts b) (cr_commit_ts e) = true) ->
  find_key m (ekey e) S = Some (select_row m e).
Proof.
  intros Q He Hlatest. apply qualified_spec in Q as [_ [Hnd [Hone Hcov]]].
  destruct (Hcov (select_row m e) (in_map _ _ _ He)) as [s [Hs Hk]].
  destruct (Hone s Hs) as [Hin Hmax].
  apply in_map_iff in Hin as [b [<- Hb]].
  destruct (Hlatest b Hb Hk) as [Heq|Hlt].
  - rewrite <- Heq. apply find_key_in; [assumption|assumption|].
    fold (ekey b). exact Hk.
  - specialize (Hmax (select_row m e) (in_map _ _ _ He) (eq_sym Hk)).
    unfold comes_first in Hmax. cbn in Hmax. congruence.
Qed.

Lemma qualified_absent (batch : list ChangeRow) (S : list SRow) (k : list string) :
  is_qualified m (map (select_row m) batch) S = true ->
  (forall b, In b batch -> ekey b <> k) ->
  find_key m k S = None.
Proof.
  intros Q Hno. apply qualified_spec in Q as [_ [_ [Hone _]]].
  apply find_key_none. intros Hin.
  apply in_map_iff in Hin as [s [Hk Hs]].
  destruct (Hone s Hs) as [Hin _]. apply in_map_iff in Hin as [b [<- Hb]].
  now apply (Hno b Hb).
Qed.

(** The row a result of the sub-query holds for a tuple is that of the last
    event on the tuple in commit order. *)
Lemma find_qualified (batch evs : list ChangeRow) (S : list SRow)
      (k : list string) :
  Permutation batch evs -> commit_ordered m evs = true ->
  is_qualified m (map (select_row m) batch) S = true ->
  find_key m k S = option_map (select_row m) (last_with k evs).
Proof.
  intros Hperm Hord Q.
  assert (Hin : forall b, In b batch <-> In b evs).
  { intros b. split; apply Permutation_in;
      [assumption|now apply Permutation_sym]. }
  destruct (last_with k evs) as [e|] eqn:L; simpl.
  - destruct (last_with_some k evs e L) as [He [Hk Hmax]]. rewrite <- Hk.
    apply (qualified_latest batch); [assumption|now apply Hin|].
    intros b Hb Hkb. apply Hmax; [assumption|now apply Hin|congruence].
  - apply (qualified_absent batch); [assumption|].
    intros b Hb. apply (last_with_none k evs L). now apply Hin.
Qed.

(** With distinct ordering keys within a tuple, two results of the
    sub-query hold the same row for every tuple. *)
Lemma qualified_unique (batch : list ChangeRow) (S1 S2 : list SRow)
      (k : list string) :
  distinct_keys m batch = true ->
  is_qualified m (map (select_row m) batch) S1 = true ->
  is_qualified m (map (select_row m) batch) S2 = true ->
  find_key m k S1 = find_key m k S2.
Proof.
  intros Hd Q1 Q2.
  assert (Hhalf : forall A B s,
             is_qualified m (map (select_row m) batch) A = true ->
             is_qualified m (map (select_row m) batch) B = true ->
             find_key m k A = Some s -> find_key m k B = Some s).
  { intros A B s QA QB F. apply find_key_some in F as [Hs Hk].
    pose proof QA as QA'. pose proof QB as QB'.
    apply qualified_spec in QA' as [_ [_ [OA _]]].
    apply qualified_spec in QB' as [_ [NB [OB CB]]].
    destruct (OA s Hs) as [Hin _].
    destruct (CB s Hin) as [s' [Hs' Hk']].
    pose proof (qualified_same_key m _ A B s s' QA QB Hs Hs' (eq_sym Hk')) as Ekey.
    destruct (OB s' Hs') as [Hin' _].
    apply in_map_iff in Hin as [a [Ea Ha]].
    apply in_map_iff in Hin' as [b [Eb Hb]].
    unfold distinct_keys in Hd. rewrite forallb_forall in Hd.
    specialize (Hd a Ha). rewrite forallb_forall in Hd. specialize (Hd b Hb).
    rewrite Ea, Eb in Hd.
    assert (Hsame : same_partition m s s' = true)
      by (apply same_partition_eq; now symmetry).
    rewrite Hsame in Hd. cbn [negb orb] in Hd.
    assert (Hf : String.eqb (field (m_order_by m) a) (field (m_order_by m) b)
                 = true).
    { apply String.eqb_eq. rewrite <- Ea, <- Eb in Ekey. exact Ekey. }
    rewrite Hf in Hd. cbn [negb orb] in Hd. apply srow_eqb_eq in Hd.
    subst s'. apply find_key_in; assumption. }
  destruct (find_key m k S1) as [s1|] eqn:F1.
  - symmetry. now apply (Hhalf S1 S2).
  - destruct (find_key m k S2) as [s2|] eqn:F2; [|reflexivity].
    rewrite (Hhalf S2 S1 s2 Q2 Q1 F2) in F1. discriminate.
Qed.

(** Whatever the batch: of the rows of a tuple, a merge leaves what one
    event of that tuple with the greatest ordering key leaves, and the rows
    of a tuple without event stay. *)
Lemma merge_net_by_key (batch : list ChangeRow) (S : list SRow)
      (X : list Row) (k : list string) :
  shaped td X -> at_most_one m k X = true ->
  is_qualified m (map (select_row m) batch) S = true ->
  ((forall b, In b batch -> ekey b <> k)
   /\ filter (isk k) (merge_rows m S X) = filter (isk k) X)
  \/ (exists e, In e batch /\ ekey e = k
         /\ (forall b, In b batch -> ekey b = k ->
               String.ltb (cr_commit_ts e) (cr_commit_ts b) = false)
         /\ filter (isk k) (merge_rows m S X)
            = left_by (s_row (select_row m e))).
Proof.
  intros Hs Hone Q. pose proof Q as Q'.
  apply qualified_spec in Q' as [_ [Hnd [Hnum Hcov]]].
  rewrite (merge_by_key S X k Hnd Hs Hone).
  destruct (find_key m k S) as [s|] eqn:F.
  - right. apply find_key_some in F as [HsS Hk].
    destruct (Hnum s HsS) as [Hin Hmax].
    apply in_map_iff in Hin as [e [<- He]].
    exists e. split; [assumption|]. split; [exact Hk|]. split; [|reflexivity].
    intros b Hb Hkb. change (ekey e = k) in Hk.
    assert (Hbe : pkey m (select_row m b) = pkey m (select_row m e))
      by (change (ekey b = ekey e); congruence).
    specialize (Hmax (select_row m b) (in_map _ _ _ Hb) Hbe).
    unfold comes_first in Hmax. cbn in Hmax. exact Hmax.
  - left. split; [|reflexivity]. intros b Hb Hkb.
    destruct (Hcov (select_row m b) (in_map _ _ _ Hb)) as [s [HsS Hks]].
    change (pkey m s = ekey b) in Hks.
    rewrite (find_key_in m k S s Hnd HsS) in F; [discriminate|congruence].
Qed.

Lemma filter_no_key (k : list string) (X : list Row) :
  ~ In k (map (key_of_target m) X) -> filter (isk k) X = [].
Proof.
  induction X as [|b X IH]; simpl; intros Hn; [reflexivity|].
  destruct (isk k b) eqn:Eb.
  - exfalso. apply Hn. left. now apply isk_key.
  - apply IH. intros H. apply Hn. now right.
Qed.

Lemma nodup_unique_keys (X : list Row) :
  NoDup (map (key_of_target m) X) -> unique_keys X.
Proof.
  intros Hnd k. unfold at_most_one. apply Nat.leb_le.
  change (List.length (filter (isk k) X) <= 1)%nat.
  induction X as [|a X IH]; simpl; [lia|].
  inversion Hnd as [|? ? Hnotin Hnd']; subst.
  destruct (isk k a) eqn:E; [|now apply IH].
  apply isk_key in E. rewrite <- E.
  rewrite (filter_no_key _ _ Hnotin). simpl. lia.
Qed.

Lemma perm_by_key (L1 L2 : list Row) :
  (forall k, filter (isk k) L1 = filter (isk k) L2) -> Permutation L1 L2.
Proof.
  intros H. apply (Permutation_count_occ Row_eq_dec). intros x.
  assert (Hx : isk (key_of_target m x) x = true) by now apply isk_key.
  rewrite <- (count_occ_filter _ L1 x Hx), <- (count_occ_filter _ L2 x Hx).
  now rewrite H.
Qed.

(** Merging a batch is replaying its events in commit order, up to the order
    of the rows of the target. *)
Lemma merge_is_replay (batch evs : list ChangeRow) (S : list SRow)
      (X : list Row) :
  shaped td X -> NoDup (map (key_of_target m) X) ->
  commit_ordered m evs = true -> Permutation batch evs ->
  is_qualified m (map (select_row m) batch) S = true ->
  Permutation (merge_rows m S X) (apply_in_order m evs X).
Proof.
  intros Hs Hnd Hord Hperm Q. apply perm_by_key. intros k.
  pose proof (nodup_unique_keys X Hnd) as Hu.
  pose proof Q as Q'. apply qualified_spec in Q' as [_ [HndS _]].
  rewrite (merge_by_key S X k HndS Hs (Hu k)).
  rewrite (find_qualified batch evs S k Hperm Hord Q).
  rewrite (replay_by_key evs X Hs Hu k).
  now destruct (last_with k evs).
Qed.

(** A merge keeps the rows in the table's shape and the tuples apart. *)
Lemma merge_rows_shaped (S : list SRow) (X : list Row) :
  shaped td X -> shaped td (merge_rows m S X).
Proof.
  intros Hs. unfold shaped, merge_rows. apply Forall_app. split.
  - apply Forall_forall. intros r Hr. apply in_flat_map in Hr as [t [Ht Hr]].
    assert (Hw : well_shaped td t = true).
    { unfold shaped in Hs. rewrite Forall_forall in Hs. now apply Hs. }
    destruct (find (fun s => on_match m t (s_row s)) S) as [s|].
    + unfold m in Hr. rewrite when_matched_stmt in Hr.
      destruct (is_delete (s_row s)); [destruct Hr|].
      destruct Hr as [<-|[]].
      rewrite (update_row_full td t (s_row s) names_distinct Hw).
      apply row_of_all_shaped.
    + destruct Hr as [<-|[]]. exact Hw.
  - apply Forall_forall. intros r Hr. apply in_flat_map in Hr as [s [_ Hr]].
    destruct (existsb (fun t => on_match m t (s_row s)) X); [destruct Hr|].
    unfold m in Hr. rewrite when_not_matched_stmt in Hr.
    destruct (is_delete (s_row s)); [destruct Hr|].
    destruct Hr as [<-|[]]. apply row_of_all_shaped.
Qed.

Lemma merge_rows_unique (S : list SRow) (X : list Row) :
  NoDup (map (pkey m) S) -> shaped td X ->
  unique_keys X -> unique_keys (merge_rows m S X).
Proof.
  intros Hnd Hs Hu k. unfold at_most_one. apply Nat.leb_le.
  change (List.length (filter (isk k) (merge_rows m S X)) <= 1)%nat.
  rewrite (merge_by_key S X k Hnd Hs (Hu k)).
  destruct (find_key m k S) as [s|].
  - unfold left_by. destruct (is_delete (s_row s)); simpl; lia.
  - apply Nat.leb_le. exact (Hu k).
Qed.

Lemma unique_keys_nodup (X : list Row) :
  unique_keys X -> NoDup (map (key_of_target m) X).
Proof.
  induction X as [|a X IH]; intros Hu; [constructor|].
  simpl. constructor.
  - intros Hin. apply in_map_iff in Hin as [t [Hk Ht]].
    specialize (Hu (key_of_target m a)). unfold at_most_one in Hu.
    apply Nat.leb_le in Hu. simpl in Hu. fold m in Hu.
    rewrite list_eqb_refl in Hu. simpl in Hu.
    assert (Hin : In t (filter (fun t0 => list_eqb (key_of_target m t0)
                                                   (key_of_target m a)) X)).
    { apply filter_In. split; [assumption|]. now apply list_eqb_eq. }
    destruct (filter _ X); [destruct Hin|simpl in Hu; lia].
  - apply IH. intros k. specialize (Hu k). unfold at_most_one in *.
    apply Nat.leb_le in Hu. apply Nat.leb_le. simpl in Hu. fold m in Hu.
    destruct (list_eqb (key_of_target m a) k); simpl in Hu; fold m; lia.
Qed.

(** The statement always has a result on a table that keeps its tuples
    apart. *)
Lemma merge_result_exists (batch : list ChangeRow) (X : list Row) :
  exists X', merge_result m batch X X'.
Proof.
  set (S := first_rows m (map (select_row m) batch)).
  assert (Q : is_qualified m (map (select_row m) batch) S = true)
    by (apply first_rows_qualified; reflexivity).
  exists (merge_rows m S X). exists S. split; [assumption|]. split; [|reflexivity].
  apply not_ambiguous. now apply qualified_spec in Q as [_ [H _]].
Qed.

End AllKeys.
End ReplayFacts.

(* ================================================================== *)
(** * The merge statement: clause rules, deduplication, key-less tables *)
(* ================================================================== *)

Module MergeClaims.
Import Snowsql MergeSQL RowFacts PrintFacts MergeFacts OrderFacts.
Import QualifiedFacts ReplayFacts Samples.

(** The statement for [users(id, name)], as text. *)
Example GenMergeInto_users_text :
  GenMergeInto td_users "f.csv" "stage"
  = "MERGE INTO users AS T USING" ++ nl ++
    t2 ++ "(" ++ nl ++
    t3 ++ "SELECT" ++ nl ++
    t4 ++ "$1 AS " ++ dquote ++ "METADATA$FLAG" ++ dquote ++ "," ++ nl ++
    "$5 AS id," ++ nl ++
    "$6 AS name" ++ nl ++
    t3 ++ "FROM '@stage/f.csv'" ++ nl ++
    t3 ++ "QUALIFY row_number() over (partition by id order by $4 desc) = 1" ++ nl ++
    t2 ++ ") AS S" ++ nl ++
    t2 ++ "ON" ++ nl ++
    t2 ++ "(" ++ nl ++
    t3 ++ "T.id = S.id" ++ nl ++
    t2 ++ ")" ++ nl ++
    t2 ++ "WHEN MATCHED AND S.METADATA$FLAG != 'D' THEN UPDATE SET id = S.id, name = S.name" ++ nl ++
    t2 ++ "WHEN MATCHED AND S.METADATA$FLAG = 'D' THEN DELETE" ++ nl ++
    t2 ++ "WHEN NOT MATCHED AND S.METADATA$FLAG != 'D' THEN INSERT (id, name) VALUES (S.id, S.name);".
Proof. reflexivity. Qed.

(** Events on three tuples, merged in one batch and replayed one by one. *)
Example merge_batch_578 :
  merge_result (GenMergeInto_stmt td_users "f.csv" "stage") (rev batch_578)
               [row_7; row_5 "x"]
               [row_5 "b"; [("id", "8"); ("name", "n")]]
  /\ apply_in_order (GenMergeInto_stmt td_users "f.csv" "stage") batch_578
                    [row_7; row_5 "x"]
     = [row_5 "b"; [("id", "8"); ("name", "n")]].
Proof.
  split; [|reflexivity].
  exists (map (select_row (GenMergeInto_stmt td_users "f.csv" "stage"))
              [ev "D" "4" ["7"; "z"]; ev "U" "3" ["5"; "b"];
               ev "I" "2" ["8"; "n"]]).
  repeat split.
Qed.

(** Two lines of one tuple with the same ordering key: either can be the
    row numbered one, and the statement has two results. *)
Example equal_keys_two_results :
  let m := GenMergeInto_stmt td_users "f.csv" "stage" in
  let batch := [ev "U" "2" ["5"; "a"]; ev "U" "2" ["5"; "b"]] in
  merge_result m batch [] [row_5 "a"] /\ merge_result m batch [] [row_5 "b"].
Proof.
  split.
  - exists [select_row (GenMergeInto_stmt td_users "f.csv" "stage")
                       (ev "U" "2" ["5"; "a"])]. repeat split.
  - exists [select_row (GenMergeInto_stmt td_users "f.csv" "stage")
                       (ev "U" "2" ["5"; "b"])]. repeat split.
Qed.

(** A line delivered twice does not break commit order; two different
    lines of one tuple with the same ordering key do. *)
Example redelivered_line_in_commit_order :
  let m := GenMergeInto_stmt td_users "f.csv" "stage" in
  commit_ordered m [ev "U" "1" ["5"; "a"]; ev "U" "1" ["5"; "a"];
                    ev "I" "1" ["8"; "n"]; ev "U" "2" ["5"; "b"]] = true
  /\ commit_ordered m [ev "U" "2" ["5"; "a"]; ev "U" "2" ["5"; "b"]] = false.
Proof. split; reflexivity. Qed.

(** C1.  For a table with at least one primary-key column, the statement of
    [GenMergeInto] joins on equality of the primary-key columns and its
    [WHEN] clauses, read in their order, do what the four rules say.  For a
    file of one staged row the statement has one result, the table the four
    rules give: matched and not a delete, every non-key column of the target
    row is set from the source row (the key columns keep their values);
    matched and a delete, the target row is deleted; not matched and not a
    delete, a row with all columns is inserted; not matched and a delete,
    nothing changes. *)
Theorem GenMergeInto_clause_rules
        (td : TableDefinition) (f st : string)
        (Hpk : pkColumn td <> []) :
  forall (r : ChangeRow) (T : list Row),
    let m := GenMergeInto_stmt td f st in
    let s := s_row (select_row m r) in
    print m = GenMergeInto td f st
    /\ m_on m = map (fun c => (c, c)) (key_names td)
    /\ m_on m <> []
    /\ (forall T', merge_result m [r] T T' <-> T' = spec_merge_rules td s T)
    /\ (forall t, pk_equal td t s = true ->
          when_matched m t s
          = if is_delete s then [] else [update_nonkey td t s])
    /\ when_not_matched m s = (if is_delete s then [] else [row_of_all td s])
    /\ (forall t c, pk_equal td t s = true ->
          In c (nonkey_names td) -> In c (map fst t) ->
          get c (update_nonkey td t s) = get c s)
    /\ (forall t c, pk_equal td t s = true -> In c (key_names td) ->
          get c (update_nonkey td t s) = get c t).
Proof.
  intros r T m s.
  assert (Hon : m_on m = map (fun c => (c, c)) (key_names td)).
  { unfold m, key_names; simpl. now rewrite map_map. }
  split; [apply print_GenMergeInto_stmt|].
  split; [exact Hon|].
  split.
  { rewrite Hon. unfold key_names. fold (pkColumn td).
    destruct (pkColumn td); [congruence|discriminate]. }
  split.
  { intros T'. unfold s, m. rewrite <- merge_single_rules.
    now apply merge_result_single. }
  split.
  { intros t Hm. unfold m. rewrite when_matched_stmt.
    now rewrite (update_row_nonkey td t s Hm). }
  split; [apply when_not_matched_stmt|].
  split.
  - intros t c Hm Hc Hb. rewrite <- (update_row_nonkey td t s Hm).
    apply update_row_get; [|assumption].
    unfold nonkey_names in Hc. unfold all_names.
    apply in_map_iff in Hc as [x [<- Hx]]. apply in_map.
    apply filter_In in Hx. tauto.
  - intros t c Hm Hc. rewrite <- (update_row_nonkey td t s Hm).
    assert (Hts : get c t = get c s).
    { unfold pk_equal in Hm. rewrite forallb_forall in Hm.
      now apply String.eqb_eq, Hm. }
    rewrite Hts. unfold update_row. rewrite update_set_names.
    now apply fold_set_agree.
Qed.

Lemma GenMergeInto_clause_rules_witness :
  pkColumn td_users <> []
  /\ merge_result (GenMergeInto_stmt td_users "f.csv" "stage")
                  [ev "U" "2" ["5"; "b"]] [row_5 "a"; row_7]
                  [row_5 "b"; row_7].
Proof.
  assert (H : pkColumn td_users <> []) by discriminate.
  split; [exact H|].
  destruct (GenMergeInto_clause_rules td_users "f.csv" "stage" H
              (ev "U" "2" ["5"; "b"]) [row_5 "a"; row_7])
    as [_ [_ [_ [E _]]]].
  apply E. reflexivity.
Defined.

(** The sub-query on the batch [(U,1,pk=5,a), (U,2,pk=5,b), (D,3,pk=5)] has
    one result, the delete of ordering key 3. *)
Lemma batch_5_qualified (f st : string) (S : list SRow) :
  let m5 := GenMergeInto_stmt td_users f st in
  is_qualified m5 (map (select_row m5) batch_5) S = true
  <-> S = [select_row m5 (ev "D" "3" ["5"; "b"])].
Proof.
  intros m5. split.
  - intros Q. apply qualified_spec in Q as [_ [Hnd [Hone Hcov]]].
    assert (Hall : forall x, In x S ->
                     x = select_row m5 (ev "D" "3" ["5"; "b"])).
    { intros x Hx. destruct (Hone x Hx) as [Hin Hmax].
      assert (H3 : In (select_row m5 (ev "D" "3" ["5"; "b"]))
                      (map (select_row m5) batch_5))
        by (right; right; now left).
      destruct Hin as [<-|[<-|[<-|[]]]]; [| |reflexivity].
      - specialize (Hmax _ H3 eq_refl). discriminate Hmax.
      - specialize (Hmax _ H3 eq_refl). discriminate Hmax. }
    destruct (Hcov (select_row m5 (ev "D" "3" ["5"; "b"])))
      as [s0 [Hs0 _]]; [right; right; now left|].
    destruct S as [|a [|b S]]; [destruct Hs0| |].
    + now rewrite (Hall a (or_introl eq_refl)).
    + exfalso. inversion Hnd as [|? ? Hnotin _]; subst. apply Hnotin. left.
      rewrite (Hall a (or_introl eq_refl)).
      now rewrite (Hall b (or_intror (or_introl eq_refl))).
  - intros ->. reflexivity.
Qed.

(** C2.  In the statement of [GenMergeInto] for a table with a primary key,
    every result of the sub-query holds rows of the batch only, one per
    primary-key tuple, and no row of the batch with that tuple carries a
    greater ordering key than the row kept; and every result of the merge
    holds, of a tuple, what one event of the tuple with the greatest
    ordering key leaves (the rows of a tuple without event stay).  Whatever
    the order of the lines in the file, the statement has a result, and
    every result equals, up to the order of the rows, what replaying the
    events one by one in commit order gives: in commit order the events of
    one tuple carry strictly increasing ordering keys, a line delivered
    twice apart (events of different tuples may share an ordering key); the
    target table has distinctly named columns and no two rows of one tuple.
    The ordering key is compared as the text of the staged field.  For the
    batch [(U,1,pk=5,a), (U,2,pk=5,b), (D,3,pk=5)] only the delete of
    ordering key 3 is kept, and the merge removes the rows with pk=5 and
    changes no other row. *)
Theorem GenMergeInto_dedup_replay
        (td : TableDefinition) (f st : string)
        (Hpk : pkColumn td <> []) :
  let m := GenMergeInto_stmt td f st in
  print m = GenMergeInto td f st
  /\ (forall (batch : list ChangeRow) (S : list SRow),
        is_qualified m (map (select_row m) batch) S = true ->
        NoDup (map (fun s => partition_key m (s_row s)) S)
        /\ (forall s, In s S -> In s (map (select_row m) batch))
        /\ (forall x, In x (map (select_row m) batch) ->
              exists s, In s S
                /\ partition_key m (s_row s) = partition_key m (s_row x)
                /\ String.ltb (s_key s) (s_key x) = false))
  /\ (forall (batch : list ChangeRow) (T T' : list Row) (k : list string),
        NoDup (all_names td) ->
        Forall (fun t => well_shaped td t = true) T ->
        NoDup (map (key_of_target m) T) ->
        merge_result m batch T T' ->
        ((forall b, In b batch ->
                    partition_key m (s_row (select_row m b)) <> k)
         /\ filter (fun t => list_eqb (key_of_target m t) k) T'
            = filter (fun t => list_eqb (key_of_target m t) k) T)
        \/ (exists e,
              In e batch
              /\ partition_key m (s_row (select_row m e)) = k
              /\ (forall b, In b batch ->
                     partition_key m (s_row (select_row m b)) = k ->
                     String.ltb (cr_commit_ts e) (cr_commit_ts b) = false)
              /\ filter (fun t => list_eqb (key_of_target m t) k) T'
                 = (if is_delete (s_row (select_row m e)) then []
                    else [row_of_all td (s_row (select_row m e))])))
  /\ (forall (batch evs : list ChangeRow) (T : list Row),
        NoDup (all_names td) ->
        Forall (fun t => well_shaped td t = true) T ->
        NoDup (map (key_of_target m) T) ->
        Permutation batch evs ->
        commit_ordered m evs = true ->
        (exists T', merge_result m batch T T')
        /\ (forall T', merge_result m batch T T' ->
              exists R, replay m evs T R /\ Permutation T' R))
  /\ (let m5 := GenMergeInto_stmt td_users f st in
      (forall S, is_qualified m5 (map (select_row m5) batch_5) S = true
                 <-> S = [select_row m5 (ev "D" "3" ["5"; "b"])])
      /\ forall T5 T' : list Row,
          merge_result m5 batch_5 T5 T'
          <-> T' = filter (fun t => negb (String.eqb (get "id" t) "5")) T5).
Proof.
  intros m. split; [apply print_GenMergeInto_stmt|].
  split; [|split; [|split]].
  - intros batch S Q. apply qualified_spec in Q as [_ [Hnd [Hone Hcov]]].
    split; [exact Hnd|]. split.
    + intros s Hs. now apply Hone.
    + intros x Hx. destruct (Hcov x Hx) as [s [Hs Hk]].
      exists s. split; [assumption|]. split; [assumption|].
      destruct (Hone s Hs) as [_ Hmax].
      exact (Hmax x Hx (eq_sym Hk)).
  - intros batch T T' k Hnames Hshape Hkeys [S [Q [_ ->]]].
    exact (merge_net_by_key td f st Hnames batch S T k Hshape
             (nodup_unique_keys td f st T Hkeys k) Q).
  - intros batch evs T Hnames Hshape Hkeys Hperm Hord. split.
    + apply merge_result_exists.
    + intros T' [S [Q [_ ->]]].
      exists (apply_in_order m evs T). split.
      * now apply replay_apply.
      * now apply (merge_is_replay td f st Hnames batch evs).
  - intros m5. split; [apply batch_5_qualified|].
    intros T5 T'.
    assert (E : merge_one m5 (ev "D" "3" ["5"; "b"]) T5
                = filter (fun t => negb (String.eqb (get "id" t) "5")) T5).
    { unfold m5. rewrite merge_single_rules. unfold spec_merge_rules.
      set (s := s_row (select_row (GenMergeInto_stmt td_users f st)
                                  (ev "D" "3" ["5"; "b"]))).
      assert (Hd : is_delete s = true) by reflexivity.
      assert (Hp : forall t,
                 pk_equal td_users t s = String.eqb (get "id" t) "5").
      { intros t. unfold pk_equal. simpl. now rewrite andb_true_r. }
      rewrite Hd. simpl.
      destruct (existsb (fun t => pk_equal td_users t s) T5) eqn:Ex.
      + apply filter_ext. intros t. now rewrite Hp.
      + destruct (existsb_false_filter _ _ Ex) as [_ H2].
        rewrite <- H2 at 1. apply filter_ext. intros t. now rewrite Hp. }
    rewrite <- E. split.
    + intros [S [Q [_ ->]]]. apply batch_5_qualified in Q. now subst S.
    + intros ->. exists [select_row m5 (ev "D" "3" ["5"; "b"])].
      split; [now apply batch_5_qualified|].
      split; [apply ambiguous_single|reflexivity].
Qed.

Lemma GenMergeInto_dedup_replay_witness :
  pkColumn td_users <> []
  /\ exists R,
       replay (GenMergeInto_stmt td_users "f.csv" "stage") batch_578
              [row_7; row_5 "x"] R
       /\ Permutation [row_5 "b"; [("id", "8"); ("name", "n")]] R.
Proof.
  assert (H : pkColumn td_users <> []) by discriminate.
  split; [exact H|].
  refine (proj2 (proj1 (proj2 (proj2 (proj2
            (GenMergeInto_dedup_replay td_users "f.csv" "stage" H))))
            (rev batch_578) batch_578 [row_7; row_5 "x"] _ _ _ _ _) _ _).
  - simpl. repeat constructor; simpl; intuition discriminate.
  - repeat constructor.
  - simpl. repeat constructor; simpl; intuition discriminate.
  - exact (Permutation_sym (Permutation_rev batch_578)).
  - reflexivity.
  - exact (proj1 merge_batch_578).
Defined.

(** C3.  A table without primary-key column is not rejected: for the table
    [logs(line)] a merge statement comes back. *)
Lemma GenMergeInto_zero_key_not_rejected :
  pkColumn td_logs = []
  /\ HasPrefix (GenMergeInto td_logs "f.csv" "stage")
               "MERGE INTO logs AS T USING" = true
  /\ ~ (forall td f st, pkColumn td = [] ->
          HasPrefix (GenMergeInto td f st) "MERGE INTO " = false).
Proof.
  split; [reflexivity|]. split; [reflexivity|].
  intros H. specialize (H td_logs "f.csv" "stage" eq_refl).
  vm_compute in H. discriminate.
Qed.

(** C3, amended.  For a table without primary-key column [GenMergeInto]
    returns a merge statement all the same, the one whose partition-by list
    and join condition are empty: no key is invented from the other
    columns. *)
Theorem GenMergeInto_zero_key_statement
        (td : TableDefinition) (f st : string)
        (Hnone : pkColumn td = []) :
  GenMergeInto td f st
  = merge_template (Table td) (Join (selectStat td) ("," ++ nl)) st f
                   "" ""
                   (Join (updateStat td) ", ")
                   (Join (insertStat td) ", ")
                   (Join (valuesStat td) ", ")
  /\ HasPrefix (GenMergeInto td f st) "MERGE INTO " = true
  /\ m_partition_by (GenMergeInto_stmt td f st) = []
  /\ m_on (GenMergeInto_stmt td f st) = [].
Proof.
  assert (Hf : filter is_pk (Columns td) = []).
  { unfold pkColumn in Hnone. now apply map_eq_nil in Hnone. }
  repeat split.
  - unfold GenMergeInto, onStat. now rewrite Hnone, Hf.
  - unfold GenMergeInto, merge_template. apply HasPrefix_app.
  - exact Hnone.
  - simpl. now rewrite Hf.
Qed.

Lemma GenMergeInto_zero_key_statement_witness :
  pkColumn td_logs = []
  /\ m_on (GenMergeInto_stmt td_logs "f.csv" "stage") = [].
Proof.
  split; [reflexivity|].
  apply (GenMergeInto_zero_key_statement td_logs "f.csv" "stage" eq_refl).
Defined.

End MergeClaims.

(* ================================================================== *)
(** * The DDL translator                                               *)
(* ================================================================== *)

Module DDLClaims.
Import Redshiftsql.

Section Translator.
Variable ParseFloat_ok : string -> bool.
Variable GetRedshiftTypeString : TableCol -> result string.
Variable GetColumnDiff :
  list TableCol -> list TableCol -> result (list ColumnDiff).

Let loop := ddl_loop ParseFloat_ok GetRedshiftTypeString.
Let gen := GenDDLViaColumnsDiff ParseFloat_ok GetRedshiftTypeString GetColumnDiff.

Lemma item_ddl_unchanged (table : string) (item : ColumnDiff) :
  unchanged item = true ->
  item_ddl ParseFloat_ok GetRedshiftTypeString table item = Ok "".
Proof.
  unfold unchanged, item_ddl. destruct (Action item); try discriminate.
  reflexivity.
Qed.

(** The loop gives the same statements with the unchanged entries left
    out. *)
Lemma ddl_loop_skips_unchanged (table : string) (diff : list ColumnDiff) :
  forall acc,
    loop table diff acc
    = loop table (filter (fun i => negb (unchanged i)) diff) acc.
Proof.
  induction diff as [|item diff IH]; intros acc; [reflexivity|].
  simpl. destruct (unchanged item) eqn:U; simpl.
  - unfold loop at 1. simpl. rewrite (item_ddl_unchanged table item U).
    simpl. apply IH.
  - unfold loop. simpl.
    destruct (item_ddl ParseFloat_ok GetRedshiftTypeString table item)
      as [ddl|e|e]; try reflexivity.
    destruct (String.eqb ddl ""); apply IH.
Qed.

(** What comes back for a structural action. *)
Definition structural_result (td : TableDefinition) : result (list string) :=
  match Type_ td with
  | ActionTruncateTable => Ok ["TRUNCATE TABLE " ++ Table td]
  | ActionDropTable => Ok ["DROP TABLE " ++ Table td]
  | ActionDropSchema => Ok ["DROP SCHEMA " ++ Schema td ++ " CASCADE"]
  | ActionCreateTable =>
      Err "Received create table ddl, which should not happen"
  | ActionRenameTables =>
      Err ("Received rename table ddl, new change data can not be capture by TiCDC any more."
           ++ "If you want to rename table, please start a new task to capture the new table")
  | ActionCreateSchema =>
      Err "Received create schema ddl, which should not happen"
  | _ => Ok []
  end.

Definition emits_alter_table (r : result (list string)) : bool :=
  match r with
  | Ok stmts => existsb is_alter_table stmts
  | _ => false
  end.

Lemma structural_no_alter (prev : list TableCol) (td : TableDefinition) :
  structural (Type_ td) = true ->
  gen prev td = structural_result td
  /\ emits_alter_table (gen prev td) = false.
Proof.
  intros Hs. unfold gen, GenDDLViaColumnsDiff, structural_result.
  destruct (Type_ td); try discriminate; simpl; split; reflexivity.
Qed.

End Translator.

(** C9.  For a table definition with a structural action tag the translator
    returns the statement (or the error) of that action, whatever the
    previous and current columns and whatever the diff would be, and none
    of the statements is an ALTER TABLE; and an entry the diff classifies
    as unchanged adds no statement: the loop over the diff returns the
    same list with the entry taken out. *)
Theorem GenDDL_structural_and_unchanged
        (ParseFloat_ok : string -> bool)
        (GetRedshiftTypeString : TableCol -> result string)
        (GetColumnDiff : list TableCol -> list TableCol -> result (list ColumnDiff))
        (prev : list TableCol) (td : TableDefinition)
        (table : string) (before after : list ColumnDiff) (item : ColumnDiff)
        (acc : list string)
        (Hstruct : structural (Type_ td) = true)
        (Hunch : unchanged item = true) :
  GenDDLViaColumnsDiff ParseFloat_ok GetRedshiftTypeString GetColumnDiff prev td
  = structural_result td
  /\ emits_alter_table
       (GenDDLViaColumnsDiff ParseFloat_ok GetRedshiftTypeString GetColumnDiff
                             prev td) = false
  /\ item_ddl ParseFloat_ok GetRedshiftTypeString table item = Ok ""
  /\ ddl_loop ParseFloat_ok GetRedshiftTypeString table
              (app before (item :: after)) acc
     = ddl_loop ParseFloat_ok GetRedshiftTypeString table
                (app before after) acc
  /\ (forall diff cur,
        structural (Type_ cur) = false ->
        GetColumnDiff prev (Columns cur) = Ok diff ->
        GenDDLViaColumnsDiff ParseFloat_ok GetRedshiftTypeString GetColumnDiff
                             prev cur
        = ddl_loop ParseFloat_ok GetRedshiftTypeString (Table cur)
                   (filter (fun i => negb (unchanged i)) diff) []).
Proof.
  destruct (structural_no_alter ParseFloat_ok GetRedshiftTypeString
              GetColumnDiff prev td Hstruct) as [H1 H2].
  split; [exact H1|]. split; [exact H2|].
  split; [now apply item_ddl_unchanged|].
  split.
  - rewrite (ddl_loop_skips_unchanged _ _ table (app before (item :: after))).
    rewrite (ddl_loop_skips_unchanged _ _ table (app before after)).
    rewrite !filter_app. simpl. now rewrite Hunch.
  - intros diff cur Hns Hdiff. unfold GenDDLViaColumnsDiff.
    rewrite Hdiff.
    destruct (Type_ cur); try discriminate; simpl;
      apply ddl_loop_skips_unchanged.
Qed.

Lemma GenDDL_structural_and_unchanged_witness :
  GenDDLViaColumnsDiff DefaultSamples.digits_only DefaultSamples.sample_type
                       DDLSamples.sample_diff [] DDLSamples.td_truncate
  = Ok ["TRUNCATE TABLE t"]
  /\ ddl_loop DefaultSamples.digits_only DefaultSamples.sample_type "t"
              [DDLSamples.keep_name; DDLSamples.add_age] []
     = Ok ["ALTER TABLE t ADD COLUMN age INT DEFAULT NULL;"].
Proof.
  destruct (GenDDL_structural_and_unchanged
              DefaultSamples.digits_only DefaultSamples.sample_type
              DDLSamples.sample_diff [] DDLSamples.td_truncate
              "t" [] [DDLSamples.add_age] DDLSamples.keep_name []
              eq_refl eq_refl) as [H1 [_ [_ [H4 _]]]].
  split.
  - rewrite H1. reflexivity.
  - change ([DDLSamples.keep_name; DDLSamples.add_age])
      with (app [] (DDLSamples.keep_name :: [DDLSamples.add_age])).
    rewrite H4. reflexivity.
Defined.

End DDLClaims.

(* ================================================================== *)
(** * Default values in DDL                                            *)
(* ================================================================== *)

Module DefaultClaims.
Import Snowsql Redshiftsql DefaultSamples.

Lemma append_assoc (a b c : string) : (a ++ b) ++ c = a ++ b ++ c.
Proof. induction a as [|x a IH]; simpl; [reflexivity|now rewrite IH]. Qed.

(** The Redshift translator writes the value as [getDefaultString] gives
    it: bare when it parses as a number, in one pair of quotes otherwise. *)
Lemma redshift_default_one_level
      (pf : string -> bool) (gts : TableCol -> result string)
      (c : TableCol) (d ty : string) :
  gts c = Ok ty -> Default c = Some d -> Nullable c <> "false" ->
  GetRedshiftColumnString pf gts c
  = Ok (ty ++ " DEFAULT " ++ (if pf d then d else "'" ++ d ++ "'")).
Proof.
  intros Hty Hd Hn. unfold GetRedshiftColumnString, getDefaultString.
  rewrite Hty, Hd. apply String.eqb_neq in Hn. now rewrite Hn.
Qed.

(** C8.  [GenCreateSchema] wraps what [GetDefaultValueString] returns in a
    pair of quotes of its own: a numeric default comes out in one pair of
    quotes and any other default in two, where the Redshift translator
    writes none and one.  The table [users(id INT DEFAULT 0, name
    VARCHAR(10) DEFAULT abc)] shows both. *)
Theorem GenCreateSchema_default_quoted_again :
  (forall (pf : string -> bool) (c : TiDBColumnInfo) (d : string),
      default_clause pf (with_default c d)
      = if pf d then " DEFAULT '" ++ d ++ "'" else " DEFAULT ''" ++ d ++ "''")
  /\ GenCreateSchema digits_only "users" [ci_id; ci_name] ["id"]
     = Ok ("CREATE OR REPLACE TABLE users (" ++ nl ++
           "    id INT NOT NULL DEFAULT '0'," ++ nl ++
           "    name VARCHAR(10) DEFAULT ''abc''," ++ nl ++
           "    PRIMARY KEY (id)" ++ nl ++
           ")")
  /\ GetRedshiftColumnString digits_only sample_type tc_id
     = Ok "id INT NOT NULL DEFAULT 0"
  /\ GetRedshiftColumnString digits_only sample_type tc_name
     = Ok "name VARCHAR DEFAULT 'abc'".
Proof.
  split; [|repeat split; reflexivity].
  intros pf c d. unfold default_clause, GetDefaultValueString. simpl.
  destruct (pf d); [reflexivity|].
  simpl. now rewrite append_assoc.
Qed.

End DefaultClaims.

(* ================================================================== *)
(** * Calls and traces                                                 *)
(* ================================================================== *)

Lemma bind_run {E A B : Type} (c : Eff E A) (k : A -> Eff E B) (h : list E) :
  bind c k h = match c h with
               | (h', Ok a) => k a h'
               | (h', Err e) => (h', Err e)
               | (h', Panic e) => (h', Panic e)
               end.
Proof. reflexivity. Qed.

Module EffectFacts.

(** Every call [c] makes satisfies [P]. *)
Definition emits {E A : Type} (P : E -> Prop) (c : Eff E A) : Prop :=
  forall h, exists evs, fst (c h) = app h evs /\ Forall P evs.

Lemma emits_ret {E A : Type} (P : E -> Prop) (a : A) : emits P (ret a).
Proof. intros h. exists []. split; [now rewrite app_nil_r|constructor]. Qed.

Lemma emits_lift {E A : Type} (P : E -> Prop) (r : result A) :
  emits P (lift r).
Proof. intros h. exists []. split; [now rewrite app_nil_r|constructor]. Qed.

Lemma emits_call {E A : Type} (P : E -> Prop) (record : result A -> E)
      (oracle : list E -> result A) :
  (forall h, P (record (oracle h))) -> emits P (call record oracle).
Proof.
  intros H h. exists [record (oracle h)]. split; [reflexivity|].
  constructor; [apply H|constructor].
Qed.

Lemma emits_annotate {E A : Type} (P : E -> Prop) (msg : string)
      (c : Eff E A) :
  emits P c -> emits P (annotate msg c).
Proof.
  intros H h. destruct (H h) as [evs [H1 H2]]. exists evs. split; [|exact H2].
  unfold annotate. destruct (c h) as [h' [a|e|e]]; exact H1.
Qed.

Lemma emits_bind {E A B : Type} (P : E -> Prop) (c : Eff E A)
      (k : A -> Eff E B) :
  emits P c -> (forall a, emits P (k a)) -> emits P (bind c k).
Proof.
  intros Hc Hk h. destruct (Hc h) as [evs [H1 H2]].
  rewrite bind_run. destruct (c h) as [h' [a|e|e]]; simpl in H1; subst h'.
  - destruct (Hk a (app h evs)) as [evs' [H3 H4]].
    exists (app evs evs'). split; [now rewrite H3, app_assoc|].
    apply Forall_app. now split.
  - exists evs. now split.
  - exists evs. now split.
Qed.

Lemma Forall_existsb_false {E : Type} (p : E -> bool) (l : list E) :
  Forall (fun c => p c = false) l -> existsb p l = false.
Proof.
  induction 1 as [|c l Hc _ IH]; simpl; [reflexivity|]. now rewrite Hc, IH.
Qed.

Lemma Forall_forallb_true {E : Type} (p : E -> bool) (l : list E) :
  Forall (fun c => p c = true) l -> forallb p l = true.
Proof.
  induction 1 as [|c l Hc _ IH]; simpl; [reflexivity|]. now rewrite Hc, IH.
Qed.

End EffectFacts.

Ltac emits_step :=
  first
    [ apply EffectFacts.emits_ret
    | apply EffectFacts.emits_lift
    | apply EffectFacts.emits_annotate
    | apply EffectFacts.emits_bind; [|intros ?]
    | apply EffectFacts.emits_call; intros ?
    | match goal with
      | |- EffectFacts.emits _ (if ?b then _ else _) => destruct b eqn:?
      | |- EffectFacts.emits _ (match ?x with _ => _ end) => destruct x eqn:?
      end ].

(* ================================================================== *)
(** * Loading the snapshot                                             *)
(* ================================================================== *)

Module SnapshotClaims.
Import Snapshot SnapshotSamples.
Local Arguments String.append : simpl never.

Section Load.
Variable url_Parse : string -> result URL.
Variable gen : string -> string -> string -> string.
Variable w : World.

Definition ok_exec (table stage : string) (part : string) : Call :=
  Exec (gen table stage part) (Ok tt).

(** The loop issues the statements in order and stops at the first that
    does not succeed, returning its outcome. *)
Lemma load_loop_trace (table stage : string) (parts : list string) :
  forall h,
    let r := load_loop gen w table stage parts h in
    (snd r = Ok tt
     /\ fst r = app h (map (ok_exec table stage) parts))
    \/ (exists done part bad,
           bad <> Ok tt
           /\ snd r = bad
           /\ fst r = app h (app (map (ok_exec table stage) done)
                                 [Exec (gen table stage part) bad])).
Proof.
  induction parts as [|p parts IH]; intros h; simpl.
  - left. split; [reflexivity|]. now rewrite app_nil_r.
  - unfold bind, call. simpl.
    destruct (w_exec w h (gen table stage p)) as [[]|e|e] eqn:E.
    + destruct (IH (app h [Exec (gen table stage p) (Ok tt)]))
        as [[H1 H2]|[done [part [bad [Hb [H1 H2]]]]]].
      * left. split; [exact H1|]. rewrite H2, <- app_assoc. reflexivity.
      * right. exists (p :: done), part, bad.
        split; [exact Hb|]. split; [exact H1|].
        rewrite H2, <- app_assoc. reflexivity.
    + right. exists [], p, (Err e). repeat split. discriminate.
    + right. exists [], p, (Panic e). repeat split. discriminate.
Qed.

Lemma no_drop_in_execs (table stage : string) (parts : list string) :
  existsb is_drop_stage (map (ok_exec table stage) parts) = false.
Proof. induction parts; simpl; auto. Qed.

Lemma in_ok_execs (table stage : string) (parts : list string) (c : Call) :
  In c (map (ok_exec table stage) parts) ->
  exists part, c = Exec (gen table stage part) (Ok tt).
Proof.
  intros H. apply in_map_iff in H as [part [<- _]]. now exists part.
Qed.

Let load := loadSnapshotDataIntoSnowflake url_Parse gen w.

(** The three ways a load can go: it stops before any COPY; every COPY
    succeeds and the stage is dropped; or a COPY fails and the load ends
    there. *)
Lemma load_shapes (sess : ReplicateSession) :
  let tr := trace_of (load sess) in
  let res := outcome_of (load sess) in
  let table := SourceTable sess in
  let stage := "snapshot_stage_" ++ SourceTable sess in
  (existsb is_exec tr = false /\ existsb is_drop_stage tr = false
   /\ res <> Ok tt)
  \/ (exists c1 c2 parts r,
         is_exec c1 = false /\ is_drop_stage c1 = false
         /\ is_exec c2 = false /\ is_drop_stage c2 = false
         /\ tr = app [c1; c2] (app (map (ok_exec table stage) parts)
                                   [DropStage stage r])
         /\ res = r)
  \/ (exists c1 c2 done part bad,
         is_exec c1 = false /\ is_drop_stage c1 = false
         /\ is_exec c2 = false /\ is_drop_stage c2 = false
         /\ bad <> Ok tt
         /\ tr = app [c1; c2] (app (map (ok_exec table stage) done)
                                   [Exec (gen table stage part) bad])
         /\ res = bad).
Proof.
  intros tr res table stage. subst tr res.
  unfold trace_of, outcome_of.
  destruct (load sess []) as [tr res] eqn:E. cbn [fst snd].
  unfold load, loadSnapshotDataIntoSnowflake in E.
  fold stage in E. fold table in E.
  rewrite bind_run in E. unfold annotate, call in E.
  cbn beta zeta in E. cbn [app] in E.
  destruct (w_create_stage w [] stage (StorageWorkspacePath sess)) as [[]|e|e];
    try (injection E as <- <-; left; cbn; repeat split;
         solve [reflexivity|discriminate]).
  rewrite bind_run in E. unfold lift at 1 in E.
  destruct (url_Parse (StorageWorkspacePath sess)) as [u|e|e];
    try (injection E as <- <-; left; cbn; repeat split;
         solve [reflexivity|discriminate]).
  rewrite bind_run in E. cbn beta zeta in E. cbn [app] in E.
  destruct (w_list w _ (Host u) (TrimPrefix (Path u) "/"))
    as [contents|e|e] eqn:EL;
    try (injection E as <- <-; left; cbn; repeat split;
         solve [reflexivity|discriminate]).
  destruct (List.length contents =? 0)%nat;
    [injection E as <- <-; left; cbn; repeat split;
     solve [reflexivity|discriminate]|].
  rewrite bind_run in E.
  match type of E with
  | context [load_loop gen w ?t ?s ?ps ?h] =>
      destruct (load_loop_trace t s ps h)
        as [[H1 H2]|[done [part [bad [Hb [H1 H2]]]]]];
      destruct (load_loop gen w t s ps h) as [h' r'] eqn:EQ
  end; cbn [fst snd] in H1, H2; subst h' r'.
  - right. left. rewrite bind_run in E. cbn beta zeta in E.
    match type of E with
    | context [map (ok_exec table stage) ?ps] =>
        eexists _, _, ps, _
    end.
    destruct (w_drop_stage w _ stage) as [[]|e|e] eqn:ED; cbn in E;
      injection E as <- <-;
      repeat split; reflexivity.
  - right. right.
    eexists _, _, done, part, bad.
    destruct bad as [[]|e|e]; cbn in E;
      try (exfalso; now apply Hb);
      injection E as <- <-;
      repeat split; try reflexivity; try discriminate.
Qed.

End Load.

(** C10.  When a COPY of a part fails, the load returns that error, the
    failed statement is the last call it made, and no DROP STAGE was
    issued; and whenever a DROP STAGE was issued, every COPY before it
    succeeded. *)
Theorem load_failure_leaves_stage
        (url_Parse : string -> result URL)
        (gen : string -> string -> string -> string)
        (w : World) (sess : ReplicateSession) (sql e : string)
        (Hfail : In (Exec sql (Err e))
                    (trace_of (loadSnapshotDataIntoSnowflake url_Parse gen w sess))) :
  let tr := trace_of (loadSnapshotDataIntoSnowflake url_Parse gen w sess) in
  let res := outcome_of (loadSnapshotDataIntoSnowflake url_Parse gen w sess) in
  res = Err e
  /\ (exists before, tr = app before [Exec sql (Err e)])
  /\ existsb is_drop_stage tr = false
  /\ (forall stage r, In (DropStage stage r) tr -> False)
  /\ (forall (w' : World) (sess' : ReplicateSession) stage r sql' r',
        let tr' := trace_of (loadSnapshotDataIntoSnowflake url_Parse gen w' sess') in
        In (DropStage stage r) tr' -> In (Exec sql' r') tr' -> r' = Ok tt).
Proof.
  intros tr res.
  assert (Hin : forall c l, existsb is_drop_stage l = false ->
                            In c l -> is_drop_stage c = false).
  { intros c l Hl Hc. now apply (existsb_false_all _ _ Hl). }
  assert (Hnodrop : res = Err e
                    /\ (exists before, tr = app before [Exec sql (Err e)])
                    /\ existsb is_drop_stage tr = false).
  { destruct (load_shapes url_Parse gen w sess)
      as [[Hx _]|[[c1 [c2 [parts [r [X1 [_ [X2 [_ [Htr _]]]]]]]]]
                 |[c1 [c2 [done [part [bad [X1 [D1 [X2 [D2 [Hb [Htr Hres]]]]]]]]]]]]].
    - exfalso. pose proof (existsb_false_all _ _ Hx _ Hfail) as F.
      discriminate F.
    - exfalso. fold tr in Htr. unfold tr in Hfail. fold tr in Hfail.
      rewrite Htr in Hfail. cbn [app] in Hfail.
      destruct Hfail as [Hc|[Hc|Hfail]];
        [subst; discriminate|subst; discriminate|].
      apply in_app_or in Hfail as [Hfail|[Hfail|[]]]; [|discriminate].
      apply in_ok_execs in Hfail as [p Hp]. discriminate.
    - fold tr in Htr. fold res in Hres. unfold tr in Hfail. fold tr in Hfail.
      rewrite Htr in Hfail. cbn [app] in Hfail.
      destruct Hfail as [Hc|[Hc|Hfail]];
        [subst; discriminate|subst; discriminate|].
      apply in_app_or in Hfail as [Hfail|[Hfail|[]]].
      + apply in_ok_execs in Hfail as [p Hp]. discriminate.
      + injection Hfail as Hsql Hbad. subst sql bad.
        split; [exact Hres|]. split.
        * exists (app [c1; c2] (map (ok_exec gen (SourceTable sess)
                                    ("snapshot_stage_" ++ SourceTable sess)) done)).
          rewrite Htr. now rewrite <- app_assoc.
        * rewrite Htr. cbn [app existsb]. rewrite D1, D2. cbn [orb].
          rewrite existsb_app, no_drop_in_execs. reflexivity. }
  destruct Hnodrop as [H1 [H2 H3]].
  repeat split; try assumption.
  - intros stage r Hd. pose proof (Hin _ _ H3 Hd) as F. discriminate F.
  - intros w' sess' stage r sql' r' tr' Hd Hx.
    destruct (load_shapes url_Parse gen w' sess')
      as [[_ [Hx' _]]|[[c1 [c2 [parts [r0 [X1 [_ [X2 [_ [Htr _]]]]]]]]]
                 |[c1 [c2 [done [part [bad [X1 [D1 [X2 [D2 [Hb [Htr Hres]]]]]]]]]]]]].
    + exfalso. pose proof (Hin _ _ Hx' Hd) as F. discriminate F.
    + fold tr' in Htr. rewrite Htr in Hx. cbn [app] in Hx.
      destruct Hx as [Hc|[Hc|Hx]];
        [subst; discriminate|subst; discriminate|].
      apply in_app_or in Hx as [Hx|[Hx|[]]]; [|discriminate].
      apply in_ok_execs in Hx as [p Hp]. now injection Hp.
    + exfalso. fold tr' in Htr. rewrite Htr in Hd. cbn [app] in Hd.
      destruct Hd as [Hc|[Hc|Hd]];
        [subst; discriminate|subst; discriminate|].
      apply in_app_or in Hd as [Hd|[Hd|[]]]; [|discriminate].
      apply in_ok_execs in Hd as [p Hp]. discriminate.
Qed.

Lemma load_failure_leaves_stage_witness :
  In (Exec "COPY INTO users FROM @snapshot_stage_users/snapshot/test.users.1.csv"
           (Err "copy failed"))
     (trace_of (loadSnapshotDataIntoSnowflake sample_parse sample_copy
                  world_second_fails sess_users))
  /\ outcome_of (loadSnapshotDataIntoSnowflake sample_parse sample_copy
                   world_second_fails sess_users) = Err "copy failed"
  /\ existsb is_drop_stage
       (trace_of (loadSnapshotDataIntoSnowflake sample_parse sample_copy
                    world_second_fails sess_users)) = false.
Proof.
  assert (Hin : In (Exec "COPY INTO users FROM @snapshot_stage_users/snapshot/test.users.1.csv"
                         (Err "copy failed"))
                   (trace_of (loadSnapshotDataIntoSnowflake sample_parse
                                sample_copy world_second_fails sess_users))).
  { vm_compute. right. right. right. left. reflexivity. }
  split; [exact Hin|].
  destruct (load_failure_leaves_stage sample_parse sample_copy
              world_second_fails sess_users _ _ Hin) as [H1 [_ [H3 _]]].
  split; assumption.
Defined.

(** C4.  A workspace whose listing is not empty but holds no part-file of
    the table (here the dump's metadata and schema files): the load makes
    no COPY, drops the stage and returns without error.  The "No snapshot
    files found" error is raised for an empty listing only. *)
Theorem load_without_parts_succeeds :
  matching_parts sess_users "/ws"
                 ["ws/snapshot/metadata"; "ws/snapshot/test.users-schema.sql"]
  = []
  /\ loadSnapshotDataIntoSnowflake sample_parse sample_copy
                                   world_no_parts sess_users []
     = ([CreateExternalStage "snapshot_stage_users" "s3://bucket/ws" (Ok tt);
         ListObjectsV2 "bucket" "ws"
           (Ok ["ws/snapshot/metadata"; "ws/snapshot/test.users-schema.sql"]);
         DropStage "snapshot_stage_users" (Ok tt)],
        Ok tt)
  /\ (forall (w : World) (sess : ReplicateSession),
        w_create_stage w [] ("snapshot_stage_" ++ SourceTable sess)
                       (StorageWorkspacePath sess) = Ok tt ->
        sample_parse (StorageWorkspacePath sess)
        = Ok {| Scheme := "s3"; Host := "bucket"; Path := "/ws"; Query := [] |} ->
        w_list w [CreateExternalStage ("snapshot_stage_" ++ SourceTable sess)
                                      (StorageWorkspacePath sess) (Ok tt)]
               "bucket" "ws" = Ok [] ->
        outcome_of (loadSnapshotDataIntoSnowflake sample_parse sample_copy w sess)
        = Err "No snapshot files found").
Proof.
  split; [reflexivity|]. split; [reflexivity|].
  intros w sess Hc Hp Hl.
  unfold outcome_of, loadSnapshotDataIntoSnowflake.
  rewrite bind_run. unfold annotate, call. cbn beta zeta. cbn [app].
  rewrite Hc. rewrite bind_run. unfold lift at 1. rewrite Hp.
  rewrite bind_run. cbn beta zeta. cbn [app Host Path].
  change (TrimPrefix "/ws" "/") with "ws". rewrite Hl. reflexivity.
Qed.

End SnapshotClaims.

(* ================================================================== *)
(** * The progress poller of [LoadSnapshotFromStage]                   *)
(* ================================================================== *)

Module PollerClaims.
Import Poller.

Definition nil_callback : Input :=
  {| callback_nil := true; timestamp_ok := true |}.

(** With a nil callback the poller is never at its [select]. *)
Definition nil_inv (s : State) : Prop :=
  match main s, worker s with
  | MStart, PNone
  | MExec, PInit | MExec, PExit
  | MSend, PInit | MSend, PExit => True
  | _, _ => False
  end.

Lemma nil_callback_invariant (s : State) :
  reachable nil_callback s -> nil_inv s.
Proof.
  induction 1 as [|s s' Hr IH Hstep]; [exact I|].
  unfold nil_inv in *. unfold steps, main_steps, worker_steps in Hstep.
  destruct s as [m wk l]. simpl in *.
  destruct m, wk; try contradiction; simpl in Hstep;
    repeat (destruct Hstep as [<-|Hstep]; [exact I|]); contradiction.
Qed.

Definition deadlock : State :=
  {| main := MSend; worker := PExit; log := [EvCopyReturned] |}.

Lemma deadlock_reachable : reachable nil_callback deadlock.
Proof.
  apply reach_step with (s := {| main := MSend; worker := PInit;
                                 log := [EvCopyReturned] |}).
  - apply reach_step with (s := {| main := MExec; worker := PInit; log := [] |}).
    + apply reach_step with (s := init); [constructor|]. simpl. now left.
    + simpl. now left.
  - simpl. now left.
Qed.

(** C5.  With a nil progress callback, once the server timestamp is read
    the load never returns: the poller goroutine leaves at once, so
    nothing receives from [copyFinished] and the caller stays blocked at
    its send after the COPY has returned.  That state is reachable, nothing
    can run in it, and it is the only state the run can end in. *)
Theorem nil_callback_load_never_returns :
  (forall s, reachable nil_callback s -> main s <> MDone)
  /\ reachable nil_callback deadlock
  /\ stuck nil_callback deadlock
  /\ (forall s, reachable nil_callback s -> stuck nil_callback s ->
        main s = MSend /\ worker s = PExit).
Proof.
  split; [|split; [|split]].
  - intros s Hr Hd. apply nil_callback_invariant in Hr.
    unfold nil_inv in Hr. rewrite Hd in Hr. exact Hr.
  - exact deadlock_reachable.
  - reflexivity.
  - intros s Hr Hs. apply nil_callback_invariant in Hr.
    unfold nil_inv in Hr. unfold stuck, steps, main_steps, worker_steps in Hs.
    destruct s as [m wk l]. simpl in *.
    destruct m, wk; try contradiction; simpl in Hs; try discriminate.
    now split.
Qed.

(** With a callback, the picture the specification draws holds: the load
    returns only after the poller has left, the poller was stopped exactly
    once, and nothing runs after the return. *)
Lemma count_stop_app (a b : list Event) :
  count_stop (app a b) = count_stop a + count_stop b.
Proof.
  induction a as [|e a IH]; simpl; [reflexivity|].
  destruct e; simpl; now rewrite IH.
Qed.

Definition callback_inv (s : State) : Prop :=
  match main s with
  | MStart => worker s = PNone /\ count_stop (log s) = 0
  | MExec | MSend =>
      (worker s = PInit \/ worker s = PSelect \/ worker s = PPoll)
      /\ count_stop (log s) = 0
  | MWait | MDone => worker s = PExit /\ count_stop (log s) = 1
  end.

Lemma callback_invariant (s : State) :
  reachable {| callback_nil := false; timestamp_ok := true |} s ->
  callback_inv s.
Proof.
  induction 1 as [|s s' Hr IH Hstep]; [now split|].
  unfold callback_inv in *. unfold steps, main_steps, worker_steps in Hstep.
  destruct s as [m wk l]. simpl in *.
  destruct m, wk; simpl in Hstep;
    repeat (destruct Hstep as [<-|Hstep];
            [simpl; rewrite ?count_stop_app; simpl;
             intuition (try discriminate; try lia)|]);
    try contradiction.
Qed.

Lemma callback_load_returns_after_stop (s : State) :
  reachable {| callback_nil := false; timestamp_ok := true |} s ->
  main s = MDone ->
  worker s = PExit /\ count_stop (log s) = 1
  /\ stuck {| callback_nil := false; timestamp_ok := true |} s.
Proof.
  intros Hr Hd. pose proof (callback_invariant s Hr) as Hi.
  unfold callback_inv in Hi. rewrite Hd in Hi. destruct Hi as [Hw Hc].
  repeat split; try assumption.
  unfold stuck, steps, main_steps, worker_steps. now rewrite Hd, Hw.
Qed.

End PollerClaims.

(* ================================================================== *)
(** * The phases of a replication job                                  *)
(* ================================================================== *)

Module OrchestratorClaims.
Import Orchestrator OrchSamples EffectFacts.
Local Arguments String.append : simpl never.
Local Arguments utoa : simpl never.
Local Arguments itoa : simpl never.
Local Arguments Snowsql.ztoa : simpl never.


Definition no_capture (c : Call) : Prop := registers_capture c = false.

(** After a TSO [ts] was resolved: no other TSO is resolved, a capture job
    starts at [ts] and a snapshot is taken at [ts]. *)
Definition anchored (ts : N) (c : Call) : Prop :=
  match c with
  | GetCurrentTSO _ => False
  | HttpPost _ cfg _ => StartTs cfg = ts
  | StartReplicateSnapshot _ _ _ tso _ => tso = utoa ts
  | _ => True
  end.

(** With the snapshot loaded: no TSO is resolved, no snapshot is taken, and
    a capture job is given the start timestamp 0. *)
Definition unanchored (c : Call) : Prop :=
  match c with
  | GetCurrentTSO _ => False
  | StartReplicateSnapshot _ _ _ _ _ => False
  | HttpPost _ cfg _ => StartTs cfg = 0%N
  | _ => True
  end.

Section Run.
Variable url_Parse : string -> result URL.
Variable url_JoinPath : string -> string -> result string.
Variable URL_String : URL -> string.
Variable Duration_String : Z -> string.
Variable w : World.

Let run := run url_Parse url_JoinPath URL_String Duration_String w.



End Run.



Lemma in_prefix_or_rest {E : Type} (P : E -> Prop) (x : E) (pre evs : list E) :
  In x (app pre evs) -> Forall P evs -> (In x pre \/ P x).
Proof.
  intros H HF. apply in_app_or in H as [H|H]; [now left|right].
  rewrite Forall_forall in HF. now apply HF.
Qed.

Ltac no_post H :=
  cbn in H; repeat (destruct H as [H|H]; [discriminate H|]); contradiction.

(** Where a registered capture job starts, given the trace of the run: at
    the TSO resolved as the fourth call of the run, after the probes found
    no [snapshot/loadinfo] marker, with every later snapshot taken at that
    TSO; or at 0, in a run that found the marker and resolves no TSO. *)
Definition capture_start (sp : string) (tr : list Call)
           (cfg : ChangefeedConfig) : Prop :=
  (exists me ts rest,
      tr = app [GetExternalStorageFromURI sp (Ok tt);
                FileExists "increment/metadata" (Ok me);
                FileExists "snapshot/loadinfo" (Ok false);
                GetCurrentTSO (Ok ts)] rest
      /\ StartTs cfg = ts
      /\ Forall (anchored ts) rest)
  \/ (exists rest,
         tr = app [GetExternalStorageFromURI sp (Ok tt);
                   FileExists "increment/metadata" (Ok false);
                   FileExists "snapshot/loadinfo" (Ok true)] rest
         /\ StartTs cfg = 0%N
         /\ Forall unanchored rest).

(** In a run that finds no [snapshot/loadinfo] marker, the
    [increment/metadata] marker does not hold back the registration: the
    test is [!loadinfoExist || !metadataExist]. *)
Example run_registers_again_without_loadinfo :
  existsb registers_capture
    (trace_of (sample_run (world_with ["increment/metadata"]) flags_full))
  = true.
Proof. reflexivity. Qed.

(** C7, amended.  Whenever a run registers a capture job: if the
    [snapshot/loadinfo] marker is absent, the job starts at the TSO the run
    resolved right after probing the markers, before any snapshot work, and
    a snapshot taken later in the run is taken at that same TSO; if the
    marker is present, the run resolves no TSO and takes no snapshot, and the
    job is registered with start timestamp 0 (the [increment/metadata]
    marker is then absent). *)
Theorem capture_anchor
        (url_Parse : string -> result URL)
        (url_JoinPath : string -> string -> result string)
        (URL_String : URL -> string) (Duration_String : Z -> string)
        (w : World) (fl : Flags)
        (u : string) (cfg : ChangefeedConfig) (r : result HttpResponse)
        (Hreg : In (HttpPost u cfg r)
                   (trace_of (run url_Parse url_JoinPath URL_String
                                  Duration_String w fl))) :
  capture_start (storagePath fl)
                (trace_of (run url_Parse url_JoinPath URL_String
                               Duration_String w fl))
                cfg.
Proof.
  unfold capture_start, trace_of in *.
  set (R := run url_Parse url_JoinPath URL_String Duration_String w fl []) in *.
  assert (ER : R = run url_Parse url_JoinPath URL_String Duration_String w fl [])
    by reflexivity.
  clearbody R. unfold run in ER.
  rewrite bind_run in ER. unfold call at 1 in ER.
  cbn beta zeta in ER. cbn [app] in ER.
  destruct (w_storage w [] (storagePath fl)) as [[]|e|e];
    try (exfalso; subst R; no_post Hreg).
  rewrite bind_run in ER. unfold call at 1 in ER.
  cbn beta zeta in ER. cbn [app] in ER.
  destruct (w_file_exists w _ "increment/metadata") as [me|e|e];
    try (exfalso; subst R; no_post Hreg).
  rewrite bind_run in ER. unfold call at 1 in ER.
  cbn beta zeta in ER. cbn [app] in ER.
  destruct (w_file_exists w _ "snapshot/loadinfo") as [li|e|e];
    try (exfalso; subst R; no_post Hreg).
  destruct li.
  - (* the snapshot is loaded *)
    rewrite bind_run in ER. unfold ret at 1 in ER. cbn [negb] in ER.
    destruct me.
    + exfalso.
      match type of ER with
      | R = ?k ?h => assert (Hk : emits no_capture k)
      end.
      { destruct (mode fl) eqn:Em;
          destruct (String.eqb (sindURIStr fl) "") eqn:Es; cbn.
        all: unfold genSinkURI.
        all: repeat emits_step.
        all: reflexivity. }
      match type of ER with
      | R = _ ?h => destruct (Hk h) as [evs [H1 H2]]
      end.
      rewrite <- ER in H1. rewrite H1 in Hreg.
      destruct (in_prefix_or_rest _ _ _ _ Hreg H2) as [H|H];
        [no_post H|discriminate H].
    + right.
      match type of ER with
      | R = ?k ?h => assert (Hk : emits unanchored k)
      end.
      { destruct (mode fl) eqn:Em;
          destruct (String.eqb (sindURIStr fl) "") eqn:Es; cbn.
        all: unfold genSinkURI, createChangefeed.
        all: repeat emits_step.
        all: try exact I.
        all: reflexivity. }
      match type of ER with
      | R = _ ?h => destruct (Hk h) as [evs [H1 H2]]
      end.
      rewrite <- ER in H1. rewrite H1 in *.
      exists evs. split; [reflexivity|]. split; [|exact H2].
      destruct (in_prefix_or_rest _ _ _ _ Hreg H2) as [H|H];
        [no_post H|exact H].
  - (* no snapshot yet: a TSO is resolved first *)
    left. cbn [negb] in ER.
    rewrite bind_run in ER. unfold annotate at 1 in ER. unfold call at 1 in ER.
    cbn beta zeta in ER. cbn [app] in ER.
    destruct (w_current_tso w _) as [ts|e|e];
      try (exfalso; subst R; no_post Hreg).
    match type of ER with
    | R = ?k ?h => assert (Hk : emits (anchored ts) k)
    end.
    { destruct (mode fl) eqn:Em;
        destruct (String.eqb (sindURIStr fl) "") eqn:Es; cbn.
      all: unfold genSinkURI, createChangefeed.
      all: repeat emits_step.
      all: try exact I.
      all: try reflexivity.
      all: cbn; destruct (N.eqb_spec ts 0); cbn; congruence. }
    match type of ER with
    | R = _ ?h => destruct (Hk h) as [evs [H1 H2]]
    end.
    rewrite <- ER in H1. rewrite H1 in *.
    exists me, ts, evs. split; [reflexivity|]. split; [|exact H2].
    destruct (in_prefix_or_rest _ _ _ _ Hreg H2) as [H|H];
      [no_post H|exact H].
Qed.

Definition post_442 : Call :=
  HttpPost "http://127.0.0.1:8300/api/v2/changefeeds"
           {| SinkURI := "s3://bucket/ws/increment";
              FilterRules := ["test.users"]; StartTs := 442 |}
           (Ok {| StatusCode := 200; Body := Ok tt |}).

Definition post_0 : Call :=
  HttpPost "http://127.0.0.1:8300/api/v2/changefeeds"
           {| SinkURI := "s3://bucket/ws/increment";
              FilterRules := ["test.users"]; StartTs := 0 |}
           (Ok {| StatusCode := 200; Body := Ok tt |}).

Lemma capture_anchor_witness :
  In post_442 (trace_of (sample_run (world_with []) flags_full))
  /\ capture_start "s3://bucket/ws"
                   (trace_of (sample_run (world_with []) flags_full))
                   {| SinkURI := "s3://bucket/ws/increment";
                      FilterRules := ["test.users"]; StartTs := 442 |}.
Proof.
  assert (Hin : In post_442 (trace_of (sample_run (world_with []) flags_full))).
  { vm_compute. do 5 right. left. reflexivity. }
  split; [exact Hin|].
  exact (capture_anchor sample_url sample_join sample_string sample_duration
                        (world_with []) flags_full _ _ _ Hin).
Defined.

(** C7.  A run that finds the [snapshot/loadinfo] marker but no
    [increment/metadata] marker registers a capture job without having
    resolved any TSO: the job's start timestamp is 0, not a consistency
    point obtained in the run. *)
Lemma capture_registered_without_tso :
  In post_0 (trace_of (sample_run (world_with ["snapshot/loadinfo"]) flags_full))
  /\ existsb resolves_tso
       (trace_of (sample_run (world_with ["snapshot/loadinfo"]) flags_full))
     = false
  /\ ~ (forall u cfg r,
          In (HttpPost u cfg r)
             (trace_of (sample_run (world_with ["snapshot/loadinfo"]) flags_full)) ->
          exists ts,
            In (GetCurrentTSO (Ok ts))
               (trace_of (sample_run (world_with ["snapshot/loadinfo"]) flags_full))
            /\ StartTs cfg = ts).
Proof.
  assert (Hin : In post_0 (trace_of (sample_run (world_with ["snapshot/loadinfo"])
                                               flags_full))).
  { vm_compute. do 4 right. left. reflexivity. }
  split; [exact Hin|]. split; [reflexivity|].
  intros H. destruct (H _ _ _ Hin) as [ts [Hts _]].
  vm_compute in Hts.
  repeat (destruct Hts as [Hts|Hts]; [discriminate Hts|]). contradiction.
Qed.

End OrchestratorClaims.

(* ================================================================== *)
(** * The merge statement: net effect, well-formedness, re-runs          *)
(* ================================================================== *)

Module MergeExtras.
Import Snowsql MergeSQL RowFacts PrintFacts MergeFacts OrderFacts.
Import QualifiedFacts ReplayFacts Samples.

(** X1.  In the statement of [GenMergeInto] for a table with a primary key,
    what a merge leaves of one primary-key tuple is decided by the staged
    row of that tuple with the greatest ordering key alone: nothing when it
    is a delete, the single row of its column values otherwise; and the rows
    of a tuple no staged row carries are left as they were.  This holds of
    every result of the statement, and there is one. *)
Theorem merge_net_effect
        (td : TableDefinition) (f st : string)
        (batch : list ChangeRow) (T : list Row) (e : ChangeRow)
        (Hpk : pkColumn td <> [])
        (Hnames : NoDup (all_names td))
        (Hshape : Forall (fun t => well_shaped td t = true) T)
        (Hkeys : NoDup (map (key_of_target (GenMergeInto_stmt td f st)) T))
        (He : In e batch)
        (Hlatest : forall b, In b batch ->
                     partition_key (GenMergeInto_stmt td f st)
                       (s_row (select_row (GenMergeInto_stmt td f st) b))
                     = partition_key (GenMergeInto_stmt td f st)
                         (s_row (select_row (GenMergeInto_stmt td f st) e)) ->
                     b = e
                     \/ String.ltb (cr_commit_ts b) (cr_commit_ts e) = true) :
  let m := GenMergeInto_stmt td f st in
  let s := s_row (select_row m e) in
  print m = GenMergeInto td f st
  /\ (exists T', merge_result m batch T T')
  /\ forall T', merge_result m batch T T' ->
       filter (fun t => list_eqb (key_of_target m t) (partition_key m s)) T'
       = (if is_delete s then [] else [row_of_all td s])
       /\ (forall k,
             (forall b, In b batch ->
                        partition_key m (s_row (select_row m b)) <> k) ->
             filter (fun t => list_eqb (key_of_target m t) k) T'
             = filter (fun t => list_eqb (key_of_target m t) k) T).
Proof.
  intros m s. subst m.
  split; [apply print_GenMergeInto_stmt|].
  split; [apply merge_result_exists|].
  intros T' [S [Q [_ ->]]].
  pose proof (nodup_unique_keys td f st T Hkeys) as Hu.
  pose proof Q as Q'. apply qualified_spec in Q' as [_ [Hnd _]].
  split.
  - change (filter (is_k td f st (ekey td f st e))
                   (merge_rows (GenMergeInto_stmt td f st) S T)
            = left_by td s).
    etransitivity;
      [exact (merge_by_key td f st Hnames S T (ekey td f st e) Hnd Hshape (Hu _))|].
    rewrite (qualified_latest td f st batch S e Q He); [reflexivity|].
    intros b Hb Hk. destruct (Hlatest b Hb Hk) as [->|Hlt];
      [now left|now right].
  - intros k Hno.
    change (filter (is_k td f st k)
                   (merge_rows (GenMergeInto_stmt td f st) S T)
            = filter (is_k td f st k) T).
    etransitivity;
      [exact (merge_by_key td f st Hnames S T k Hnd Hshape (Hu _))|].
    now rewrite (qualified_absent td f st batch S k Q Hno).
Qed.

Lemma merge_net_effect_witness :
  filter (fun t => list_eqb (key_of_target (GenMergeInto_stmt td_users "f.csv" "stage") t)
                            ["5"])
         [row_5 "b"; [("id", "8"); ("name", "n")]]
  = [row_5 "b"].
Proof.
  refine (proj1 (proj2 (proj2 (merge_net_effect td_users "f.csv" "stage"
                   (rev batch_578) [row_7; row_5 "x"] (ev "U" "3" ["5"; "b"])
                   _ _ _ _ _ _)) _ (proj1 MergeClaims.merge_batch_578))).
  - discriminate.
  - simpl. repeat constructor; simpl; intuition discriminate.
  - repeat constructor.
  - simpl. repeat constructor; simpl; intuition discriminate.
  - simpl. tauto.
  - intros b Hb Hk. simpl in Hb.
    repeat (destruct Hb as [<-|Hb];
            [first [now left|right; reflexivity|discriminate Hk]|]).
    destruct Hb.
Defined.

(** X2.  In the statement of [GenMergeInto] for a table with a primary key,
    a merge keeps the target table well formed: if its rows have exactly the
    table's columns and no two of them share a primary-key tuple, the same
    holds of every result of the merge of any batch, and there is a
    result. *)
Theorem merge_keeps_table_well_formed
        (td : TableDefinition) (f st : string)
        (batch : list ChangeRow) (T : list Row)
        (Hpk : pkColumn td <> [])
        (Hnames : NoDup (all_names td))
        (Hshape : Forall (fun t => well_shaped td t = true) T)
        (Hkeys : NoDup (map (key_of_target (GenMergeInto_stmt td f st)) T)) :
  let m := GenMergeInto_stmt td f st in
  print m = GenMergeInto td f st
  /\ (exists T', merge_result m batch T T')
  /\ forall T', merge_result m batch T T' ->
       Forall (fun t => well_shaped td t = true) T'
       /\ NoDup (map (key_of_target m) T').
Proof.
  intros m. subst m.
  split; [apply print_GenMergeInto_stmt|].
  split; [apply merge_result_exists|].
  intros T' [S [Q [_ ->]]].
  apply qualified_spec in Q as [_ [Hnd _]].
  split.
  - now apply merge_rows_shaped.
  - apply unique_keys_nodup. apply merge_rows_unique; try assumption.
    now apply nodup_unique_keys.
Qed.

Lemma merge_keeps_table_well_formed_witness :
  NoDup (map (key_of_target (GenMergeInto_stmt td_users "f.csv" "stage"))
             [row_5 "b"; [("id", "8"); ("name", "n")]]).
Proof.
  refine (proj2 (proj2 (proj2 (merge_keeps_table_well_formed td_users
                   "f.csv" "stage" (rev batch_578) [row_7; row_5 "x"]
                   _ _ _ _)) _ (proj1 MergeClaims.merge_batch_578))).
  - discriminate.
  - simpl. repeat constructor; simpl; intuition discriminate.
  - repeat constructor.
  - simpl. repeat constructor; simpl; intuition discriminate.
Defined.

(** X3.  In the statement of [GenMergeInto] for a table with a primary key,
    running the merge of a batch a second time changes nothing, when no two
    different lines of one tuple carry the same ordering key: whatever the
    results of the first and of the second run, the table after two runs
    holds the same rows as after one; and both runs have a result. *)
Theorem merge_twice_is_merge_once
        (td : TableDefinition) (f st : string)
        (batch : list ChangeRow) (T : list Row)
        (Hpk : pkColumn td <> [])
        (Hnames : NoDup (all_names td))
        (Hshape : Forall (fun t => well_shaped td t = true) T)
        (Hkeys : NoDup (map (key_of_target (GenMergeInto_stmt td f st)) T))
        (Hdist : distinct_keys (GenMergeInto_stmt td f st) batch = true) :
  let m := GenMergeInto_stmt td f st in
  print m = GenMergeInto td f st
  /\ (exists T1 T2, merge_result m batch T T1 /\ merge_result m batch T1 T2)
  /\ forall T1 T2,
       merge_result m batch T T1 -> merge_result m batch T1 T2 ->
       Permutation T2 T1.
Proof.
  intros m. subst m.
  split; [apply print_GenMergeInto_stmt|].
  split.
  { destruct (merge_result_exists td f st batch T) as [T1 H1].
    destruct (merge_result_exists td f st batch T1) as [T2 H2].
    exists T1, T2. now split. }
  intros T1 T2 [S1 [Q1 [_ ->]]] [S2 [Q2 [_ ->]]].
  apply (perm_by_key td f st). intros k.
  pose proof (nodup_unique_keys td f st T Hkeys) as Hu.
  pose proof Q1 as Q1'. apply qualified_spec in Q1' as [_ [Hnd1 _]].
  pose proof Q2 as Q2'. apply qualified_spec in Q2' as [_ [Hnd2 _]].
  assert (Hs1 : shaped td (merge_rows (GenMergeInto_stmt td f st) S1 T))
    by now apply merge_rows_shaped.
  assert (Hu1 : unique_keys td f st (merge_rows (GenMergeInto_stmt td f st) S1 T))
    by now apply merge_rows_unique.
  rewrite (merge_by_key td f st Hnames S2 _ k Hnd2 Hs1 (Hu1 k)).
  rewrite (merge_by_key td f st Hnames S1 T k Hnd1 Hshape (Hu k)).
  rewrite (qualified_unique td f st batch S2 S1 k Hdist Q2 Q1).
  now destruct (find_key (GenMergeInto_stmt td f st) k S1).
Qed.

Lemma merge_twice_is_merge_once_witness :
  Permutation [row_5 "b"; [("id", "8"); ("name", "n")]]
              [row_5 "b"; [("id", "8"); ("name", "n")]].
Proof.
  refine (proj2 (proj2 (merge_twice_is_merge_once td_users "f.csv" "stage"
                   (rev batch_578) [row_7; row_5 "x"] _ _ _ _ _))
                _ _ (proj1 MergeClaims.merge_batch_578) _).
  - discriminate.
  - simpl. repeat constructor; simpl; intuition discriminate.
  - repeat constructor.
  - simpl. repeat constructor; simpl; intuition discriminate.
  - reflexivity.
  - exists (map (select_row (GenMergeInto_stmt td_users "f.csv" "stage"))
                [ev "U" "3" ["5"; "b"]; ev "I" "2" ["8"; "n"];
                 ev "D" "4" ["7"; "z"]]).
    repeat split.
Defined.

(** X4.  In the statement of [GenMergeInto] for a table with a primary key,
    the order of the lines in a staged file does not matter when no two
    different lines of one tuple carry the same ordering key: two files
    holding the same lines give the same table, whatever the results of the
    two runs. *)
Theorem merge_ignores_file_order
        (td : TableDefinition) (f st : string)
        (batch1 batch2 : list ChangeRow) (T : list Row)
        (Hpk : pkColumn td <> [])
        (Hnames : NoDup (all_names td))
        (Hshape : Forall (fun t => well_shaped td t = true) T)
        (Hkeys : NoDup (map (key_of_target (GenMergeInto_stmt td f st)) T))
        (Hdist : distinct_keys (GenMergeInto_stmt td f st) batch1 = true)
        (Hperm : Permutation batch1 batch2) :
  let m := GenMergeInto_stmt td f st in
  print m = GenMergeInto td f st
  /\ (exists T1 T2, merge_result m batch1 T T1 /\ merge_result m batch2 T T2)
  /\ forall T1 T2,
       merge_result m batch1 T T1 -> merge_result m batch2 T T2 ->
       Permutation T1 T2.
Proof.
  intros m. subst m.
  split; [apply print_GenMergeInto_stmt|].
  split.
  { destruct (merge_result_exists td f st batch1 T) as [T1 H1].
    destruct (merge_result_exists td f st batch2 T) as [T2 H2].
    exists T1, T2. now split. }
  intros T1 T2 [S1 [Q1 [_ ->]]] [S2 [Q2 [_ ->]]].
  assert (Q2' : is_qualified (GenMergeInto_stmt td f st)
                  (map (select_row (GenMergeInto_stmt td f st)) batch1) S2
                = true).
  { apply (qualified_same_rows _
             (map (select_row (GenMergeInto_stmt td f st)) batch2));
      [|exact Q2].
    intros r. split; intros Hr; apply in_map_iff in Hr as [b [<- Hb]];
      apply in_map.
    - now apply (Permutation_in _ (Permutation_sym Hperm)).
    - now apply (Permutation_in _ Hperm). }
  apply (perm_by_key td f st). intros k.
  pose proof (nodup_unique_keys td f st T Hkeys) as Hu.
  pose proof Q1 as Q1'. apply qualified_spec in Q1' as [_ [Hnd1 _]].
  pose proof Q2 as Q2''. apply qualified_spec in Q2'' as [_ [Hnd2 _]].
  rewrite (merge_by_key td f st Hnames S1 T k Hnd1 Hshape (Hu k)).
  rewrite (merge_by_key td f st Hnames S2 T k Hnd2 Hshape (Hu k)).
  now rewrite (qualified_unique td f st batch1 S1 S2 k Hdist Q1 Q2').
Qed.

Lemma merge_ignores_file_order_witness :
  Permutation [row_5 "b"; [("id", "8"); ("name", "n")]]
              [row_5 "b"; [("id", "8"); ("name", "n")]].
Proof.
  refine (proj2 (proj2 (merge_ignores_file_order td_users "f.csv" "stage"
                   (rev batch_578) batch_578 [row_7; row_5 "x"]
                   _ _ _ _ _ _))
                _ _ (proj1 MergeClaims.merge_batch_578) _).
  - discriminate.
  - simpl. repeat constructor; simpl; intuition discriminate.
  - repeat constructor.
  - simpl. repeat constructor; simpl; intuition discriminate.
  - reflexivity.
  - exact (Permutation_sym (Permutation_rev batch_578)).
  - exists (map (select_row (GenMergeInto_stmt td_users "f.csv" "stage"))
                [ev "U" "3" ["5"; "b"]; ev "I" "2" ["8"; "n"];
                 ev "D" "4" ["7"; "z"]]).
    repeat split.
Defined.

End MergeExtras.

(* ================================================================== *)
(** * Further properties of the schema and the Redshift translation    *)
(* ================================================================== *)

Module SchemaExtras.
Import Snowsql DefaultSamples SchemaMore.

Lemma column_type_unsupported (c : TiDBColumnInfo) :
  supported (DataType c) = false -> column_type c = Ok "".
Proof.
  unfold supported, column_type. intros H.
  do 7 (apply orb_false_iff in H; destruct H as [H ?]).
  repeat match goal with E : _ = false |- _ => rewrite E; clear E end.
  reflexivity.
Qed.

Lemma column_type_never_err (c : TiDBColumnInfo) (e : string) :
  column_type c <> Err e.
Proof.
  unfold column_type. cbv zeta.
  repeat match goal with
         | |- context [if ?b then _ else _] => destruct b
         end;
    try discriminate;
    repeat match goal with
           | |- context [match ?x with Some _ => _ | None => _ end] =>
               destruct x
           end; discriminate.
Qed.

Lemma column_row_never_err (pf : string -> bool) (c : TiDBColumnInfo) (e : string) :
  column_row pf c <> Err e.
Proof.
  unfold column_row. pose proof (column_type_never_err c) as H.
  destruct (column_type c) as [q|e'|e']; try discriminate.
  now destruct (H e').
Qed.

Lemma column_row_panic (pf : string -> bool) (c : TiDBColumnInfo) (msg : string) :
  column_row pf c = Panic msg -> column_type c = Panic msg.
Proof.
  unfold column_row. destruct (column_type c); try discriminate.
  intros H. exact H.
Qed.

Lemma column_type_out_value (c : TiDBColumnInfo) :
  snd (column_type_out c) = column_type c.
Proof.
  unfold column_type_out, column_type. cbv zeta.
  repeat match goal with
         | |- context [if ?b then _ else _] => destruct b
         end; reflexivity.
Qed.

Lemma column_type_out_quiet (c : TiDBColumnInfo) :
  supported (DataType c) = true -> fst (column_type_out c) = [].
Proof.
  unfold supported, column_type_out. cbv zeta. intros H.
  repeat match goal with
         | |- context [if ?b then _ else _] => destruct b eqn:?
         end; try reflexivity.
  discriminate H.
Qed.

Lemma column_type_out_unsupported (c : TiDBColumnInfo) :
  supported (DataType c) = false ->
  column_type_out c
  = (["Unsupported data type: " ++ " " ++ DataType c ++ nl], Ok "").
Proof.
  unfold supported, column_type_out. cbv zeta. intros H.
  do 7 (apply orb_false_iff in H; destruct H as [H ?]).
  repeat match goal with E : _ = false |- _ => rewrite E; clear E end.
  reflexivity.
Qed.

Lemma column_row_out_value (pf : string -> bool) (c : TiDBColumnInfo) :
  snd (column_row_out pf c) = column_row pf c.
Proof.
  unfold column_row_out, column_row.
  rewrite <- (column_type_out_value c).
  now destruct (column_type_out c) as [out [q|e|e]].
Qed.

Lemma column_row_out_lines (pf : string -> bool) (c : TiDBColumnInfo) :
  fst (column_row_out pf c) = fst (column_type_out c).
Proof. unfold column_row_out. now destruct (column_type_out c). Qed.

Lemma column_rows_out_value (pf : string -> bool) (columns : list TiDBColumnInfo) :
  snd (column_rows_out pf columns) = column_rows pf columns.
Proof.
  induction columns as [|c columns IH]; [reflexivity|].
  cbn [column_rows_out column_rows].
  rewrite <- (column_row_out_value pf c), <- IH.
  destruct (column_row_out pf c) as [out [r|e|e]]; cbn [snd]; try reflexivity.
  now destruct (column_rows_out pf columns) as [out' [rs|e|e]].
Qed.

(** The lines printed by a loop that ends without panic: one for every
    column of a type without case, in the order of the columns. *)
Lemma column_rows_out_lines (pf : string -> bool) (columns : list TiDBColumnInfo) :
  forall rows, column_rows pf columns = Ok rows ->
  fst (column_rows_out pf columns)
  = map (fun c => "Unsupported data type: " ++ " " ++ DataType c ++ nl)
        (filter (fun c => negb (supported (DataType c))) columns).
Proof.
  induction columns as [|c columns IH]; intros rows Hrows; [reflexivity|].
  cbn [column_rows] in Hrows. cbn [column_rows_out filter].
  pose proof (column_row_out_value pf c) as Hv.
  pose proof (column_row_out_lines pf c) as Hl.
  pose proof (column_rows_out_value pf columns) as Hvs.
  destruct (column_row_out pf c) as [out r]. cbn [fst snd] in Hv, Hl.
  rewrite <- Hv in Hrows. destruct r as [row|e|e]; try discriminate.
  destruct (column_rows_out pf columns) as [out' rs]. cbn [fst snd] in Hvs, IH.
  rewrite <- Hvs in Hrows. destruct rs as [rs|e|e]; try discriminate.
  cbn [fst]. rewrite (IH rs) by (now rewrite <- Hvs). rewrite Hl.
  destruct (supported (DataType c)) eqn:Es; cbn [negb].
  - now rewrite (column_type_out_quiet c Es).
  - now rewrite (column_type_out_unsupported c Es).
Qed.

(** X5.  On the column rows it scanned, the loop of [GenCreateSchema]
    either panics, on a sized type whose length or precision pointer is nil,
    or writes exactly one row per column.  A column of a type the switch has
    no case for is reported with one line on standard output and is not left
    out of the statement: its row is written without name and type, holding
    only the NOT NULL and DEFAULT parts.  A loop that ends without panic
    has printed one such line per column without case, in column order, and
    nothing for the other columns. *)
Theorem GenCreateSchema_row_per_column
        (pf : string -> bool) (columns : list TiDBColumnInfo) :
  snd (column_rows_out pf columns) = column_rows pf columns
  /\ match column_rows pf columns with
     | Ok rows =>
         List.length rows = List.length columns
         /\ fst (column_rows_out pf columns)
            = map (fun c => "Unsupported data type: " ++ " " ++ DataType c ++ nl)
                  (filter (fun c => negb (supported (DataType c))) columns)
     | Err _ => False
     | Panic msg => exists c, In c columns /\ column_type c = Panic msg
     end
  /\ (forall c, supported (DataType c) = false ->
        column_row_out pf c
        = (["Unsupported data type: " ++ " " ++ DataType c ++ nl],
           Ok ((if String.eqb (IsNullable c) "false" then " NOT NULL" else "")
                 ++ default_clause pf c)))
  /\ (forall c, supported (DataType c) = true ->
        fst (column_row_out pf c) = []).
Proof.
  split; [apply column_rows_out_value|].
  assert (H1 : match column_rows pf columns with
               | Ok rows => List.length rows = List.length columns
               | Err _ => False
               | Panic msg => exists c, In c columns /\ column_type c = Panic msg
               end).
  { induction columns as [|c columns IH]; simpl; [reflexivity|].
    destruct (column_row pf c) as [r|e|e] eqn:E.
    - destruct (column_rows pf columns) as [rs|e|e].
      + simpl. now rewrite IH.
      + exact IH.
      + destruct IH as [c' [Hin Hc']]. exists c'. split; [now right|exact Hc'].
    - now apply column_row_never_err in E.
    - exists c. split; [now left|]. now apply column_row_panic with (pf := pf). }
  split; [|split].
  - pose proof (column_rows_out_lines pf columns) as Hl.
    destruct (column_rows pf columns) as [rows|e|e]; try exact H1.
    split; [exact H1|]. now apply (Hl rows).
  - intros c Hc. unfold column_row_out.
    rewrite (column_type_out_unsupported c Hc).
    now destruct (String.eqb (IsNullable c) "false").
  - intros c Hc. rewrite column_row_out_lines.
    now apply column_type_out_quiet.
Qed.

(** X6.  The nullability tests of [GenCreateSchema] compare with the words
    [true] and [false]: for a column whose IS_NULLABLE is YES or NO the row
    is the type followed by the default value, if any; it carries neither
    NOT NULL nor DEFAULT NULL. *)
Theorem GenCreateSchema_yes_no_unconstrained
        (pf : string -> bool) (c : TiDBColumnInfo) (ty : string)
        (Hty : column_type c = Ok ty)
        (Hyn : IsNullable c = "YES" \/ IsNullable c = "NO") :
  column_row pf c
  = Ok (ty ++ match ColumnDefault c with
              | Some d => " DEFAULT '" ++ GetDefaultValueString pf d ++ "'"
              | None => ""
              end).
Proof.
  unfold column_row, default_clause. rewrite Hty.
  destruct Hyn as [-> | ->]; simpl; reflexivity.
Qed.

Lemma GenCreateSchema_yes_no_unconstrained_witness :
  column_row digits_only ci_no = Ok ("id BIGINT" ++ "").
Proof.
  exact (GenCreateSchema_yes_no_unconstrained digits_only ci_no "id BIGINT"
           eq_refl (or_intror eq_refl)).
Defined.

End SchemaExtras.

Module RedshiftExtras.
Import Redshiftsql RedshiftMore DefaultSamples DDLSamples RedshiftSamples.

Lemma str_app_assoc (a b c : string) : (a ++ b) ++ c = a ++ b ++ c.
Proof.
  induction a as [|x a IH]; simpl; [reflexivity|now rewrite IH].
Qed.

Lemma str_app_nil_r (a : string) : a ++ "" = a.
Proof.
  induction a as [|x a IH]; simpl; [reflexivity|now rewrite IH].
Qed.

(** X7.  [GetColumnModifyString] never writes a new default value: when the
    type, precision and scale of a column are unchanged and its new default
    is not nil, the text is empty or the one nullability change, whatever
    the old default was; the change is DROP NOT NULL when the new
    nullability is [true] and SET NOT NULL for any other value. *)
Theorem modify_drops_new_default
        (gts : TableCol -> result string)
        (differs : option string -> option string -> bool)
        (b a : TableCol) (d : string)
        (Htp : Tp b = Tp a) (Hpr : Precision b = Precision a)
        (Hsc : Scale b = Scale a)
        (Hd : Default a = Some d) :
  GetColumnModifyString gts differs
    {| Action := MODIFY_COLUMN; Before := Some b; After := Some a |}
  = Ok (if String.eqb (Nullable b) (Nullable a) then ""
        else if String.eqb (Nullable a) "true"
             then "COLUMN " ++ Name a ++ " DROP NOT NULL"
             else "COLUMN " ++ Name a ++ " SET NOT NULL").
Proof.
  unfold GetColumnModifyString. cbn [Before After].
  rewrite Htp, Hpr, Hsc, !String.eqb_refl, Hd. cbn [negb orb].
  destruct (differs (Default b) (Some d));
    destruct (String.eqb (Nullable b) (Nullable a)); cbn [negb];
    try reflexivity;
    destruct (String.eqb (Nullable a) "true"); reflexivity.
Qed.

Lemma modify_drops_new_default_witness :
  GetColumnModifyString sample_type (fun _ _ => true)
    {| Action := MODIFY_COLUMN; Before := Some tc_name;
       After := Some tc_name_required |}
  = Ok "COLUMN name SET NOT NULL".
Proof.
  exact (modify_drops_new_default sample_type (fun _ _ => true)
           tc_name tc_name_required "n/a" eq_refl eq_refl eq_refl eq_refl).
Defined.

Section Translator.
Variable pf : string -> bool.
Variable gts : TableCol -> result string.

Definition changed (item : ColumnDiff) : bool := negb (unchanged item).

Lemma alter_table_stmt (rest : string) :
  is_alter_table (("ALTER TABLE " ++ rest) ++ ";") = true.
Proof.
  exact (HasPrefix_app "ALTER TABLE " (rest ++ ";")).
Qed.

Lemma item_ddl_changed (table : string) (item : ColumnDiff) (ddl : string) :
  item_ddl pf gts table item = Ok ddl ->
  (unchanged item = true /\ ddl = "")
  \/ (unchanged item = false /\ Action item <> MODIFY_COLUMN
      /\ is_alter_table (ddl ++ ";") = true /\ String.eqb ddl "" = false).
Proof.
  unfold item_ddl, unchanged.
  destruct (Action item).
  - destruct (After item); [|discriminate].
    destruct (GetRedshiftColumnString pf gts t); try discriminate.
    intros H. injection H as <-. right.
    repeat split; try discriminate; try reflexivity. apply alter_table_stmt.
  - destruct (Before item); [|discriminate].
    intros H. injection H as <-. right.
    repeat split; try discriminate; try reflexivity. apply alter_table_stmt.
  - discriminate.
  - destruct (Before item), (After item); try discriminate.
    intros H. injection H as <-. right.
    repeat split; try discriminate; try reflexivity. apply alter_table_stmt.
  - intros H. injection H as <-. now left.
Qed.

Lemma ddl_loop_counts (table : string) (diff : list ColumnDiff) :
  forall acc ddls,
    ddl_loop pf gts table diff acc = Ok ddls ->
    exists new,
      ddls = app acc new
      /\ List.length new = List.length (filter changed diff)
      /\ Forall (fun s => is_alter_table s = true) new
      /\ Forall (fun i => Action i <> MODIFY_COLUMN) diff.
Proof.
  induction diff as [|item diff IH]; intros acc ddls H.
  - simpl in H. injection H as <-. exists []. rewrite app_nil_r.
    repeat split; constructor.
  - cbn [ddl_loop] in H.
    destruct (item_ddl pf gts table item) as [ddl|e|e] eqn:E; try discriminate.
    cbn [filter]. unfold changed at 1.
    destruct (item_ddl_changed table item ddl E)
      as [[Hu Hd]|[Hu [Hm [Hal Hne]]]].
    + subst ddl. cbn in H. destruct (IH acc ddls H) as [new [H1 [H2 [H3 H4]]]].
      exists new. rewrite Hu. cbn [negb]. repeat split; try assumption.
      constructor; [|assumption].
      unfold unchanged in Hu. destruct (Action item); discriminate.
    + rewrite Hne in H.
      destruct (IH _ ddls H) as [new [H1 [H2 [H3 H4]]]].
      exists ((ddl ++ ";") :: new). rewrite Hu. cbn [negb length].
      repeat split.
      * rewrite H1, <- app_assoc. reflexivity.
      * now rewrite H2.
      * now constructor.
      * now constructor.
Qed.

End Translator.

(** X8.  A translation that succeeds on a column-level change holds exactly
    one statement for every entry of the diff that is not unchanged, each an
    ALTER TABLE, and the diff then holds no MODIFY entry: with a MODIFY
    entry, or a column whose type cannot be rendered, no statement at all is
    returned. *)
Theorem GenDDL_one_statement_per_change
        (pf : string -> bool) (gts : TableCol -> result string)
        (gcd : list TableCol -> list TableCol -> result (list ColumnDiff))
        (prev : list TableCol) (td : TableDefinition)
        (diff : list ColumnDiff) (ddls : list string)
        (Hns : structural (Type_ td) = false)
        (Hdiff : gcd prev (Columns td) = Ok diff)
        (Hok : GenDDLViaColumnsDiff pf gts gcd prev td = Ok ddls) :
  List.length ddls = List.length (filter (fun i => negb (unchanged i)) diff)
  /\ Forall (fun s => is_alter_table s = true) ddls
  /\ Forall (fun i => Action i <> MODIFY_COLUMN) diff.
Proof.
  unfold GenDDLViaColumnsDiff in Hok. rewrite Hdiff in Hok.
  assert (Hloop : ddl_loop pf gts (Table td) diff [] = Ok ddls).
  { destruct (Type_ td); try discriminate Hns; exact Hok. }
  destruct (ddl_loop_counts pf gts (Table td) diff [] ddls Hloop)
    as [new [H1 [H2 [H3 H4]]]].
  simpl in H1. subst new. repeat split; assumption.
Qed.

Lemma GenDDL_one_statement_per_change_witness :
  GenDDLViaColumnsDiff digits_only sample_type sample_diff [tc_id; tc_name]
                       td_users_v2
  = Ok ["ALTER TABLE t ADD COLUMN age INT DEFAULT NULL;"]
  /\ List.length ["ALTER TABLE t ADD COLUMN age INT DEFAULT NULL;"]
     = List.length (filter (fun i => negb (unchanged i)) [keep_name; add_age]).
Proof.
  split; [reflexivity|].
  exact (proj1 (GenDDL_one_statement_per_change digits_only sample_type
                  sample_diff [tc_id; tc_name] td_users_v2
                  [keep_name; add_age]
                  ["ALTER TABLE t ADD COLUMN age INT DEFAULT NULL;"]
                  eq_refl eq_refl eq_refl)).
Defined.

(** X9.  A column read back by [GetRedshiftTableColumn] has nullability
    [true] exactly when IS_NULLABLE is YES and [false] for every other
    value, takes its precision from the numeric precision before the
    datetime precision before the character length, and carries no
    primary-key flag; rendered by [GetRedshiftColumnString] it is NOT NULL
    unless IS_NULLABLE is YES. *)
Theorem read_back_column_nullability
        (pf : string -> bool) (gts : TableCol -> result string)
        (r : ColumnRow) (ty : string)
        (Hty : gts (table_col_of r) = Ok ty) :
  let c := table_col_of r in
  (Nullable c = "true" \/ Nullable c = "false")
  /\ IsPK c = ""
  /\ (forall p, NumPrecision r = Some p -> Precision c = Snowsql.ztoa p)
  /\ (forall p, NumPrecision r = None -> DateTimePrec r = Some p ->
                Precision c = Snowsql.ztoa p)
  /\ GetRedshiftColumnString pf gts c
     = Ok (ty ++ (if String.eqb (IsNullable r) "YES" then "" else " NOT NULL")
              ++ match ColumnDefault r with
                 | Some d => " DEFAULT " ++ getDefaultString pf d
                 | None => if String.eqb (IsNullable r) "YES"
                           then " DEFAULT NULL" else ""
                 end).
Proof.
  intros c. subst c. split; [|split; [|split; [|split]]].
  - unfold table_col_of; simpl. destruct (String.eqb (IsNullable r) "YES"); tauto.
  - reflexivity.
  - intros p Hp. unfold table_col_of; simpl. now rewrite Hp.
  - intros p Hn Hp. unfold table_col_of; simpl. now rewrite Hn, Hp.
  - unfold GetRedshiftColumnString. rewrite Hty.
    unfold table_col_of; simpl.
    destruct (String.eqb (IsNullable r) "YES"); simpl;
      destruct (ColumnDefault r); simpl;
      rewrite ?str_app_assoc, ?str_app_nil_r; reflexivity.
Qed.

Lemma read_back_column_nullability_witness :
  GetRedshiftColumnString digits_only sample_type (table_col_of cr_id)
  = Ok ("id INTEGER" ++ " NOT NULL" ++ "").
Proof.
  exact (proj2 (proj2 (proj2 (proj2
           (read_back_column_nullability digits_only sample_type cr_id
              "id INTEGER" eq_refl))))).
Defined.

End RedshiftExtras.

(* ================================================================== *)
(** * Further properties of the snapshot load                       *)
(* ================================================================== *)

Module SnapshotExtras.
Import Snapshot SnapshotSamples SnapshotMoreSamples.
Local Arguments String.append : simpl never.

Section Load.
Variable url_Parse : string -> result URL.
Variable gen : string -> string -> string -> string.
Variable w : World.

Let load := loadSnapshotDataIntoSnowflake url_Parse gen w.

Lemma dump_prefix_assoc (a b : string) :
  (a ++ "/snapshot/") ++ b = a ++ "/snapshot/" ++ b.
Proof.
  induction a as [|x a IH]; [reflexivity|].
  change ((String x a ++ "/snapshot/") ++ b)
    with (String x ((a ++ "/snapshot/") ++ b)).
  rewrite IH. reflexivity.
Qed.

(** The run of the load, call by call. *)
Lemma load_run (sess : ReplicateSession) :
  load sess []
  = let stage := "snapshot_stage_" ++ SourceTable sess in
    let path := StorageWorkspacePath sess in
    match w_create_stage w [] stage path with
    | Err e => ([CreateExternalStage stage path (Err e)],
                Err ("Failed to create stage" ++ ": " ++ e))
    | Panic e => ([CreateExternalStage stage path (Panic e)], Panic e)
    | Ok _ =>
        let h1 := [CreateExternalStage stage path (Ok tt)] in
        match url_Parse path with
        | Err e => (h1, Err e)
        | Panic e => (h1, Panic e)
        | Ok u =>
            let wp := TrimPrefix (Path u) "/" in
            match w_list w h1 (Host u) wp with
            | Err e => (app h1 [ListObjectsV2 (Host u) wp (Err e)], Err e)
            | Panic e => (app h1 [ListObjectsV2 (Host u) wp (Panic e)], Panic e)
            | Ok contents =>
                let h2 := app h1 [ListObjectsV2 (Host u) wp (Ok contents)] in
                if (List.length contents =? 0)%nat
                then (h2, Err "No snapshot files found")
                else
                  match load_loop gen w (SourceTable sess) stage
                          (map (fun key => TrimPrefix key wp)
                               (matching_parts sess (Path u) contents)) h2 with
                  | (h3, Ok _) =>
                      (app h3 [DropStage stage (w_drop_stage w h3 stage)],
                       w_drop_stage w h3 stage)
                  | other => other
                  end
            end
        end
    end.
Proof.
  unfold load, loadSnapshotDataIntoSnowflake, matching_parts.
  cbv zeta. rewrite bind_run. unfold annotate at 1. unfold call at 1.
  cbv zeta.
  destruct (w_create_stage w [] _ (StorageWorkspacePath sess)) as [[]|e|e];
    cbn [app]; try reflexivity.
  rewrite bind_run. unfold lift at 1.
  destruct (url_Parse (StorageWorkspacePath sess)) as [u|e|e]; try reflexivity.
  rewrite bind_run. unfold call at 1. cbv zeta.
  destruct (w_list w _ (Host u) (TrimPrefix (Path u) "/"))
    as [contents|e|e]; cbn [app]; try reflexivity.
  destruct (List.length contents =? 0)%nat; [reflexivity|].
  rewrite bind_run. rewrite dump_prefix_assoc.
  destruct (load_loop gen w _ _ _ _) as [h3 [[]|e|e]]; try reflexivity.
  rewrite bind_run. unfold call at 1. cbv zeta.
  destruct (w_drop_stage w h3 _) as [[]|e|e]; reflexivity.
Qed.

End Load.

(** X10.  A load that returns without error made exactly these calls, each
    of which succeeded: the creation of the stage, one listing of the
    workspace, which was not empty, one COPY for every key of the listing
    that follows the part-file naming of the table, in the order of the
    listing and with the workspace prefix cut off, and last the drop of the
    stage. *)
Theorem load_success_copies_every_part
        (url_Parse : string -> result URL)
        (gen : string -> string -> string -> string)
        (w : World) (sess : ReplicateSession)
        (Hok : outcome_of (loadSnapshotDataIntoSnowflake url_Parse gen w sess)
               = Ok tt) :
  let stage := "snapshot_stage_" ++ SourceTable sess in
  exists u contents,
    url_Parse (StorageWorkspacePath sess) = Ok u
    /\ contents <> []
    /\ trace_of (loadSnapshotDataIntoSnowflake url_Parse gen w sess)
       = CreateExternalStage stage (StorageWorkspacePath sess) (Ok tt)
         :: ListObjectsV2 (Host u) (TrimPrefix (Path u) "/") (Ok contents)
         :: app (map (fun key =>
                        Exec (gen (SourceTable sess) stage
                                  (TrimPrefix key (TrimPrefix (Path u) "/")))
                             (Ok tt))
                     (matching_parts sess (Path u) contents))
                [DropStage stage (Ok tt)].
Proof.
  intros stage. unfold outcome_of in Hok. unfold trace_of.
  rewrite load_run in *. cbv zeta in *. fold stage in Hok. fold stage.
  destruct (w_create_stage w [] stage (StorageWorkspacePath sess))
    as [[]|e|e]; try discriminate Hok.
  destruct (url_Parse (StorageWorkspacePath sess)) as [u|e|e];
    try discriminate Hok.
  destruct (w_list w _ (Host u) (TrimPrefix (Path u) "/"))
    as [contents|e|e]; try discriminate Hok.
  destruct contents as [|k contents]; [discriminate Hok|].
  cbn [length Nat.eqb] in *.
  exists u, (k :: contents). split; [reflexivity|]. split; [discriminate|].
  match type of Hok with
  | context [load_loop gen w ?t ?s ?ps ?h] =>
      destruct (SnapshotClaims.load_loop_trace gen w t s ps h)
        as [[H1 H2]|[done [part [bad [Hb [H1 H2]]]]]];
      destruct (load_loop gen w t s ps h) as [h3 r3] eqn:EQ
  end; cbn [fst snd] in H1, H2; subst h3 r3.
  - cbn [fst snd] in *. rewrite Hok. cbn [app]. f_equal. f_equal. f_equal.
    rewrite map_map. reflexivity.
  - destruct bad as [[]|e|e]; [now elim Hb|discriminate Hok|discriminate Hok].
Qed.

Lemma load_success_copies_every_part_witness :
  trace_of (loadSnapshotDataIntoSnowflake sample_parse sample_copy
              world_two_parts sess_users)
  = [CreateExternalStage "snapshot_stage_users" "s3://bucket/ws" (Ok tt);
     ListObjectsV2 "bucket" "ws"
       (Ok ["ws/snapshot/metadata"; "ws/snapshot/test.users.0.csv";
            "ws/snapshot/test.users.1.csv"]);
     Exec "COPY INTO users FROM @snapshot_stage_users/snapshot/test.users.0.csv"
          (Ok tt);
     Exec "COPY INTO users FROM @snapshot_stage_users/snapshot/test.users.1.csv"
          (Ok tt);
     DropStage "snapshot_stage_users" (Ok tt)]
  /\ exists u contents,
       sample_parse "s3://bucket/ws" = Ok u /\ contents <> @nil string.
Proof.
  split; [reflexivity|].
  destruct (load_success_copies_every_part sample_parse sample_copy
              world_two_parts sess_users eq_refl) as [u [contents [H1 [H2 _]]]].
  exists u, contents. split; assumption.
Defined.

(** X11.  A load that returns an error never got a stage dropped.  When the
    stage could not be created, that was the only call and the error is
    reported as a failure to create the stage.  Otherwise the stage was
    created first and is left behind: no drop succeeded, and a drop that was
    issued at all was the last call and its error is the one returned. *)
Theorem load_error_leaves_created_stage
        (url_Parse : string -> result URL)
        (gen : string -> string -> string -> string)
        (w : World) (sess : ReplicateSession) (e : string)
        (Hfail : outcome_of (loadSnapshotDataIntoSnowflake url_Parse gen w sess)
                 = Err e) :
  let stage := "snapshot_stage_" ++ SourceTable sess in
  let tr := trace_of (loadSnapshotDataIntoSnowflake url_Parse gen w sess) in
  match w_create_stage w [] stage (StorageWorkspacePath sess) with
  | Ok _ =>
      exists rest,
        tr = CreateExternalStage stage (StorageWorkspacePath sess) (Ok tt)
             :: rest
        /\ (forall s, ~ In (DropStage s (Ok tt)) rest)
        /\ (forall s r, In (DropStage s r) rest ->
              r = Err e /\ exists before, rest = app before [DropStage s r])
  | Err e0 =>
      tr = [CreateExternalStage stage (StorageWorkspacePath sess) (Err e0)]
      /\ e = "Failed to create stage: " ++ e0
  | Panic _ => False
  end.
Proof.
  intros stage tr. subst tr. unfold outcome_of in Hfail. unfold trace_of.
  rewrite load_run in *. cbv zeta in *. fold stage in Hfail. fold stage.
  destruct (w_create_stage w [] stage (StorageWorkspacePath sess))
    as [[]|e0|e0]; [| |discriminate Hfail].
  2:{ cbn [fst snd] in *. split; [reflexivity|]. now injection Hfail as <-. }
  assert (Hnone : forall c l, ~ In (DropStage c l) [] ) by (intros c l []).
  destruct (url_Parse (StorageWorkspacePath sess)) as [u|e1|e1].
  2:{ exists []. split; [reflexivity|]. split; [intros s []|intros s r []]. }
  2:{ exists []. split; [reflexivity|]. split; [intros s []|intros s r []]. }
  destruct (w_list w _ (Host u) (TrimPrefix (Path u) "/"))
    as [contents|e1|e1].
  2:{ eexists. split; [reflexivity|].
      split; [intros s [H|[]]; discriminate H
             |intros s r [H|[]]; discriminate H]. }
  2:{ eexists. split; [reflexivity|].
      split; [intros s [H|[]]; discriminate H
             |intros s r [H|[]]; discriminate H]. }
  destruct (List.length contents =? 0)%nat.
  { eexists. split; [reflexivity|].
    split; [intros s [H|[]]; discriminate H
           |intros s r [H|[]]; discriminate H]. }
  match type of Hfail with
  | context [load_loop gen w ?t ?s ?ps ?h] =>
      destruct (SnapshotClaims.load_loop_trace gen w t s ps h)
        as [[H1 H2]|[done [part [bad [Hb [H1 H2]]]]]];
      destruct (load_loop gen w t s ps h) as [h3 r3] eqn:EQ
  end; cbn [fst snd] in H1, H2; subst h3 r3.
  - cbn [fst snd] in *. rewrite Hfail. cbn [app].
    eexists. split; [reflexivity|]. split.
    + intros s [H|H]; [discriminate H|].
      apply in_app_or in H as [H|[H|[]]]; [|discriminate H].
      apply SnapshotClaims.in_ok_execs in H as [p Hp]. discriminate Hp.
    + intros s r [H|H]; [discriminate H|].
      apply in_app_or in H as [H|[H|[]]].
      * apply SnapshotClaims.in_ok_execs in H as [p Hp]. discriminate Hp.
      * injection H as <- <-. split; [reflexivity|].
        eexists (_ :: _). cbn [app]. reflexivity.
  - destruct bad as [[]|e1|e1]; [now elim Hb| |discriminate Hfail].
    cbn [fst snd app] in *. eexists. split; [reflexivity|]. split.
    + intros s [H|H]; [discriminate H|].
      apply in_app_or in H as [H|[H|[]]]; [|discriminate H].
      apply SnapshotClaims.in_ok_execs in H as [p Hp]. discriminate Hp.
    + intros s r [H|H]; [discriminate H|].
      apply in_app_or in H as [H|[H|[]]]; [|discriminate H].
      apply SnapshotClaims.in_ok_execs in H as [p Hp]. discriminate Hp.
Qed.

Lemma load_error_leaves_created_stage_witness :
  trace_of (loadSnapshotDataIntoSnowflake sample_parse sample_copy
              world_no_stage sess_users)
  = [CreateExternalStage "snapshot_stage_users" "s3://bucket/ws" (Err "denied")]
  /\ "Failed to create stage: denied" = "Failed to create stage: " ++ "denied".
Proof.
  exact (load_error_leaves_created_stage sample_parse sample_copy
           world_no_stage sess_users "Failed to create stage: denied" eq_refl).
Defined.

End SnapshotExtras.

(* ================================================================== *)
(** * Further properties of the runs of the command                    *)
(* ================================================================== *)

Module ProtocolFacts.
Import Orchestrator OrchMore.

Lemma Kind_eqb_refl (k : Kind) : Kind_eqb k k = true.
Proof. now destruct k. Qed.

Lemma Kind_eqb_eq (a b : Kind) : Kind_eqb a b = true -> a = b.
Proof. destruct a, b; simpl; intros H; try reflexivity; discriminate H. Qed.

Lemma subseqb_nil (p : list Kind) : subseqb [] p = true.
Proof. now destruct p. Qed.

Lemma subseqb_tail (x : Kind) (l : list Kind) :
  forall p, subseqb (x :: l) p = true -> subseqb l p = true.
Proof.
  revert x. induction l as [|y l IH]; intros x p H; [apply subseqb_nil|].
  revert H. induction p as [|z p IHp]; intros H; [discriminate H|].
  cbn [subseqb] in H |- *.
  destruct (Kind_eqb x z).
  - destruct (Kind_eqb y z); [|exact H].
    now apply IH with (x := y).
  - destruct (Kind_eqb y z).
    + apply IHp in H. now apply IH with (x := y).
    + now apply IHp.
Qed.

Lemma subseqb_skip (y : Kind) (l p : list Kind) :
  subseqb l p = true -> subseqb l (y :: p) = true.
Proof.
  destruct l as [|x l]; [reflexivity|]. intros H. cbn [subseqb].
  destruct (Kind_eqb x y); [|exact H]. now apply subseqb_tail with (x := x).
Qed.

Lemma subseqb_app (l1 p1 : list Kind) :
  forall l2 p2,
    subseqb l1 p1 = true -> subseqb l2 p2 = true ->
    subseqb (app l1 l2) (app p1 p2) = true.
Proof.
  revert l1. induction p1 as [|y p1 IH]; intros l1 l2 p2 H1 H2.
  - destruct l1; [exact H2|discriminate H1].
  - destruct l1 as [|x l1].
    + cbn [app]. apply subseqb_skip.
      apply (IH [] l2 p2); [apply subseqb_nil|exact H2].
    + cbn [app subseqb] in *. destruct (Kind_eqb x y).
      * now apply IH.
      * now apply (IH (x :: l1)).
Qed.

(** The calls [c] makes are, by kind, [p] with some calls left out. *)
Definition follows {A : Type} (p : list Kind) (c : Eff Call A) : Prop :=
  forall h, exists evs,
      fst (c h) = app h evs /\ subseqb (map kind evs) p = true.

Lemma follows_ret {A : Type} (p : list Kind) (a : A) : follows p (ret a).
Proof.
  intros h. exists []. split; [now rewrite app_nil_r|apply subseqb_nil].
Qed.

Lemma follows_lift {A : Type} (p : list Kind) (r : result A) :
  follows p (lift r).
Proof.
  intros h. exists []. split; [now rewrite app_nil_r|apply subseqb_nil].
Qed.

Lemma follows_call {A : Type} (k : Kind) (record : result A -> Call)
      (oracle : list Call -> result A) :
  (forall r, kind (record r) = k) -> follows [k] (call record oracle).
Proof.
  intros H h. exists [record (oracle h)]. split; [reflexivity|].
  cbn. now rewrite H, Kind_eqb_refl.
Qed.

Lemma follows_annotate {A : Type} (p : list Kind) (msg : string)
      (c : Eff Call A) :
  follows p c -> follows p (annotate msg c).
Proof.
  intros H h. destruct (H h) as [evs [H1 H2]]. exists evs. split; [|exact H2].
  unfold annotate. destruct (c h) as [h' [a|e|e]]; exact H1.
Qed.

Lemma follows_bind {A B : Type} (p1 p2 : list Kind) (c : Eff Call A)
      (k : A -> Eff Call B) :
  follows p1 c -> (forall a, follows p2 (k a)) ->
  follows (app p1 p2) (bind c k).
Proof.
  intros Hc Hk h. destruct (Hc h) as [evs [H1 H2]].
  rewrite bind_run. destruct (c h) as [h' [a|e|e]]; simpl in H1; subst h'.
  - destruct (Hk a (app h evs)) as [evs' [H3 H4]].
    exists (app evs evs'). split; [now rewrite H3, app_assoc|].
    rewrite map_app. now apply subseqb_app.
  - exists evs. split; [reflexivity|].
    rewrite <- (app_nil_r (map kind evs)). apply subseqb_app;
      [exact H2|apply subseqb_nil].
  - exists evs. split; [reflexivity|].
    rewrite <- (app_nil_r (map kind evs)). apply subseqb_app;
      [exact H2|apply subseqb_nil].
Qed.

Lemma follows_weaken {A : Type} (p p' : list Kind) (c : Eff Call A) :
  (forall l, subseqb l p = true -> subseqb l p' = true) ->
  follows p c -> follows p' c.
Proof.
  intros Hw H h. destruct (H h) as [evs [H1 H2]]. exists evs.
  split; [exact H1|now apply Hw].
Qed.

Lemma follows_nil_any {A : Type} (p : list Kind) (c : Eff Call A) :
  follows [] c -> follows p c.
Proof.
  apply follows_weaken. intros l H. destruct l; [apply subseqb_nil|discriminate H].
Qed.

Lemma follows_skip {A : Type} (k : Kind) (p : list Kind) (c : Eff Call A) :
  follows p c -> follows (k :: p) c.
Proof.
  apply follows_weaken. intros l. apply subseqb_skip.
Qed.

Lemma follows_more {A : Type} (p q : list Kind) (c : Eff Call A) :
  follows p c -> follows (app p q) c.
Proof.
  intros H h. destruct (H h) as [evs [H1 H2]]. exists evs.
  split; [exact H1|]. rewrite <- (app_nil_r (map kind evs)).
  apply subseqb_app; [exact H2|apply subseqb_nil].
Qed.

Lemma subseqb_split (x : Kind) (l1 l2 : list Kind) :
  forall p,
    subseqb (app l1 (x :: l2)) p = true ->
    exists p1 p2, p = app p1 (x :: p2)
                  /\ subseqb l1 p1 = true /\ subseqb l2 p2 = true.
Proof.
  induction l1 as [|y l1 IH]; intros p H.
  - cbn [app] in H. induction p as [|z p IHp]; [discriminate H|].
    cbn [subseqb] in H. destruct (Kind_eqb x z) eqn:E.
    + apply Kind_eqb_eq in E. subst z. exists [], p.
      split; [reflexivity|split; [apply subseqb_nil|exact H]].
    + destruct (IHp H) as [p1 [p2 [-> [H1 H2]]]].
      exists (z :: p1), p2.
      split; [reflexivity|split; [apply subseqb_nil|exact H2]].
  - cbn [app] in H. induction p as [|z p IHp]; [discriminate H|].
    cbn [subseqb] in H. destruct (Kind_eqb y z) eqn:E.
    + destruct (IH p H) as [p1 [p2 [-> [H1 H2]]]].
      exists (z :: p1), p2. split; [reflexivity|split; [|exact H2]].
      cbn [subseqb]. now rewrite E.
    + destruct (IHp H) as [p1 [p2 [-> [H1 H2]]]].
      exists (z :: p1), p2. split; [reflexivity|split; [|exact H2]].
      now apply subseqb_skip.
Qed.

Lemma subseqb_In (x : Kind) (l : list Kind) :
  forall p, subseqb l p = true -> In x l -> In x p.
Proof.
  induction l as [|y l IH]; intros p H Hin; [destruct Hin|].
  induction p as [|z p IHp]; [discriminate H|].
  cbn [subseqb] in H. destruct (Kind_eqb y z) eqn:E.
  - apply Kind_eqb_eq in E. subst z. destruct Hin as [->|Hin]; [now left|].
    right. now apply IH.
  - right. now apply IHp.
Qed.

Lemma none_of_kind (x : Kind) (l p : list Call) (q : list Kind) :
  subseqb (map kind l) q = true -> ~ In x q ->
  existsb (fun c => Kind_eqb (kind c) x) l = false.
Proof.
  intros H Hn. apply EffectFacts.Forall_existsb_false. apply Forall_forall.
  intros c Hc. destruct (Kind_eqb (kind c) x) eqn:E; [|reflexivity].
  apply Kind_eqb_eq in E. elim Hn. apply (subseqb_In x _ _ H).
  rewrite <- E. now apply in_map.
Qed.

Section Run.
Variable url_Parse : string -> result URL.
Variable url_JoinPath : string -> string -> result string.
Variable URL_String : URL -> string.
Variable Duration_String : Z -> string.
Variable w : World.

Lemma genSinkURI_follows (sp : string) (fi fs : Z) :
  follows [KEnvCredentials; KGetenv]
          (genSinkURI url_Parse Duration_String w sp fi fs).
Proof.
  unfold genSinkURI.
  apply (follows_bind [] [KEnvCredentials; KGetenv]); [apply follows_lift|].
  intros u. cbv zeta.
  destruct (String.eqb _ "s3").
  - apply (follows_more [KEnvCredentials] [KGetenv]).
    apply (follows_bind [KEnvCredentials] []).
    + apply follows_annotate. now apply follows_call.
    + intros cv. apply follows_ret.
  - destruct (String.eqb _ "gcs"); [|apply follows_lift].
    apply follows_skip. apply (follows_bind [KGetenv] []).
    + now apply follows_call.
    + intros [v|]; [apply follows_ret|apply follows_lift].
Qed.

Lemma createChangefeed_follows (server : string) (u : URL) (t : string)
      (ts : N) :
  follows [KPost] (createChangefeed url_JoinPath URL_String w server u t ts).
Proof.
  unfold createChangefeed. cbv zeta.
  apply (follows_bind [] [KPost]);
    [apply follows_annotate, follows_lift|intros url].
  apply (follows_bind [KPost] []); [now apply follows_call|intros resp].
  destruct (negb _); apply follows_lift.
Qed.

Lemma run_follows (fl : Flags) :
  follows protocol
          (run url_Parse url_JoinPath URL_String Duration_String w fl).
Proof.
  unfold run, protocol.
  apply (follows_bind [KStorage]); [now apply follows_call|intros _].
  apply (follows_bind [KFileExists]); [now apply follows_call|intros me].
  apply (follows_bind [KFileExists]); [now apply follows_call|intros li].
  apply (follows_bind [KTSO]).
  { destruct (negb li); [|apply follows_ret].
    apply follows_annotate. now apply follows_call. }
  intros ts.
  apply (follows_bind [KEnvCredentials; KGetenv; KPost]).
  { destruct (_ || _).
    - apply (follows_bind [] [KEnvCredentials; KGetenv; KPost]);
        [apply follows_lift|intros isp].
      apply (follows_bind [KEnvCredentials; KGetenv] [KPost]);
        [apply genSinkURI_follows|intros u].
      apply (follows_bind [KPost] []); [|intros _; apply follows_ret].
      destruct (_ || _); [|apply follows_ret].
      apply follows_annotate. apply createChangefeed_follows.
    - destruct (_ && _); [|apply follows_ret].
      apply (follows_bind [] _); [apply follows_lift|intros u].
      apply follows_ret. }
  intros sinkURI.
  apply (follows_bind []).
  { destruct (negb _); [|apply follows_ret].
    destruct (split_dot _) as [parts|]; [apply follows_ret|apply follows_lift]. }
  intros names. cbv zeta.
  apply (follows_bind [KOpenDB; KConnector; KSnapshot]).
  { destruct (_ && _); [|apply follows_ret].
    apply (follows_bind [] _); [apply follows_lift|intros ssp].
    apply (follows_bind [KOpenDB]); [now apply follows_call|intros _].
    apply (follows_bind [] _);
      [apply follows_annotate, follows_lift|intros su].
    apply (follows_bind [KConnector]); [now apply follows_call|intros _].
    apply follows_annotate. now apply follows_call. }
  intros _.
  apply (follows_bind [KOpenDB; KConnector; KIncrement] []);
    [|intros _; apply follows_ret].
  destruct (_ || _); [|apply follows_ret].
  apply (follows_bind [KOpenDB]); [now apply follows_call|intros _].
  apply (follows_bind [KConnector]); [now apply follows_call|intros _].
  apply follows_annotate. now apply follows_call.
Qed.

End Run.

End ProtocolFacts.

Module FailFacts.
Import Orchestrator OrchMore.

(** With [stops] saying which recorded calls end a run: no call of [c]
    ends it but possibly the last, and none when [c] gives a result. *)
Definition failfast {A : Type} (stops : Call -> bool) (c : Eff Call A)
  : Prop :=
  forall h, exists evs,
      fst (c h) = app h evs
      /\ existsb stops (removelast evs) = false
      /\ (forall a, snd (c h) = Ok a -> existsb stops evs = false).

Section Stops.
Variable stops : Call -> bool.

Lemma failfast_ret {A : Type} (a : A) : failfast stops (ret a).
Proof.
  intros h. exists []. split; [now rewrite app_nil_r|]. now split.
Qed.

Lemma failfast_lift {A : Type} (r : result A) : failfast stops (lift r).
Proof.
  intros h. exists []. split; [now rewrite app_nil_r|]. now split.
Qed.

Lemma failfast_call {A : Type} (record : result A -> Call)
      (oracle : list Call -> result A) :
  (forall a, stops (record (Ok a)) = false) ->
  failfast stops (call record oracle).
Proof.
  intros H h. exists [record (oracle h)]. split; [reflexivity|].
  split; [reflexivity|]. intros a Ha. cbn in Ha. cbn. now rewrite Ha, H.
Qed.

Lemma failfast_annotate {A : Type} (msg : string) (c : Eff Call A) :
  failfast stops c -> failfast stops (annotate msg c).
Proof.
  intros H h. destruct (H h) as [evs [H1 [H2 H3]]]. exists evs.
  unfold annotate. destruct (c h) as [h' [a|e|e]]; cbn [fst snd] in *;
    (split; [exact H1|split; [exact H2|]]); try exact H3;
    intros a Ha; discriminate Ha.
Qed.

Lemma existsb_removelast (P : Call -> bool) (l : list Call) :
  existsb P l = false -> existsb P (removelast l) = false.
Proof.
  induction l as [|x l IH]; [reflexivity|]. cbn [existsb].
  intros H. apply orb_false_iff in H as [Hx Hl].
  destruct l as [|y l]; [reflexivity|].
  change (removelast (x :: y :: l)) with (x :: removelast (y :: l)).
  cbn [existsb]. now rewrite Hx, IH.
Qed.

Lemma failfast_bind {A B : Type} (c : Eff Call A) (k : A -> Eff Call B) :
  failfast stops c -> (forall a, failfast stops (k a)) ->
  failfast stops (bind c k).
Proof.
  intros Hc Hk h. destruct (Hc h) as [evs [H1 [H2 H3]]].
  rewrite bind_run. destruct (c h) as [h' [a|e|e]]; cbn [fst snd] in *;
    subst h'.
  - destruct (Hk a (app h evs)) as [evs' [H4 [H5 H6]]].
    exists (app evs evs'). split; [now rewrite H4, app_assoc|].
    pose proof (H3 a eq_refl) as Hev. split.
    + destruct evs' as [|x evs'].
      * rewrite app_nil_r. now apply existsb_removelast.
      * rewrite removelast_app by discriminate.
        now rewrite existsb_app, Hev, H5.
    + intros b Hb. rewrite existsb_app, Hev. now apply (H6 b).
  - exists evs. split; [reflexivity|]. split; [exact H2|].
    intros b Hb. discriminate Hb.
  - exists evs. split; [reflexivity|]. split; [exact H2|].
    intros b Hb. discriminate Hb.
Qed.

End Stops.

(** The registration of a capture job: an answer that is refused ends
    it. *)
Lemma createChangefeed_failfast
      (url_JoinPath : string -> string -> result string)
      (URL_String : URL -> string) (w : World)
      (server : string) (u : URL) (t : string) (ts : N) :
  failfast (fun c => failed c || refused c)
           (createChangefeed url_JoinPath URL_String w server u t ts).
Proof.
  unfold createChangefeed. cbv zeta.
  apply failfast_bind; [apply failfast_annotate, failfast_lift|intros url].
  intros h. rewrite bind_run. unfold call. cbv zeta.
  match goal with
  | |- context [w_http_post w h url ?cfg] =>
      exists [HttpPost url cfg (w_http_post w h url cfg)];
      destruct (w_http_post w h url cfg) as [resp|e|e]
  end.
  3:{ split; [reflexivity|split; [reflexivity|]]. intros a Ha.
      cbn [snd] in Ha. discriminate Ha. }
  2:{ split; [reflexivity|split; [reflexivity|]]. intros a Ha.
      cbn [snd] in Ha. discriminate Ha. }
  destruct (negb (StatusCode resp =? 200)%nat) eqn:Es.
  - split; [reflexivity|split; [reflexivity|]]. intros a Ha.
    cbn [snd] in Ha. discriminate Ha.
  - split; [reflexivity|split; [reflexivity|]]. intros a Ha.
    unfold lift in Ha. cbn [snd] in Ha.
    cbn [existsb failed refused orb]. rewrite Es, Ha. reflexivity.
Qed.

End FailFacts.

Ltac failfast_step :=
  first
    [ apply FailFacts.failfast_ret
    | apply FailFacts.failfast_lift
    | apply FailFacts.createChangefeed_failfast
    | apply FailFacts.failfast_annotate
    | apply FailFacts.failfast_bind; [|intros ?]
    | apply FailFacts.failfast_call; intros ?; reflexivity
    | match goal with
      | |- FailFacts.failfast _ (if ?b then _ else _) => destruct b eqn:?
      | |- FailFacts.failfast _ (match ?x with _ => _ end) => destruct x eqn:?
      end ].

Module SpecFacts.
Import EffectFacts.

(** Every call [c] makes satisfies [P], and a result of [c] satisfies
    [Q]. *)
Definition spec {E A : Type} (P : E -> Prop) (Q : A -> Prop) (c : Eff E A)
  : Prop :=
  forall h, exists evs,
      fst (c h) = app h evs /\ Forall P evs
      /\ (forall a, snd (c h) = Ok a -> Q a).

Lemma spec_ret {E A : Type} (P : E -> Prop) (Q : A -> Prop) (a : A) :
  Q a -> spec P Q (ret a).
Proof.
  intros H h. exists []. split; [now rewrite app_nil_r|].
  split; [constructor|]. intros b Hb. injection Hb as <-. exact H.
Qed.

Lemma spec_lift {E A : Type} (P : E -> Prop) (Q : A -> Prop) (r : result A) :
  (forall a, r = Ok a -> Q a) -> spec P Q (lift r).
Proof.
  intros H h. exists []. split; [now rewrite app_nil_r|].
  split; [constructor|]. intros b Hb. now apply H.
Qed.

Lemma spec_call {E A : Type} (P : E -> Prop) (Q : A -> Prop)
      (record : result A -> E) (oracle : list E -> result A) :
  (forall h, P (record (oracle h))) ->
  (forall h a, oracle h = Ok a -> Q a) ->
  spec P Q (call record oracle).
Proof.
  intros HP HQ h. exists [record (oracle h)]. split; [reflexivity|].
  split; [constructor; [apply HP|constructor]|]. intros a Ha. now apply (HQ h).
Qed.

Lemma spec_annotate {E A : Type} (P : E -> Prop) (Q : A -> Prop)
      (msg : string) (c : Eff E A) :
  spec P Q c -> spec P Q (annotate msg c).
Proof.
  intros H h. destruct (H h) as [evs [H1 [H2 H3]]]. exists evs.
  unfold annotate. destruct (c h) as [h' [a|e|e]]; cbn [fst snd] in *;
    (split; [exact H1|split; [exact H2|]]); try exact H3;
    intros a Ha; discriminate Ha.
Qed.

Lemma spec_bind {E A B : Type} (P : E -> Prop) (Q1 : A -> Prop)
      (Q : B -> Prop) (c : Eff E A) (k : A -> Eff E B) :
  spec P Q1 c -> (forall a, Q1 a -> spec P Q (k a)) -> spec P Q (bind c k).
Proof.
  intros Hc Hk h. destruct (Hc h) as [evs [H1 [H2 H3]]].
  rewrite bind_run. destruct (c h) as [h' [a|e|e]]; cbn [fst snd] in *;
    subst h'.
  - destruct (Hk a (H3 a eq_refl) (app h evs)) as [evs' [H4 [H5 H6]]].
    exists (app evs evs'). split; [now rewrite H4, app_assoc|].
    split; [apply Forall_app; now split|exact H6].
  - exists evs. split; [reflexivity|]. split; [exact H2|].
    intros b Hb. discriminate Hb.
  - exists evs. split; [reflexivity|]. split; [exact H2|].
    intros b Hb. discriminate Hb.
Qed.

Lemma spec_of_emits {E A : Type} (P : E -> Prop) (c : Eff E A) :
  emits P c -> spec P (fun a => exists h, snd (c h) = Ok a) c.
Proof.
  intros H h. destruct (H h) as [evs [H1 H2]]. exists evs.
  split; [exact H1|]. split; [exact H2|]. intros a Ha. now exists h.
Qed.

Lemma spec_weaken {E A : Type} (P : E -> Prop) (Q Q' : A -> Prop)
      (c : Eff E A) :
  (forall a, Q a -> Q' a) -> spec P Q c -> spec P Q' c.
Proof.
  intros Hw H h. destruct (H h) as [evs [H1 [H2 H3]]]. exists evs.
  split; [exact H1|]. split; [exact H2|]. intros a Ha. apply Hw. now apply H3.
Qed.

Lemma spec_any {E A : Type} (P : E -> Prop) (c : Eff E A) :
  emits P c -> spec P (fun _ => True) c.
Proof.
  intros H h. destruct (H h) as [evs [H1 H2]]. exists evs.
  split; [exact H1|]. split; [exact H2|]. intros a _. exact I.
Qed.

End SpecFacts.

Module OrchestratorExtras.
Import Orchestrator OrchSamples OrchMore ProtocolFacts.
Local Arguments String.append : simpl never.
Local Arguments utoa : simpl never.
Local Arguments itoa : simpl never.
Local Arguments Snowsql.ztoa : simpl never.

(** The ways [protocol] splits around a call of one kind. *)
Lemma protocol_split (x : Kind) (p1 p2 : list Kind) :
  protocol = app p1 (x :: p2) ->
  (x = KPost -> p1 = [KStorage; KFileExists; KFileExists; KTSO;
                      KEnvCredentials; KGetenv]
                /\ p2 = [KOpenDB; KConnector; KSnapshot;
                         KOpenDB; KConnector; KIncrement])
  /\ (x = KSnapshot -> p1 = [KStorage; KFileExists; KFileExists; KTSO;
                             KEnvCredentials; KGetenv; KPost;
                             KOpenDB; KConnector]
                       /\ p2 = [KOpenDB; KConnector; KIncrement])
  /\ (x = KIncrement -> p2 = [])
  /\ (x = KTSO -> p1 = [KStorage; KFileExists; KFileExists]).
Proof.
  unfold protocol. intros H.
  do 13 (destruct p1 as [|? p1];
         [cbn [app] in H; injection H as <- <-;
          repeat split; intros; (reflexivity || congruence)
         |cbn [app] in H; injection H as <- H]).
  destruct p1; discriminate H.
Qed.

(** X12.  Whatever the flags and whatever the calls answer, the calls of a
    run are, in this order and each at most once: the storage handle, the
    two marker probes, the TSO, the credentials, the registration of the
    capture job, then opening the warehouse, the connector and the snapshot
    replication, then opening the warehouse, the connector and the
    incremental replication; a run leaves calls out but never reorders or
    repeats them.  So a capture job is registered at most once and before
    any replication call, the TSO is resolved before anything but the
    probes, and the snapshot replication comes before every call of the
    incremental replication. *)
Theorem run_follows_protocol
        (url_Parse : string -> result URL)
        (url_JoinPath : string -> string -> result string)
        (URL_String : URL -> string) (Duration_String : Z -> string)
        (w : World) (fl : Flags) :
  let tr := trace_of (run url_Parse url_JoinPath URL_String Duration_String
                          w fl) in
  subseqb (map kind tr) protocol = true
  /\ (forall before url cfg r after,
        tr = app before (HttpPost url cfg r :: after) ->
        existsb replicates before = false
        /\ existsb registers_capture before = false
        /\ existsb registers_capture after = false)
  /\ (forall before r after,
        tr = app before (GetCurrentTSO r :: after) ->
        forallb probe before = true)
  /\ (forall before db t u tso r after,
        tr = app before (StartReplicateSnapshot db t u tso r :: after) ->
        existsb (fun c => Kind_eqb (kind c) KIncrement) before = false
        /\ existsb registers_capture after = false
        /\ existsb snapshot_load after = false).
Proof.
  intros tr.
  assert (Hp : subseqb (map kind tr) protocol = true).
  { destruct (run_follows url_Parse url_JoinPath URL_String Duration_String
                          w fl []) as [evs [H1 H2]].
    cbn [app] in H1. unfold tr, trace_of. now rewrite H1. }
  assert (Hk : forall (P : Call -> bool) (l : list Call) (q : list Kind),
             subseqb (map kind l) q = true ->
             (forall c, In (kind c) q -> P c = false) ->
             existsb P l = false).
  { intros P l q Hs Hq. apply EffectFacts.Forall_existsb_false.
    apply Forall_forall. intros c Hc. apply Hq.
    apply (subseqb_In (kind c) _ _ Hs). now apply in_map. }
  split; [exact Hp|]. split; [|split].
  - intros before url cfg r after Htr. rewrite Htr, map_app in Hp.
    cbn [map kind] in Hp.
    destruct (subseqb_split _ _ _ _ Hp) as [p1 [p2 [Hpr [H1 H2]]]].
    destruct (protocol_split _ _ _ Hpr) as [Hs _].
    destruct (Hs eq_refl) as [-> ->].
    repeat split.
    + apply (Hk _ _ _ H1). intros c Hc. unfold replicates.
      cbn in Hc. intuition (match goal with E : _ = kind c |- _ =>
                                             rewrite <- E end; reflexivity).
    + apply (Hk _ _ _ H1). intros c Hc. cbn in Hc.
      destruct c; try reflexivity; cbn in Hc; intuition discriminate.
    + apply (Hk _ _ _ H2). intros c Hc. cbn in Hc.
      destruct c; try reflexivity; cbn in Hc; intuition discriminate.
  - intros before r after Htr. rewrite Htr, map_app in Hp.
    cbn [map kind] in Hp.
    destruct (subseqb_split _ _ _ _ Hp) as [p1 [p2 [Hpr [H1 H2]]]].
    destruct (protocol_split _ _ _ Hpr) as [_ [_ [_ Hs]]].
    rewrite (Hs eq_refl) in H1.
    apply EffectFacts.Forall_forallb_true. apply Forall_forall.
    intros c Hc. pose proof (subseqb_In (kind c) _ _ H1 (in_map kind _ _ Hc)) as Hin.
    cbn in Hin. destruct c; try reflexivity; cbn in Hin; intuition discriminate.
  - intros before db t u tso r after Htr. rewrite Htr, map_app in Hp.
    cbn [map kind] in Hp.
    destruct (subseqb_split _ _ _ _ Hp) as [p1 [p2 [Hpr [H1 H2]]]].
    destruct (protocol_split _ _ _ Hpr) as [_ [Hs _]].
    destruct (Hs eq_refl) as [-> ->].
    repeat split.
    + apply (Hk _ _ _ H1). intros c Hc. cbn in Hc.
      destruct (kind c); try reflexivity; intuition discriminate.
    + apply (Hk _ _ _ H2). intros c Hc. cbn in Hc.
      destruct c; try reflexivity; cbn in Hc; intuition discriminate.
    + apply (Hk _ _ _ H2). intros c Hc. cbn in Hc.
      destruct c; try reflexivity; cbn in Hc; intuition discriminate.
Qed.

(** X13.  A run stops at the first failing call among the calls of its
    trace (storage handle, marker probes, TSO, credentials from the
    environment, the POST of the registration, warehouse connection,
    connector, the two replications): a call whose recorded outcome is an
    error or a panic is the last call of the run, and so is a registration
    answered with a status other than 200 or with a body that cannot be
    read; the run does not return nil then.  The trace holds no call for
    [json.Marshal] and [http.NewRequest], whose errors [createChangefeed]
    discards, nor for [url.Parse] and [url.JoinPath]: they are outside this
    statement. *)
Theorem run_stops_at_first_failure
        (url_Parse : string -> result URL)
        (url_JoinPath : string -> string -> result string)
        (URL_String : URL -> string) (Duration_String : Z -> string)
        (w : World) (fl : Flags)
        (before after : list Call) (c : Call)
        (Hc : trace_of (run url_Parse url_JoinPath URL_String Duration_String
                            w fl)
              = app before (c :: after))
        (Hf : failed c = true \/ refused c = true) :
  after = []
  /\ outcome_of (run url_Parse url_JoinPath URL_String Duration_String w fl)
     <> Ok tt.
Proof.
  assert (Hs : (fun c => failed c || refused c) c = true).
  { cbv beta. destruct Hf as [-> | ->]; [reflexivity|apply orb_true_r]. }
  assert (Hff : FailFacts.failfast (fun c => failed c || refused c)
                  (run url_Parse url_JoinPath URL_String Duration_String w fl)).
  { unfold run, genSinkURI. repeat failfast_step. }
  destruct (Hff []) as [evs [H1 [H2 H3]]]. cbn [app] in H1.
  unfold trace_of in Hc. rewrite H1 in Hc. subst evs. split.
  - destruct after as [|x after]; [reflexivity|].
    rewrite removelast_app in H2 by discriminate.
    rewrite existsb_app in H2. apply orb_false_iff in H2 as [_ H2].
    change (removelast (c :: x :: after)) with (c :: removelast (x :: after))
      in H2.
    cbn [existsb] in H2. rewrite Hs in H2. discriminate H2.
  - intros Hok. specialize (H3 tt Hok). rewrite existsb_app in H3.
    apply orb_false_iff in H3 as [_ H3]. cbn [existsb] in H3.
    rewrite Hs in H3. discriminate H3.
Qed.

Lemma run_stops_at_first_failure_witness :
  sample_run world_cdc_404 flags_full []
  = (app [GetExternalStorageFromURI "s3://bucket/ws" (Ok tt);
          FileExists "increment/metadata" (Ok false);
          FileExists "snapshot/loadinfo" (Ok false);
          GetCurrentTSO (Ok 442%N);
          EnvCredentials (Ok {| AccessKeyID := "key";
                                SecretAccessKey := "secret";
                                SessionToken := "" |})]
         (HttpPost "http://127.0.0.1:8300/api/v2/changefeeds"
                   {| SinkURI := "s3://bucket/ws/increment";
                      FilterRules := ["test.users"]; StartTs := 442 |}
                   (Ok {| StatusCode := 404; Body := Ok tt |}) :: []),
     Err "Failed to create changefeed: create changefeed failed, status code: 404")
  /\ outcome_of (sample_run world_cdc_404 flags_full) <> Ok tt.
Proof.
  split; [reflexivity|].
  exact (proj2 (run_stops_at_first_failure sample_url sample_join
                  sample_string sample_duration world_cdc_404
                  flags_full _ [] _ eq_refl (or_intror eq_refl))).
Defined.

(** The calls of a snapshot-only run. *)
Definition snapshot_only_call (c : Call) : Prop :=
  registers_capture c = false /\ reads_credentials c = false
  /\ Kind_eqb (kind c) KIncrement = false
  /\ match c with
     | NewSnowflakeConnector stage _ _ =>
         HasPrefix stage "snapshot_stage_" = true
     | _ => True
     end.

(** X14.  In snapshot-only mode a run registers no capture job, reads no
    credentials from the environment and starts no incremental replication;
    every connector it builds is one of a snapshot stage. *)
Theorem run_snapshot_only_scope
        (url_Parse : string -> result URL)
        (url_JoinPath : string -> string -> result string)
        (URL_String : URL -> string) (Duration_String : Z -> string)
        (w : World) (fl : Flags)
        (Hm : mode fl = RunModeSnapshotOnly) :
  let tr := trace_of (run url_Parse url_JoinPath URL_String Duration_String
                          w fl) in
  existsb registers_capture tr = false
  /\ existsb reads_credentials tr = false
  /\ existsb (fun c => Kind_eqb (kind c) KIncrement) tr = false
  /\ (forall stage u r, In (NewSnowflakeConnector stage u r) tr ->
        HasPrefix stage "snapshot_stage_" = true).
Proof.
  intros tr.
  assert (He : EffectFacts.emits snapshot_only_call
                 (run url_Parse url_JoinPath URL_String Duration_String w fl)).
  { unfold run. rewrite Hm. cbn [RunMode_eqb orb andb].
    repeat emits_step.
    all: try (now repeat split).
    all: repeat split; try reflexivity; apply HasPrefix_app. }
  destruct (He []) as [evs [H1 H2]]. cbn [app] in H1.
  assert (Htr : tr = evs) by exact H1. rewrite Htr.
  split; [|split; [|split]].
  - apply EffectFacts.Forall_existsb_false. revert H2. apply Forall_impl.
    intros c Hc. apply Hc.
  - apply EffectFacts.Forall_existsb_false. revert H2. apply Forall_impl.
    intros c Hc. apply Hc.
  - apply EffectFacts.Forall_existsb_false. revert H2. apply Forall_impl.
    intros c Hc. apply Hc.
  - intros stage u r Hin. rewrite Forall_forall in H2.
    apply (H2 _ Hin).
Qed.

Lemma run_snapshot_only_scope_witness :
  trace_of (sample_run (world_with []) flags_snapshot_only)
  = [GetExternalStorageFromURI "s3://bucket/ws" (Ok tt);
     FileExists "increment/metadata" (Ok false);
     FileExists "snapshot/loadinfo" (Ok false);
     GetCurrentTSO (Ok 442%N);
     OpenDB (Ok tt);
     NewSnowflakeConnector "snapshot_stage_users"
       (Some {| Scheme := "s3"; Host := "bucket"; Path := "/ws/snapshot";
                Query := [] |}) (Ok tt);
     StartReplicateSnapshot "test" "users"
       {| Scheme := "s3"; Host := "bucket"; Path := "/ws/snapshot";
          Query := [] |} "442" (Ok tt)]
  /\ existsb registers_capture
       (trace_of (sample_run (world_with []) flags_snapshot_only)) = false.
Proof.
  split; [reflexivity|].
  exact (proj1 (run_snapshot_only_scope sample_url sample_join sample_string
                  sample_duration (world_with []) flags_snapshot_only
                  eq_refl)).
Defined.

(** The calls of an incremental-only run that is given its sink URI. *)
Definition incremental_from_call (sink : string)
           (url_Parse : string -> result URL) (c : Call) : Prop :=
  registers_capture c = false /\ reads_credentials c = false
  /\ snapshot_load c = false
  /\ match c with
     | NewSnowflakeConnector stage u _ =>
         HasPrefix stage "increment_stage_" = true
         /\ exists u', u = Some u' /\ url_Parse sink = Ok u'
     | StartReplicateIncrement u _ =>
         exists u', u = Some u' /\ url_Parse sink = Ok u'
     | _ => True
     end.

(** X15.  In incremental-only mode with a sink URI given, a run registers
    no capture job, reads no credentials and starts no snapshot
    replication; the connector and the incremental replication it starts
    read from the given sink URI as parsed, not from the workspace. *)
Theorem run_incremental_from_sink_scope
        (url_Parse : string -> result URL)
        (url_JoinPath : string -> string -> result string)
        (URL_String : URL -> string) (Duration_String : Z -> string)
        (w : World) (fl : Flags)
        (Hm : mode fl = RunModeIncrementalOnly)
        (Hs : sindURIStr fl <> "") :
  let tr := trace_of (run url_Parse url_JoinPath URL_String Duration_String
                          w fl) in
  existsb registers_capture tr = false
  /\ existsb reads_credentials tr = false
  /\ existsb snapshot_load tr = false
  /\ (forall u r, In (StartReplicateIncrement u r) tr ->
        exists u', u = Some u' /\ url_Parse (sindURIStr fl) = Ok u').
Proof.
  intros tr.
  assert (Hs' : String.eqb (sindURIStr fl) "" = false).
  { destruct (String.eqb_spec (sindURIStr fl) ""); [now elim Hs|reflexivity]. }
  assert (He : SpecFacts.spec
                 (incremental_from_call (sindURIStr fl) url_Parse)
                 (fun _ => True)
                 (run url_Parse url_JoinPath URL_String Duration_String w fl)).
  { unfold run. rewrite Hm, Hs'. cbn [RunMode_eqb orb andb negb].
    apply (SpecFacts.spec_bind _ (fun _ => True));
      [apply SpecFacts.spec_any; repeat emits_step; now repeat split
      |intros _ _].
    apply (SpecFacts.spec_bind _ (fun _ => True));
      [apply SpecFacts.spec_any; repeat emits_step; now repeat split
      |intros me _].
    apply (SpecFacts.spec_bind _ (fun _ => True));
      [apply SpecFacts.spec_any; repeat emits_step; now repeat split
      |intros li _].
    apply (SpecFacts.spec_bind _ (fun _ => True));
      [apply SpecFacts.spec_any; repeat emits_step; now repeat split
      |intros ts _].
    apply (SpecFacts.spec_bind _
             (fun u => exists u', u = Some u'
                                  /\ url_Parse (sindURIStr fl) = Ok u')).
    { apply (SpecFacts.spec_bind _
               (fun u' => url_Parse (sindURIStr fl) = Ok u'));
        [apply SpecFacts.spec_lift; now intros|intros u' Hu'].
      apply SpecFacts.spec_ret. now exists u'. }
    intros sinkURI Hsink.
    apply SpecFacts.spec_any.
    repeat emits_step.
    all: try (now repeat split).
    all: repeat split; try reflexivity; try exact Hsink; apply HasPrefix_app. }
  destruct (He []) as [evs [H1 [H2 _]]]. cbn [app] in H1.
  assert (Htr : tr = evs) by exact H1. rewrite Htr.
  split; [|split; [|split]].
  - apply EffectFacts.Forall_existsb_false. revert H2. apply Forall_impl.
    intros c Hc. apply Hc.
  - apply EffectFacts.Forall_existsb_false. revert H2. apply Forall_impl.
    intros c Hc. apply Hc.
  - apply EffectFacts.Forall_existsb_false. revert H2. apply Forall_impl.
    intros c Hc. apply Hc.
  - intros u r Hin. rewrite Forall_forall in H2.
    apply (H2 _ Hin).
Qed.

Lemma run_incremental_from_sink_scope_witness :
  trace_of (sample_run (world_with []) flags_incremental_from)
  = [GetExternalStorageFromURI "s3://bucket/ws" (Ok tt);
     FileExists "increment/metadata" (Ok false);
     FileExists "snapshot/loadinfo" (Ok false);
     GetCurrentTSO (Ok 442%N);
     OpenDB (Ok tt);
     NewSnowflakeConnector "increment_stage_users"
       (Some {| Scheme := "s3"; Host := "bucket"; Path := "/other";
                Query := [] |}) (Ok tt);
     StartReplicateIncrement
       (Some {| Scheme := "s3"; Host := "bucket"; Path := "/other";
                Query := [] |}) (Ok tt)]
  /\ existsb registers_capture
       (trace_of (sample_run (world_with []) flags_incremental_from)) = false.
Proof.
  split; [reflexivity|].
  assert (Hs : sindURIStr flags_incremental_from <> "") by discriminate.
  exact (proj1 (run_incremental_from_sink_scope sample_url sample_join
                  sample_string sample_duration (world_with [])
                  flags_incremental_from eq_refl Hs)).
Defined.

Lemma no_dot_split (s : string) : no_dot s = true -> split_dot s = None.
Proof.
  induction s as [|c s IH]; [reflexivity|]. cbn [no_dot split_dot].
  destruct (Ascii.eqb c "."%char); [discriminate|].
  cbn [negb andb]. intros H. now rewrite (IH H).
Qed.

(** X16.  A table name that is not empty and holds no dot is rejected only
    after the capture job was set up: the run does not return nil and
    makes none of the replication calls (it opens no warehouse connection,
    builds no connector, starts no replication), but the probes, the TSO,
    the credentials and the registration of the capture job, with the name
    as its filter rule, come before the test of the name. *)
Theorem run_unqualified_table_rejected_late
        (url_Parse : string -> result URL)
        (url_JoinPath : string -> string -> result string)
        (URL_String : URL -> string) (Duration_String : Z -> string)
        (w : World) (fl : Flags)
        (Hne : tableFQN fl <> "")
        (Hnd : no_dot (tableFQN fl) = true) :
  let tr := trace_of (run url_Parse url_JoinPath URL_String Duration_String
                          w fl) in
  existsb replicates tr = false
  /\ outcome_of (run url_Parse url_JoinPath URL_String Duration_String w fl)
     <> Ok tt
  /\ (forall url cfg r, In (HttpPost url cfg r) tr ->
        FilterRules cfg = [tableFQN fl]).
Proof.
  intros tr.
  assert (Hne' : String.eqb (tableFQN fl) "" = false).
  { destruct (String.eqb_spec (tableFQN fl) ""); [now elim Hne|reflexivity]. }
  pose (P := fun c : Call =>
               replicates c = false
               /\ match c with
                  | HttpPost _ cfg _ => FilterRules cfg = [tableFQN fl]
                  | _ => True
                  end).
  assert (He : SpecFacts.spec P (fun _ : unit => False)
                 (run url_Parse url_JoinPath URL_String Duration_String w fl)).
  { unfold run. rewrite Hne', (no_dot_split _ Hnd). cbn [negb].
    apply (SpecFacts.spec_bind _ (fun _ => True));
      [apply SpecFacts.spec_any; repeat emits_step; now split|intros _ _].
    apply (SpecFacts.spec_bind _ (fun _ => True));
      [apply SpecFacts.spec_any; repeat emits_step; now split|intros me _].
    apply (SpecFacts.spec_bind _ (fun _ => True));
      [apply SpecFacts.spec_any; repeat emits_step; now split|intros li _].
    apply (SpecFacts.spec_bind _ (fun _ => True));
      [apply SpecFacts.spec_any; repeat emits_step; now split|intros ts _].
    apply (SpecFacts.spec_bind _ (fun _ => True)).
    { apply SpecFacts.spec_any. unfold genSinkURI, createChangefeed.
      repeat emits_step; unfold P; (split; [reflexivity|]);
        try exact I.
      all: destruct (negb (ts =? 0)%N); reflexivity. }
    intros sinkURI _.
    apply (SpecFacts.spec_bind _ (fun _ => False));
      [apply SpecFacts.spec_lift; discriminate|intros a []]. }
  destruct (He []) as [evs [H1 [H2 H3]]]. cbn [app] in H1.
  assert (Htr : tr = evs) by exact H1. rewrite Htr.
  split; [|split].
  - apply EffectFacts.Forall_existsb_false. revert H2. apply Forall_impl.
    intros c Hc. apply Hc.
  - intros Hok. exact (H3 tt Hok).
  - intros url cfg r Hin. rewrite Forall_forall in H2.
    apply (H2 _ Hin).
Qed.

Lemma run_unqualified_table_rejected_late_witness :
  sample_run (world_with []) flags_unqualified []
  = ([GetExternalStorageFromURI "s3://bucket/ws" (Ok tt);
      FileExists "increment/metadata" (Ok false);
      FileExists "snapshot/loadinfo" (Ok false);
      GetCurrentTSO (Ok 442%N);
      EnvCredentials (Ok {| AccessKeyID := "key";
                            SecretAccessKey := "secret";
                            SessionToken := "" |});
      HttpPost "http://127.0.0.1:8300/api/v2/changefeeds"
               {| SinkURI := "s3://bucket/ws/increment";
                  FilterRules := ["users"]; StartTs := 442 |}
               (Ok {| StatusCode := 200; Body := Ok tt |})],
     Err "table must be a full-qualified name like mydb.mytable")
  /\ existsb replicates
       (trace_of (sample_run (world_with []) flags_unqualified)) = false.
Proof.
  split; [reflexivity|].
  assert (Hne : tableFQN flags_unqualified <> "") by discriminate.
  exact (proj1 (run_unqualified_table_rejected_late sample_url sample_join
                  sample_string sample_duration (world_with [])
                  flags_unqualified Hne eq_refl)).
Defined.

Section Sink.
Variable url_Parse : string -> result URL.
Variable Duration_String : Z -> string.
Variable w : World.

Lemma genSinkURI_ok (sp : string) (fi fs : Z) (h h' : list Call)
      (sink : URL) :
  genSinkURI url_Parse Duration_String w sp fi fs h = (h', Ok sink) ->
  exists u,
    url_Parse sp = Ok u /\ sink_of Duration_String fi fs u sink
    /\ ((Scheme u = "s3"
         /\ exists cv,
             h' = app h [EnvCredentials (Ok cv)]
             /\ In ("access-key", AccessKeyID cv) (Query sink)
             /\ In ("secret-access-key", SecretAccessKey cv) (Query sink)
             /\ (SessionToken cv <> "" ->
                 In ("session-token", SessionToken cv) (Query sink)))
        \/ (Scheme u = "gcs"
            /\ exists file,
                h' = app h [Getenv "GOOGLE_APPLICATION_CREDENTIALS"
                                   (Ok (Some file))]
                /\ In ("credentials-file", file) (Query sink))).
Proof.
  unfold genSinkURI. rewrite bind_run. unfold lift at 1.
  destruct (url_Parse sp) as [u|e|e]; try discriminate.
  cbv zeta. cbn [Scheme add_values].
  destruct (String.eqb_spec (Scheme u) "s3") as [Es|Es].
  - rewrite bind_run. unfold annotate, call. cbv zeta.
    destruct (w_env_credentials w h) as [cv|e|e]; try discriminate.
    unfold ret. intros H. injection H as <- <-.
    exists u. split; [reflexivity|]. split.
    + unfold sink_of.
      destruct (String.eqb (SessionToken cv) "");
        cbn [add_values Scheme Host Path Query];
        repeat split; try reflexivity;
        try (intros x Hx; apply in_or_app; left; try (apply in_or_app; left);
             try (apply in_or_app; left); exact Hx);
        rewrite <- ?app_assoc; apply in_or_app; right; cbn; tauto.
    + left. split; [exact Es|].
      exists cv. split; [reflexivity|].
      destruct (String.eqb_spec (SessionToken cv) "") as [Et|Et];
        cbn [add_values Query]; rewrite <- ?app_assoc.
      * repeat split; try (apply in_or_app; right; cbn; tauto).
        intros Hn. now elim Hn.
      * repeat split; try (intros _);
          apply in_or_app; right; cbn; tauto.
  - destruct (String.eqb_spec (Scheme u) "gcs") as [Eg|Eg];
      [|discriminate].
    rewrite bind_run. unfold call. cbv zeta.
    destruct (w_getenv w h "GOOGLE_APPLICATION_CREDENTIALS")
      as [[file|]|e|e]; try discriminate.
    unfold ret. intros H. injection H as <- <-.
    exists u. split; [reflexivity|]. split.
    + unfold sink_of. cbn [add_values Scheme Host Path Query].
      repeat split; try reflexivity;
        try (intros x Hx; apply in_or_app; left; apply in_or_app; left;
             exact Hx);
        rewrite <- ?app_assoc; apply in_or_app; right; cbn; tauto.
    + right. split; [exact Eg|]. exists file.
      split; [reflexivity|].
      cbn [add_values Query]. rewrite <- ?app_assoc.
      apply in_or_app; right; cbn; tauto.
Qed.

End Sink.

(** X17.  [genSinkURI] succeeds only for the schemes s3 and gcs.  The sink
    URI it returns is the storage path as parsed, with the pairs its query
    held and the flush interval, the file size and the csv protocol in its
    query, and with the credentials it read in one call: for s3 the access
    key and the secret key of the environment, and the session token when
    there is one; for gcs the path of the credentials file.  For any other
    scheme it reads no credentials and names the scheme in its error. *)
Theorem genSinkURI_result
        (url_Parse : string -> result URL) (Duration_String : Z -> string)
        (w : World) (sp : string) (fi fs : Z) (h : list Call) (u : URL)
        (Hu : url_Parse sp = Ok u) :
  let r := genSinkURI url_Parse Duration_String w sp fi fs h in
  (forall sink, snd r = Ok sink ->
     sink_of Duration_String fi fs u sink
     /\ ((Scheme u = "s3"
          /\ exists cv,
              fst r = app h [EnvCredentials (Ok cv)]
              /\ In ("access-key", AccessKeyID cv) (Query sink)
              /\ In ("secret-access-key", SecretAccessKey cv) (Query sink)
              /\ (SessionToken cv <> "" ->
                  In ("session-token", SessionToken cv) (Query sink)))
         \/ (Scheme u = "gcs"
             /\ exists file,
                 fst r = app h [Getenv "GOOGLE_APPLICATION_CREDENTIALS"
                                       (Ok (Some file))]
                 /\ In ("credentials-file", file) (Query sink))))
  /\ (Scheme u <> "s3" -> Scheme u <> "gcs" ->
      r = (h, Err ("get sink uri failed, unsupported uri schema: "
                     ++ Scheme u))).
Proof.
  intros r. split.
  - intros sink Hok. destruct r as [h' res] eqn:Er. cbn [fst snd] in *.
    subst res.
    destruct (genSinkURI_ok url_Parse Duration_String w sp fi fs h h' sink Er)
      as [u' [Hu' [Hs Hc]]].
    rewrite Hu in Hu'. injection Hu' as <-. split; [exact Hs|exact Hc].
  - intros Hs Hg. unfold r, genSinkURI. rewrite bind_run. unfold lift at 1.
    rewrite Hu. cbv zeta. cbn [Scheme add_values].
    destruct (String.eqb_spec (Scheme u) "s3"); [now elim Hs|].
    destruct (String.eqb_spec (Scheme u) "gcs"); [now elim Hg|].
    reflexivity.
Qed.

Lemma genSinkURI_result_witness :
  genSinkURI sample_url sample_duration (world_with [])
             "s3://bucket/ws/increment" 60000000000 67108864 []
  = ([EnvCredentials (Ok {| AccessKeyID := "key"; SecretAccessKey := "secret";
                            SessionToken := "" |})],
     Ok {| Scheme := "s3"; Host := "bucket"; Path := "/ws/increment";
           Query := [("flush-interval", "1m0s"); ("file-size", "67108864");
                     ("protocol", "csv"); ("access-key", "key");
                     ("secret-access-key", "secret")] |})
  /\ sink_of sample_duration 60000000000 67108864
       {| Scheme := "s3"; Host := "bucket"; Path := "/ws/increment";
          Query := [] |}
       {| Scheme := "s3"; Host := "bucket"; Path := "/ws/increment";
          Query := [("flush-interval", "1m0s"); ("file-size", "67108864");
                    ("protocol", "csv"); ("access-key", "key");
                    ("secret-access-key", "secret")] |}.
Proof.
  split; [reflexivity|].
  exact (proj1 (proj1 (genSinkURI_result sample_url sample_duration
                         (world_with []) "s3://bucket/ws/increment"
                         60000000000 67108864 [] _ eq_refl) _ eq_refl)).
Defined.

(** X18.  Every capture job a run registers is filtered to the table name
    given on the command line, is posted to the changefeed endpoint of the
    given server, and writes to the [increment] directory of the storage
    path: its sink URI is that location with the flush interval, the file
    size and the csv protocol in its query. *)
Theorem run_registration_request
        (url_Parse : string -> result URL)
        (url_JoinPath : string -> string -> result string)
        (URL_String : URL -> string) (Duration_String : Z -> string)
        (w : World) (fl : Flags)
        (url : string) (cfg : ChangefeedConfig) (r : result HttpResponse)
        (Hin : In (HttpPost url cfg r)
                  (trace_of (run url_Parse url_JoinPath URL_String
                                 Duration_String w fl))) :
  FilterRules cfg = [tableFQN fl]
  /\ url_JoinPath ("http://" ++ cdcHost fl ++ ":" ++ Snowsql.ztoa (cdcPort fl))
                  "api/v2/changefeeds" = Ok url
  /\ exists isp u sink,
      url_JoinPath (storagePath fl) "increment" = Ok isp
      /\ url_Parse isp = Ok u
      /\ sink_of Duration_String (cdcFlushInterval fl) (cdcFileSize fl) u sink
      /\ SinkURI cfg = URL_String sink.
Proof.
  pose (P := fun c : Call =>
               match c with
               | HttpPost url cfg _ =>
                   FilterRules cfg = [tableFQN fl]
                   /\ url_JoinPath ("http://" ++ cdcHost fl ++ ":"
                                      ++ Snowsql.ztoa (cdcPort fl))
                                   "api/v2/changefeeds" = Ok url
                   /\ exists isp u sink,
                       url_JoinPath (storagePath fl) "increment" = Ok isp
                       /\ url_Parse isp = Ok u
                       /\ sink_of Duration_String (cdcFlushInterval fl)
                                  (cdcFileSize fl) u sink
                       /\ SinkURI cfg = URL_String sink
               | _ => True
               end).
  assert (He : SpecFacts.spec P (fun _ : unit => True)
                 (run url_Parse url_JoinPath URL_String Duration_String w fl)).
  { unfold run.
    apply (SpecFacts.spec_bind _ (fun _ => True));
      [apply SpecFacts.spec_any; repeat emits_step; exact I|intros _ _].
    apply (SpecFacts.spec_bind _ (fun _ => True));
      [apply SpecFacts.spec_any; repeat emits_step; exact I|intros me _].
    apply (SpecFacts.spec_bind _ (fun _ => True));
      [apply SpecFacts.spec_any; repeat emits_step; exact I|intros li _].
    apply (SpecFacts.spec_bind _ (fun _ => True));
      [apply SpecFacts.spec_any; repeat emits_step; exact I|intros ts _].
    apply (SpecFacts.spec_bind _ (fun _ => True)).
    { destruct (_ || _);
        [|apply SpecFacts.spec_any; repeat emits_step; exact I].
      apply (SpecFacts.spec_bind _
               (fun isp => url_JoinPath (storagePath fl) "increment" = Ok isp));
        [apply SpecFacts.spec_lift; now intros|intros isp Hisp].
      apply (SpecFacts.spec_bind _
               (fun sink => exists u,
                    url_Parse isp = Ok u
                    /\ sink_of Duration_String (cdcFlushInterval fl)
                               (cdcFileSize fl) u sink)).
      { apply (SpecFacts.spec_weaken _
                 (fun sink => exists h,
                      snd (genSinkURI url_Parse Duration_String w isp
                             (cdcFlushInterval fl) (cdcFileSize fl) h)
                      = Ok sink)).
        - intros sink [h Hh].
          destruct (genSinkURI url_Parse Duration_String w isp
                      (cdcFlushInterval fl) (cdcFileSize fl) h)
            as [h' res] eqn:Eg.
          cbn [snd] in Hh. subst res.
          destruct (genSinkURI_ok _ _ _ _ _ _ _ _ _ Eg) as [u [Hu [Hs _]]].
          now exists u.
        - apply SpecFacts.spec_of_emits. unfold genSinkURI.
          repeat emits_step; exact I. }
      intros sink [u [Hu Hsink]].
      apply (SpecFacts.spec_bind _ (fun _ => True));
        [|intros _ _; now apply SpecFacts.spec_ret].
      destruct (_ || _); [|now apply SpecFacts.spec_ret].
      apply SpecFacts.spec_annotate. unfold createChangefeed. cbv zeta.
      apply (SpecFacts.spec_bind _
               (fun url => url_JoinPath
                             ("http://" ++ cdcHost fl ++ ":"
                                ++ Snowsql.ztoa (cdcPort fl))
                             "api/v2/changefeeds" = Ok url)).
      { apply SpecFacts.spec_annotate. apply SpecFacts.spec_lift.
        now intros. }
      intros url0 Hurl.
      apply (SpecFacts.spec_bind _ (fun _ => True)).
      - apply SpecFacts.spec_call; [|now intros]. intros h. unfold P.
        split; [destruct (negb (ts =? 0)%N); reflexivity|].
        split; [exact Hurl|]. exists isp, u, sink.
        repeat split; try assumption; try apply Hsink.
        destruct (negb (ts =? 0)%N); reflexivity.
      - intros resp _. apply SpecFacts.spec_any. repeat emits_step. }
    intros sinkURI _.
    apply SpecFacts.spec_any. repeat emits_step; exact I. }
  destruct (He []) as [evs [H1 [H2 _]]]. cbn [app] in H1.
  unfold trace_of in Hin. rewrite H1 in Hin.
  rewrite Forall_forall in H2. exact (H2 _ Hin).
Qed.

Lemma run_registration_request_witness :
  In (HttpPost "http://127.0.0.1:8300/api/v2/changefeeds"
               {| SinkURI := "s3://bucket/ws/increment";
                  FilterRules := ["test.users"]; StartTs := 442 |}
               (Ok {| StatusCode := 200; Body := Ok tt |}))
     (trace_of (sample_run (world_with []) flags_full))
  /\ FilterRules {| SinkURI := "s3://bucket/ws/increment";
                    FilterRules := ["test.users"]; StartTs := 442 |}
     = [tableFQN flags_full].
Proof.
  assert (Hin : In (HttpPost "http://127.0.0.1:8300/api/v2/changefeeds"
                             {| SinkURI := "s3://bucket/ws/increment";
                                FilterRules := ["test.users"];
                                StartTs := 442 |}
                             (Ok {| StatusCode := 200; Body := Ok tt |}))
                   (trace_of (sample_run (world_with []) flags_full))).
  { vm_compute. do 5 right. left. reflexivity. }
  split; [exact Hin|].
  exact (proj1 (run_registration_request sample_url sample_join sample_string
                  sample_duration (world_with []) flags_full _ _ _ Hin)).
Defined.

End OrchestratorExtras.

(* ================================================================== *)
(** * Further properties of the progress poller                        *)
(* ================================================================== *)

Module PollerExtras.
Import Poller PollerMore.

Lemma polls_snoc (n : nat) : app (polls n) [EvPoll] = polls (S n).
Proof.
  unfold polls. induction n as [|n IH]; [reflexivity|].
  cbn [repeat app]. now rewrite IH.
Qed.

(** What the log holds at each pair of program points, with a callback. *)
Definition log_inv (s : State) : Prop :=
  match main s, worker s with
  | MStart, PNone => log s = []
  | MExec, PInit | MExec, PSelect | MExec, PPoll =>
      exists n, log s = polls n
  | MSend, PInit | MSend, PSelect | MSend, PPoll =>
      exists n m, log s = app (polls n) (EvCopyReturned :: polls m)
  | MWait, PExit =>
      exists n m,
        log s = app (polls n) (EvCopyReturned :: app (polls m) [EvStop])
  | MDone, PExit =>
      exists n m,
        log s = app (polls n)
                    (EvCopyReturned :: app (polls m) [EvStop; EvReturn])
  | _, _ => False
  end.

Lemma log_invariant (i : Input) (s : State) :
  callback_nil i = false -> timestamp_ok i = true ->
  reachable i s -> log_inv s.
Proof.
  intros Hc Ht. induction 1 as [|s s' Hr IH Hstep]; [reflexivity|].
  unfold log_inv in *. unfold steps, main_steps, worker_steps in Hstep.
  rewrite Hc, Ht in Hstep.
  destruct s as [m wk l]. cbn [main worker log] in *.
  destruct m, wk; try contradiction; cbn [app In at_ main worker log] in Hstep;
    repeat (destruct Hstep as [<-|Hstep]; [cbn [main worker log at_]|]);
    try contradiction.
  all: try (subst l; now exists 0).
  all: try (destruct IH as [n [k Hk]]; subst l;
            first [ rewrite app_nil_r; now exists n, k
                  | exists n, (S k); rewrite <- polls_snoc;
                    cbn [app]; rewrite <- !app_assoc; reflexivity
                  | exists n, k; cbn [app]; rewrite <- !app_assoc;
                    cbn [app]; rewrite <- ?app_assoc; reflexivity ]).
  all: destruct IH as [n Hn]; subst l.
  all: first [ rewrite app_nil_r; now exists n
             | rewrite polls_snoc; now exists (S n)
             | now exists n, 0 ].
Qed.

Lemma reachable_reaches (i : Input) (s s' : State) :
  reaches i s s' -> reachable i s -> reachable i s'.
Proof.
  induction 1 as [s|s s1 s2 Hs _ IH]; intros Hr; [exact Hr|].
  apply IH. now apply reach_step with (s := s).
Qed.

Ltac poller_step :=
  eapply reaches_step;
  [unfold steps, main_steps, worker_steps; cbn [main worker];
   match goal with
   | Hc : callback_nil _ = _, Ht : timestamp_ok _ = _ |- _ =>
       rewrite ?Hc, ?Ht
   end; cbn [app In]; first [left; reflexivity|right; left; reflexivity]|].

Lemma load_can_finish (i : Input) (s : State) :
  callback_nil i = false -> timestamp_ok i = true ->
  log_inv s -> exists s', reaches i s s' /\ main s' = MDone.
Proof.
  intros Hc Ht Hi. destruct s as [m wk l]. unfold log_inv in Hi.
  cbn [main worker log] in Hi.
  destruct m, wk; try contradiction;
    (eexists; split; [repeat poller_step; apply reaches_refl|reflexivity]).
Qed.

(** X19.  With a progress callback and a server timestamp, the load cannot
    block: from every state it can reach it can still return, and a state
    where nothing can run is one where it has returned.  When it has
    returned, the log reads: progress reports, the return of the COPY,
    progress reports, the stop of the poller, the return; so the callback
    is never called after the poller was stopped, and the poller is stopped
    after the COPY returned and exactly once. *)
Theorem callback_load_always_returns
        (i : Input) (s : State)
        (Hc : callback_nil i = false) (Ht : timestamp_ok i = true)
        (Hr : reachable i s) :
  (exists s', reaches i s s' /\ main s' = MDone)
  /\ (stuck i s -> main s = MDone)
  /\ (main s = MDone ->
      exists n m,
        log s = app (polls n)
                    (EvCopyReturned :: app (polls m) [EvStop; EvReturn])).
Proof.
  pose proof (log_invariant i s Hc Ht Hr) as Hi.
  split; [now apply load_can_finish|]. split.
  - intros Hs. unfold stuck, steps, main_steps, worker_steps in Hs.
    rewrite Hc, Ht in Hs. unfold log_inv in Hi.
    destruct s as [m wk l]. cbn [main worker log] in *.
    destruct m, wk; try contradiction; cbn in Hs; try discriminate Hs.
    reflexivity.
  - intros Hd. unfold log_inv in Hi. rewrite Hd in Hi.
    destruct (worker s); try contradiction. exact Hi.
Qed.

Lemma callback_load_always_returns_witness :
  exists s', reaches {| callback_nil := false; timestamp_ok := true |}
                     init s'
             /\ main s' = MDone.
Proof.
  exact (proj1 (callback_load_always_returns
                  {| callback_nil := false; timestamp_ok := true |} init
                  eq_refl eq_refl
                  (reach_init {| callback_nil := false;
                                 timestamp_ok := true |}))).
Defined.

(** X20.  [LoadSnapshotFromStage] can return exactly when it is given a
    progress callback or the server timestamp cannot be read.  In the
    second case it returns at once: the poller is never started and the
    COPY never runs. *)
Theorem load_returns_iff_callback_or_no_timestamp (i : Input) :
  ((exists s, reachable i s /\ main s = MDone)
   <-> callback_nil i = false \/ timestamp_ok i = false)
  /\ (timestamp_ok i = false ->
      forall s, reachable i s ->
                s = init
                \/ s = {| main := MDone; worker := PNone;
                          log := [EvReturn] |}).
Proof.
  split; [split|].
  - intros [s [Hr Hd]].
    destruct (callback_nil i) eqn:Hc; [|now left].
    destruct (timestamp_ok i) eqn:Ht; [|now right].
    exfalso. destruct i as [c t]. cbn in Hc, Ht. subst c t.
    pose proof (PollerClaims.nil_callback_invariant s Hr) as Hi.
    unfold PollerClaims.nil_inv in Hi. rewrite Hd in Hi. exact Hi.
  - intros H. destruct (timestamp_ok i) eqn:Ht.
    + destruct H as [Hc|Hf]; [|discriminate Hf].
      destruct (load_can_finish i init Hc Ht eq_refl) as [s' [Hs' Hd]].
      exists s'. split; [|exact Hd].
      apply (reachable_reaches i init s' Hs'). constructor.
    + exists (at_ MDone PNone init [EvReturn]). split; [|reflexivity].
      apply reach_step with (s := init); [constructor|].
      unfold steps, main_steps. cbn [main init]. rewrite Ht. now left.
  - intros Ht s Hr.
    induction Hr as [|s s' Hr IH Hstep]; [now left|].
    unfold steps, main_steps, worker_steps in Hstep. rewrite Ht in Hstep.
    destruct IH as [-> | ->]; cbn in Hstep.
    + destruct Hstep as [<-|[]]. now right.
    + destruct Hstep.
Qed.

End PollerExtras.

(* ================================================================== *)
(** * Properties of the replication session                            *)
(* ================================================================== *)

Module SessionExtras.
Import Session.
Local Arguments String.append : simpl never.

Section Run.
Variable w : World.

(** The calls before the dump: if they all succeed the history is [h] and
    the dump starts; otherwise the run ends with one of them. *)
Definition setup (sess : ReplicateSession) : Eff Call unit :=
  annotate "Failed to connect to Snowflake"
    (call PingSnowflake (w_ping_snowflake w)) ;;;
  annotate "Failed to connect to TiDB"
    (call PingTiDB (w_ping_tidb w)) ;;;
  buildDumper w sess ;;;
  dumpPrepareTargetTable w sess.

Definition finish : Eff Call unit :=
  err <- attempt (call Dump (w_dump w)) ;;
  attempt (call CloseDumper (w_close_dumper w)) ;;;
  annotate "Failed to dump table from TiDB" (lift err) ;;;
  annotate "Failed to load snapshot data into Snowflake"
    (call LoadSnapshot (w_load w)) ;;;
  ret tt.

Lemma bind_assoc {E A B C : Type} (c : Eff E A) (k : A -> Eff E B)
      (k' : B -> Eff E C) (h : list E) :
  bind (bind c k) k' h = bind c (fun a => bind (k a) k') h.
Proof.
  unfold bind. destruct (c h) as [h' [a|e|e]]; reflexivity.
Qed.

Lemma bind_cong {E A B : Type} (c : Eff E A) (k k' : A -> Eff E B)
      (h : list E) :
  (forall a h', k a h' = k' a h') -> bind c k h = bind c k' h.
Proof.
  intros H. unfold bind. destruct (c h) as [h' [a|e|e]]; try reflexivity.
  apply H.
Qed.

Lemma Run_split (sess : ReplicateSession) (h : list Call) :
  Run w sess h = bind (setup sess) (fun _ => finish) h.
Proof.
  symmetry. unfold Run, setup, finish.
  rewrite bind_assoc. apply bind_cong; intros _ h1.
  rewrite bind_assoc. apply bind_cong; intros _ h2.
  rewrite bind_assoc. reflexivity.
Qed.

(** No call of the setup is a dump, a close or a load. *)
Lemma setup_quiet (sess : ReplicateSession) :
  EffectFacts.emits
    (fun c => is_dump c = false /\ is_close c = false /\ is_load c = false)
    (setup sess).
Proof.
  unfold setup, buildDumper, buildDumperConfig, dumpPrepareTargetTable.
  repeat emits_step; now repeat split.
Qed.

(** The end of a run, from the dump on. *)
Lemma finish_run (h : list Call) :
  finish h
  = match w_dump w h with
    | Panic e => (app h [Dump (Panic e)], Panic e)
    | d =>
        let h1 := app h [Dump d] in
        match w_close_dumper w h1 with
        | Panic e => (app h1 [CloseDumper (Panic e)], Panic e)
        | c =>
            let h2 := app h1 [CloseDumper c] in
            match d with
            | Ok _ =>
                let l := w_load w h2 in
                (app h2 [LoadSnapshot l],
                 match l with
                 | Err e =>
                     Err ("Failed to load snapshot data into Snowflake"
                            ++ ": " ++ e)
                 | other => other
                 end)
            | Err e => (h2, Err ("Failed to dump table from TiDB" ++ ": " ++ e))
            | Panic e => (h2, Panic e)
            end
        end
    end.
Proof.
  unfold finish. rewrite bind_run. unfold attempt at 1. unfold call at 1.
  cbv zeta.
  destruct (w_dump w h) as [[]|e|e]; [| |reflexivity].
  - rewrite bind_run. unfold attempt at 1. unfold call at 1. cbv zeta.
    destruct (w_close_dumper w _) as [[]|e|e]; try reflexivity.
    + rewrite bind_run. unfold annotate at 1, lift at 1.
      rewrite bind_run. unfold annotate at 1, call at 1. cbv zeta.
      destruct (w_load w _) as [[]|e|e]; reflexivity.
    + rewrite bind_run. unfold annotate at 1, lift at 1.
      rewrite bind_run. unfold annotate at 1, call at 1. cbv zeta.
      destruct (w_load w _) as [[]|e'|e']; reflexivity.
  - rewrite bind_run. unfold attempt at 1. unfold call at 1. cbv zeta.
    destruct (w_close_dumper w _) as [[]|e'|e']; reflexivity.
Qed.

Lemma Run_cases (sess : ReplicateSession) :
  exists evs,
    Forall (fun c => is_dump c = false /\ is_close c = false
                     /\ is_load c = false) evs
    /\ ((exists r, Run w sess [] = (evs, r) /\ r <> Ok tt)
        \/ Run w sess [] = finish evs).
Proof.
  destruct (setup_quiet sess []) as [evs [H1 H2]]. cbn [app] in H1.
  exists evs. split; [exact H2|]. rewrite Run_split, bind_run.
  destruct (setup sess []) as [h1 [[]|e|e]]; cbn [fst] in H1; subst h1.
  - now right.
  - left. exists (Err e). split; [reflexivity|discriminate].
  - left. exists (Panic e). split; [reflexivity|discriminate].
Qed.

Lemma quiet_no_dump (evs : list Call) (d : result unit) :
  Forall (fun c => is_dump c = false /\ is_close c = false
                   /\ is_load c = false) evs ->
  ~ In (Dump d) evs.
Proof.
  intros H Hin. rewrite Forall_forall in H. destruct (H _ Hin) as [F _].
  discriminate F.
Qed.

End Run.

(** X21.  Once [Run] has started the dump it closes the dumper right after
    it, whether the dump succeeded or not, and drops what closing returns.
    After a failed dump nothing else is called and the error is reported as
    a failure to dump; after a successful dump the snapshot is loaded and
    the result of [Run] is that of the load, also when closing the dumper
    failed. *)
Theorem Run_closes_dumper_after_dump
        (w : World) (sess : ReplicateSession) (d : result unit)
        (Hd : In (Dump d) (trace_of (Run w sess)))
        (Hnp : forall m, d <> Panic m) :
  exists before rc rest,
    trace_of (Run w sess) = app before (Dump d :: CloseDumper rc :: rest)
    /\ existsb is_dump before = false
    /\ existsb is_close before = false
    /\ ((exists m, rc = Panic m /\ rest = []
                   /\ outcome_of (Run w sess) = Panic m)
        \/ ((forall m, rc <> Panic m)
            /\ match d with
               | Ok _ =>
                   exists rl,
                     rest = [LoadSnapshot rl]
                     /\ outcome_of (Run w sess)
                        = match rl with
                          | Err e =>
                              Err ("Failed to load snapshot data into Snowflake: "
                                     ++ e)
                          | other => other
                          end
               | Err e =>
                   rest = []
                   /\ outcome_of (Run w sess)
                      = Err ("Failed to dump table from TiDB: " ++ e)
               | Panic _ => False
               end)).
Proof.
  unfold trace_of, outcome_of in *.
  destruct (Run_cases w sess) as [evs [Hq [[r [Hr Hne]]|Hr]]];
    rewrite Hr in *; cbn [fst snd] in *.
  { elim (quiet_no_dump evs d Hq Hd). }
  assert (Hnd : existsb is_dump evs = false).
  { apply EffectFacts.Forall_existsb_false. revert Hq. apply Forall_impl.
    intros c Hc. apply Hc. }
  assert (Hnc : existsb is_close evs = false).
  { apply EffectFacts.Forall_existsb_false. revert Hq. apply Forall_impl.
    intros c Hc. apply Hc. }
  rewrite finish_run in *. cbv zeta in *.
  destruct (w_dump w evs) as [[]|e|e] eqn:Ed.
  - destruct (w_close_dumper w _) as [[]|e'|e'] eqn:Ec; cbn [fst snd] in *;
      rewrite <- !app_assoc in *; cbn [app] in *;
      (apply in_app_or in Hd as [Hd|Hd];
       [elim (quiet_no_dump evs d Hq Hd)|]);
      (destruct Hd as [Hd|[Hd|Hd]]; [|discriminate Hd|]);
      try (destruct Hd as [Hd|[]]; discriminate Hd);
      try contradiction;
      injection Hd as <-;
      eexists evs, _, _; (split; [reflexivity|]);
      (split; [exact Hnd|]); (split; [exact Hnc|]).
    + right. split; [discriminate|]. eexists. split; reflexivity.
    + right. split; [discriminate|]. eexists. split; reflexivity.
    + left. exists e'. repeat split.
  - destruct (w_close_dumper w _) as [[]|e'|e'] eqn:Ec; cbn [fst snd] in *;
      rewrite <- !app_assoc in *; cbn [app] in *;
      (apply in_app_or in Hd as [Hd|Hd];
       [elim (quiet_no_dump evs d Hq Hd)|]);
      (destruct Hd as [Hd|[Hd|Hd]]; [|discriminate Hd|]);
      try contradiction;
      injection Hd as <-;
      eexists evs, _, _; (split; [reflexivity|]);
      (split; [exact Hnd|]); (split; [exact Hnc|]).
    + right. split; [discriminate|]. split; reflexivity.
    + right. split; [discriminate|]. split; reflexivity.
    + left. exists e'. repeat split.
  - cbn [fst snd] in *. apply in_app_or in Hd as [Hd|Hd];
      [elim (quiet_no_dump evs d Hq Hd)|].
    destruct Hd as [Hd|[]]. injection Hd as <-. now elim (Hnp e).
Qed.

Lemma Run_closes_dumper_after_dump_witness :
  Run world_close_fails sess_users []
  = ([PingSnowflake (Ok tt); PingTiDB (Ok tt);
      GetConfTables "test.users" (Ok tt); NewDumper (Ok "442");
      SetSnapshot "442" (Ok tt);
      GenCreateSchema "test" "users"
                      (Ok "CREATE OR REPLACE TABLE users (id INT)");
      ExecSchema "CREATE OR REPLACE TABLE users (id INT)" (Ok tt);
      Dump (Ok tt); CloseDumper (Err "close failed"); LoadSnapshot (Ok tt)],
     Ok tt)
  /\ exists before rc rest,
      trace_of (Run world_close_fails sess_users)
      = app before (Dump (Ok tt) :: CloseDumper rc :: rest).
Proof.
  split; [reflexivity|].
  assert (Hd : In (Dump (Ok tt)) (trace_of (Run world_close_fails sess_users))).
  { vm_compute. do 7 right. left. reflexivity. }
  assert (Hnp : forall m : string, Ok tt <> Panic m :> result unit)
    by discriminate.
  destruct (Run_closes_dumper_after_dump world_close_fails sess_users
              (Ok tt) Hd Hnp) as [before [rc [rest [H _]]]].
  exists before, rc, rest. exact H.
Defined.

(** X22.  A dumper that [Run] created but did not run is never closed:
    when the snapshot cannot be set or the target table cannot be prepared
    after the dumper was created, [Run] returns the error without closing
    the dumper and without loading anything. *)
Theorem Run_unrun_dumper_never_closed
        (w : World) (sess : ReplicateSession) (snapshot : string)
        (Hc : In (NewDumper (Ok snapshot)) (trace_of (Run w sess)))
        (Hn : existsb is_dump (trace_of (Run w sess)) = false) :
  existsb is_close (trace_of (Run w sess)) = false
  /\ existsb is_load (trace_of (Run w sess)) = false
  /\ outcome_of (Run w sess) <> Ok tt.
Proof.
  unfold trace_of, outcome_of in *.
  destruct (Run_cases w sess) as [evs [Hq [[r [Hr Hne]]|Hr]]];
    rewrite Hr in *; cbn [fst snd] in *.
  - repeat split; try exact Hne;
      apply EffectFacts.Forall_existsb_false; revert Hq; apply Forall_impl;
      intros c Hx; apply Hx.
  - exfalso. rewrite finish_run in Hn. cbv zeta in Hn.
    destruct (w_dump w evs) as [[]|e|e];
      [destruct (w_close_dumper w _) as [[]|e'|e']
      |destruct (w_close_dumper w _) as [[]|e'|e']|];
      cbn [fst] in Hn; rewrite <- ?app_assoc in Hn; cbn [app] in Hn;
      rewrite existsb_app in Hn; apply orb_false_iff in Hn as [_ Hn];
      discriminate Hn.
Qed.

Lemma Run_unrun_dumper_never_closed_witness :
  Run world_schema_fails sess_users []
  = ([PingSnowflake (Ok tt); PingTiDB (Ok tt);
      GetConfTables "test.users" (Ok tt); NewDumper (Ok "442");
      SetSnapshot "442" (Ok tt);
      GenCreateSchema "test" "users"
                      (Ok "CREATE OR REPLACE TABLE users (id INT)");
      ExecSchema "CREATE OR REPLACE TABLE users (id INT)" (Err "denied")],
     Err "denied")
  /\ existsb is_close (trace_of (Run world_schema_fails sess_users)) = false.
Proof.
  split; [reflexivity|].
  assert (Hc : In (NewDumper (Ok "442"))
                  (trace_of (Run world_schema_fails sess_users))).
  { vm_compute. do 3 right. left. reflexivity. }
  exact (proj1 (Run_unrun_dumper_never_closed world_schema_fails sess_users
                  "442" Hc eq_refl)).
Defined.

End SessionExtras.

Module NewSessionExtras.
Import Orchestrator OrchMore NewSession SpecFacts.
Local Arguments String.append : simpl never.

Lemma split_dot_spec (s a b : string) :
  split_dot s = Some (a, b) -> s = a ++ "." ++ b /\ no_dot a = true.
Proof.
  revert a. induction s as [|c s IH]; intros a H; [discriminate H|].
  cbn [split_dot] in H. destruct (Ascii.eqb c "."%char) eqn:E.
  - injection H as <- <-. apply Ascii.eqb_eq in E. subst c. now split.
  - destruct (split_dot s) as [[a' b']|]; [|discriminate H].
    injection H as <- <-. destruct (IH a' eq_refl) as [-> Hn].
    split; [reflexivity|]. cbn [no_dot]. now rewrite E, Hn.
Qed.

Section New.
Variable url_Parse : string -> result URL.
Variable is_not_found : string -> bool.
Variable w : World.

Lemma resolve_region_spec (P : Call -> Prop) (bucket : string) :
  (forall r, P (GetBucketRegion bucket r)) ->
  spec P (fun region =>
            exists h, w_bucket_region w h bucket = Ok region)
       (resolve_region is_not_found w bucket).
Proof.
  intros HP h. unfold resolve_region, call. cbv zeta.
  exists [GetBucketRegion bucket (w_bucket_region w h bucket)].
  destruct (w_bucket_region w h bucket) as [region|e|e] eqn:E;
    [|destruct (is_not_found e)|];
    (split; [reflexivity|split; [constructor; [apply HP|constructor]|]]);
    intros a Ha; try discriminate Ha.
  injection Ha as <-. now exists h.
Qed.

Lemma tls_setup_emits (P : Call -> Prop) (ca : string) :
  (forall c, connects c = false -> P c) ->
  EffectFacts.emits P (tls_setup w ca).
Proof.
  intros HP. unfold tls_setup. destruct (negb _); [|apply EffectFacts.emits_ret].
  apply EffectFacts.emits_bind.
  - intros h. unfold call. cbv zeta.
    exists [ReadFile ca (w_read_file w h ca)].
    destruct (w_read_file w h ca);
      (split; [reflexivity|constructor; [now apply HP|constructor]]).
  - intros pem. repeat emits_step; now apply HP.
Qed.

End New.

(** X23.  [NewReplicateSession] tests the table name before it calls
    anything, and the scheme of the storage path before it looks up the
    bucket or opens a connection: a call is made only for a name with a
    dot, and the bucket, the warehouse and the source database are reached
    only for an s3 path.  The session it returns holds the text before the
    first dot of the name as the source database and the rest as the
    source table, the storage path with the session id appended as its
    workspace, and the region the bucket lookup returned. *)
Theorem NewReplicateSession_validates_first
        (url_Parse : string -> result URL) (is_not_found : string -> bool)
        (w : World) (id tableFQN s3StoragePath ca : string) :
  let r := NewReplicateSession url_Parse is_not_found w id tableFQN
                               s3StoragePath ca [] in
  (forall c, In c (fst r) -> no_dot tableFQN = false)
  /\ (forall c, In c (fst r) -> connects c = true ->
        exists u, url_Parse s3StoragePath = Ok u /\ Scheme u = "s3")
  /\ (forall sess, snd r = Ok sess ->
        tableFQN = SourceDatabase sess ++ "." ++ SourceTable sess
        /\ no_dot (SourceDatabase sess) = true
        /\ StorageWorkspacePath sess = s3StoragePath ++ "/" ++ id
        /\ exists u h, url_Parse s3StoragePath = Ok u
                       /\ w_bucket_region w h (Host u)
                          = Ok (ResolvedS3Region sess)).
Proof.
  intros r.
  pose (P := fun c : Call =>
               no_dot tableFQN = false
               /\ (connects c = true ->
                   exists u, url_Parse s3StoragePath = Ok u
                             /\ Scheme u = "s3")).
  pose (Q := fun sess : ReplicateSession =>
               tableFQN = SourceDatabase sess ++ "." ++ SourceTable sess
               /\ no_dot (SourceDatabase sess) = true
               /\ StorageWorkspacePath sess = s3StoragePath ++ "/" ++ id
               /\ exists u h, url_Parse s3StoragePath = Ok u
                              /\ w_bucket_region w h (Host u)
                                 = Ok (ResolvedS3Region sess)).
  assert (He : spec P Q (NewReplicateSession url_Parse is_not_found w id
                           tableFQN s3StoragePath ca)).
  { unfold NewReplicateSession.
    apply (spec_bind _ (fun names => split_dot tableFQN = Some names)).
    { apply spec_lift. intros a Ha.
      destruct (split_dot tableFQN); [now injection Ha as ->|discriminate Ha]. }
    intros [db t] Hn. destruct (split_dot_spec _ _ _ Hn) as [Hfq Hnd].
    assert (Hdot : no_dot tableFQN = false).
    { destruct (no_dot tableFQN) eqn:E; [|reflexivity].
      rewrite (OrchestratorExtras.no_dot_split _ E) in Hn. discriminate Hn. }
    assert (HP : forall c, connects c = false -> P c).
    { intros c Hc. split; [exact Hdot|]. rewrite Hc. discriminate. }
    apply (spec_bind _ (fun _ => True));
      [apply spec_any; repeat emits_step; now apply HP|intros _ _].
    apply (spec_bind _ (fun _ => True));
      [apply spec_any; repeat emits_step; now apply HP|intros cv _].
    apply (spec_bind _ (fun u => url_Parse s3StoragePath = Ok u));
      [apply spec_annotate, spec_lift; now intros|intros u Hu].
    destruct (String.eqb_spec (Scheme u) "s3") as [Es|Es]; cbn [negb];
      [|apply spec_lift; discriminate].
    assert (HP' : forall c, P c).
    { intros c. split; [exact Hdot|]. intros _. now exists u. }
    apply (spec_bind _ (fun region =>
                          exists h, w_bucket_region w h (Host u) = Ok region));
      [apply resolve_region_spec; intros; apply HP'|intros region [h Hreg]].
    apply (spec_bind _ (fun _ => True));
      [apply spec_any; repeat emits_step; apply HP'|intros dsn _].
    apply (spec_bind _ (fun _ => True));
      [apply spec_any; repeat emits_step; apply HP'|intros _ _].
    apply (spec_bind _ (fun _ => True));
      [apply spec_any, tls_setup_emits; intros; apply HP'|intros _ _].
    apply (spec_bind _ (fun _ => True));
      [apply spec_any; repeat emits_step; apply HP'|intros _ _].
    apply spec_ret. unfold Q. cbn.
    split; [exact Hfq|]. split; [exact Hnd|]. split; [reflexivity|].
    now exists u, h. }
  destruct (He []) as [evs [H1 [H2 H3]]]. cbn [app] in H1. fold r in H1, H3.
  rewrite H1. rewrite Forall_forall in H2.
  split; [|split].
  - intros c Hc. apply (H2 c Hc).
  - intros c Hc. apply (H2 c Hc).
  - exact H3.
Qed.

(** A session for the table [users.v2] of the database [test]. *)
Example NewReplicateSession_sample :
  NewReplicateSession OrchSamples.sample_url (fun _ => false) world_ok
                      "0a1b" "test.users.v2" "s3://bucket/ws" "" []
  = ([NewAWSSession (Ok tt);
      EnvCredentials (Ok {| AccessKeyID := "key"; SecretAccessKey := "secret";
                            SessionToken := "" |});
      GetBucketRegion "bucket" (Ok "us-west-2");
      SnowflakeDSN (Ok "user:pass@account/db/schema");
      OpenSnowflake "user:pass@account/db/schema" (Ok tt);
      OpenTiDB (Ok tt)],
     Ok {| ID := "0a1b"; TableFQN := "test.users.v2";
           SourceDatabase := "test"; SourceTable := "users.v2";
           StorageWorkspacePath := "s3://bucket/ws/0a1b";
           ResolvedS3Region := "us-west-2";
           AWSCredential := {| AccessKeyID := "key";
                               SecretAccessKey := "secret";
                               SessionToken := "" |} |}).
Proof. reflexivity. Qed.

End NewSessionExtras.

(* ================================================================== *)
(** * Properties of the GCS helpers                                    *)
(* ================================================================== *)

Module GCSExtras.
Import GCS.
Local Arguments String.append : simpl never.

(** X24.  [GetGCSServiceAccount] returns the value of the first row whose
    property is STORAGE_GCP_SERVICE_ACCOUNT, provided every row before it
    could be scanned; the rows after it are not read, so that neither their
    scan errors nor an error of the iteration matter.  When the rows are
    exhausted without such a property and without error, it returns the
    empty string and no error. *)
Theorem GetGCSServiceAccount_first_match
        (before after : list (result PropertyRow)) (row : PropertyRow)
        (rowsErr : option string)
        (Hb : Forall (fun r => exists x,
                          r = Ok x
                          /\ property x <> "STORAGE_GCP_SERVICE_ACCOUNT")
                     before) :
  (property row = "STORAGE_GCP_SERVICE_ACCOUNT" ->
   GetGCSServiceAccount (Ok (app before (Ok row :: after), rowsErr))
   = Ok (propertyValue row))
  /\ GetGCSServiceAccount (Ok (before, None)) = Ok ""
  /\ (forall e, GetGCSServiceAccount (Ok (app before (Err e :: after), rowsErr))
                = Err e).
Proof.
  assert (Hs : forall tail, scan_rows (app before tail) = scan_rows tail).
  { induction Hb as [|r before [x [-> Hx]] _ IH]; intros tail; [reflexivity|].
    cbn [app scan_rows].
    destruct (String.eqb_spec (property x) "STORAGE_GCP_SERVICE_ACCOUNT");
      [now elim Hx|apply IH]. }
  split; [|split].
  - intros Hp. unfold GetGCSServiceAccount. rewrite Hs. cbn [scan_rows].
    now rewrite Hp.
  - unfold GetGCSServiceAccount.
    rewrite <- (app_nil_r before), Hs. reflexivity.
  - intros e. unfold GetGCSServiceAccount. now rewrite Hs.
Qed.

Lemma GetGCSServiceAccount_first_match_witness :
  GetGCSServiceAccount (Ok (rows_without_account, None)) = Ok ""
  /\ GetGCSServiceAccount
       (Ok (app rows_without_account
                [Ok {| property := "STORAGE_GCP_SERVICE_ACCOUNT";
                       propertyType := "String";
                       propertyValue := "sa@gcp.example";
                       propertyDefault := "" |};
                 Err "scan failed"],
            Some "iteration failed"))
     = Ok "sa@gcp.example".
Proof.
  assert (Hb : Forall (fun r => exists x,
                           r = Ok x
                           /\ property x <> "STORAGE_GCP_SERVICE_ACCOUNT")
                      rows_without_account).
  { repeat constructor; eexists; (split; [reflexivity|discriminate]). }
  split.
  - exact (proj1 (proj2 (GetGCSServiceAccount_first_match
                           rows_without_account []
                           {| property := ""; propertyType := "";
                              propertyValue := ""; propertyDefault := "" |}
                           None Hb))).
  - exact (proj1 (GetGCSServiceAccount_first_match
                    rows_without_account [Err "scan failed"]
                    {| property := "STORAGE_GCP_SERVICE_ACCOUNT";
                       propertyType := "String";
                       propertyValue := "sa@gcp.example";
                       propertyDefault := "" |}
                    (Some "iteration failed") Hb) eq_refl).
Defined.

(** The run of [addBucketIAMMember], call by call. *)
Lemma addBucketIAMMember_run (w : World) (bucket identity role : string) :
  addBucketIAMMember w bucket identity role []
  = match w_new_client w [] with
    | Err e => ([NewClient (Err e)], Err e)
    | Panic e => ([NewClient (Panic e)], Panic e)
    | Ok _ =>
        let h1 := [NewClient (Ok tt)] in
        let body :=
          match w_get_policy w h1 bucket with
          | Err e => ([NewClient (Ok tt); GetPolicy bucket (Err e)], Err e)
          | Panic e =>
              ([NewClient (Ok tt); GetPolicy bucket (Panic e)], Panic e)
          | Ok p =>
              let h2 := [NewClient (Ok tt); GetPolicy bucket (Ok p)] in
              let p' := policy_add p ("serviceAccount:" ++ identity) role in
              (app h2 [SetPolicy bucket p' (w_set_policy w h2 bucket p')],
               w_set_policy w h2 bucket p')
          end in
        let c := w_close w (fst body) in
        (app (fst body) [CloseClient c],
         match c with Panic e => Panic e | _ => snd body end)
    end.
Proof.
  unfold addBucketIAMMember. rewrite bind_run. unfold call at 1. cbv zeta.
  destruct (w_new_client w []) as [[]|e|e]; try reflexivity.
  cbn [app]. unfold deferred. rewrite bind_run. unfold call at 1. cbv zeta.
  destruct (w_get_policy w _ bucket) as [p|e|e]; cbn [app fst snd].
  - unfold call. cbv zeta. cbn [app].
    destruct (w_close w _) as [[]|e|e]; reflexivity.
  - unfold call. cbv zeta. cbn [app].
    destruct (w_close w _) as [[]|e'|e']; reflexivity.
  - unfold call. cbv zeta. cbn [app].
    destruct (w_close w _) as [[]|e'|e']; reflexivity.
Qed.

Lemma policy_add_keeps (p : Policy) (member role : string) :
  incl p (policy_add p member role)
  /\ In (role, member) (policy_add p member role).
Proof.
  unfold policy_add.
  destruct (existsb _ p) eqn:E.
  - split; [apply incl_refl|].
    apply existsb_exists in E as [[r m] [Hin Hb]]. cbn [fst snd] in Hb.
    apply andb_true_iff in Hb as [Hr Hm].
    apply String.eqb_eq in Hr. apply String.eqb_eq in Hm. now subst.
  - split; [apply incl_appl, incl_refl|].
    apply in_or_app. right. now left.
Qed.

(** X25.  [addBucketIAMMember] closes the storage client exactly when it
    created one, once and as its last call, also when reading or writing
    the policy failed, and what closing returns is dropped: the function
    returns what reading or writing the policy returned.  The policy is
    written only after it was read, and the policy written is the one read
    with the member [serviceAccount:identity] in the given role: no
    binding of the policy read is lost. *)
Theorem addBucketIAMMember_closes_client
        (w : World) (bucket identity role : string) :
  let tr := trace_of (addBucketIAMMember w bucket identity role) in
  let res := outcome_of (addBucketIAMMember w bucket identity role) in
  (In (NewClient (Ok tt)) tr ->
   exists before rc,
     tr = app before [CloseClient rc]
     /\ existsb is_close before = false
     /\ ((forall m, rc <> Panic m) ->
         (forall e, In (GetPolicy bucket (Err e)) before -> res = Err e)
         /\ (forall p r, In (SetPolicy bucket p r) before -> res = r)))
  /\ (existsb is_close tr = true -> In (NewClient (Ok tt)) tr)
  /\ (forall b p r, In (SetPolicy b p r) tr ->
        b = bucket
        /\ exists p0,
            In (GetPolicy bucket (Ok p0)) tr
            /\ p = policy_add p0 ("serviceAccount:" ++ identity) role
            /\ incl p0 p
            /\ In (role, "serviceAccount:" ++ identity) p).
Proof.
  intros tr res. subst tr res. unfold trace_of, outcome_of.
  rewrite addBucketIAMMember_run. cbv zeta.
  destruct (w_new_client w []) as [[]|e|e].
  2,3: cbn [fst snd]; split; [intros [H|[]]; discriminate H|];
       split; [intros H; discriminate H|];
       intros b p r [H|[]]; discriminate H.
  destruct (w_get_policy w _ bucket) as [p0|e|e]; cbn [fst snd app].
  - split; [|split].
    + intros _. eexists [_; _; _], _. split; [reflexivity|].
      split; [reflexivity|]. intros Hnp. split.
      * intros e [H|[H|[H|[]]]]; discriminate H.
      * intros p r [H|[H|[H|[]]]]; try discriminate H.
        injection H as <- <-.
        destruct (w_close w _) as [[]|e|e]; try reflexivity.
        now elim (Hnp e).
    + intros _. now left.
    + intros b p r [H|[H|[H|[H|[]]]]]; try discriminate H.
      injection H as <- <- <-. split; [reflexivity|].
      exists p0. split; [right; now left|]. split; [reflexivity|].
      apply policy_add_keeps.
  - split; [|split].
    + intros _. eexists [_; _], _. split; [reflexivity|].
      split; [reflexivity|]. intros Hnp. split.
      * intros e' [H|[H|[]]]; try discriminate H. injection H as <-.
        destruct (w_close w _) as [[]|e'|e']; try reflexivity.
        now elim (Hnp e').
      * intros p r [H|[H|[]]]; discriminate H.
    + intros _. now left.
    + intros b p r [H|[H|[H|[]]]]; discriminate H.
  - split; [|split].
    + intros _. eexists [_; _], _. split; [reflexivity|].
      split; [reflexivity|]. intros Hnp. split.
      * intros e' [H|[H|[]]]; discriminate H.
      * intros p r [H|[H|[]]]; discriminate H.
    + intros _. now left.
    + intros b p r [H|[H|[H|[]]]]; discriminate H.
Qed.

Lemma addBucketIAMMember_closes_client_sample :
  addBucketIAMMember world_denied "tidb-bucket" "sa@gcp.example"
                     "tidb-snowflake" []
  = ([NewClient (Ok tt);
      GetPolicy "tidb-bucket" (Ok [("roles/viewer", "user:a@example.com")]);
      SetPolicy "tidb-bucket"
                [("roles/viewer", "user:a@example.com");
                 ("tidb-snowflake", "serviceAccount:sa@gcp.example")]
                (Err "denied");
      CloseClient (Err "close failed")],
     Err "denied").
Proof. reflexivity. Qed.

End GCSExtras.

(* ================================================================== *)
(** * The order of the primary-key columns                             *)
(* ================================================================== *)

Module PrimaryKeyExtras.
Import PrimaryKey.

Lemma ltb_irrefl (s : string) : String.ltb s s = false.
Proof.
  unfold String.ltb. pose proof (String.compare_antisym s s) as H.
  destruct (String.compare s s); try reflexivity; discriminate H.
Qed.

Lemma two_in_order {A : Type} (x y : A) (l : list A) :
  In x l -> In y l -> x <> y ->
  (exists l1 l2 l3, l = app l1 (x :: app l2 (y :: l3)))
  \/ (exists l1 l2 l3, l = app l1 (y :: app l2 (x :: l3))).
Proof.
  intros Hx Hy Hne. apply in_split in Hx as [a [b ->]].
  apply in_app_or in Hy as [Hy|[Hy|Hy]].
  - right. apply in_split in Hy as [c [d ->]].
    exists c, d, b. now rewrite <- app_assoc.
  - now elim Hne.
  - left. apply in_split in Hy as [c [d ->]]. now exists a, c, d.
Qed.

Lemma sortedb_order (less : IndexRow -> IndexRow -> bool) (x y : IndexRow)
      (l1 l2 l3 : list IndexRow) :
  sortedb less (app l1 (y :: app l2 (x :: l3))) = true -> less x y = false.
Proof.
  induction l1 as [|a l1 IH]; cbn [app sortedb]; intros H;
    apply andb_true_iff in H as [H1 H2]; [|now apply IH].
  rewrite forallb_app in H1. apply andb_true_iff in H1 as [_ H1].
  cbn [forallb] in H1. apply andb_true_iff in H1 as [H1 _].
  now apply negb_true_iff in H1.
Qed.

(** X26.  The columns of the primary key are put into the statement in the
    order of the text of SEQ_IN_INDEX, not of its number: of two columns of
    the primary key, the one whose sequence text is the smaller string
    comes first, so that the tenth column of a key comes before its
    second. *)
Theorem snowflake_pk_columns_in_text_order
        (indexResults sorted : list IndexRow) (x y : IndexRow)
        (Hperm : Permutation sorted indexResults)
        (Hsorted : sortedb index_less sorted = true)
        (Hx : In x indexResults) (Hy : In y indexResults)
        (Hpx : KeyName x = "PRIMARY") (Hpy : KeyName y = "PRIMARY")
        (Hlt : String.ltb (SeqInIndex x) (SeqInIndex y) = true) :
  exists l1 l2 l3,
    snowflakePKColumns sorted
    = app l1 (ColumnName x :: app l2 (ColumnName y :: l3)).
Proof.
  assert (Hne : x <> y).
  { intros ->. rewrite ltb_irrefl in Hlt. discriminate Hlt. }
  assert (Hless : index_less x y = true).
  { unfold index_less. now rewrite Hpx, Hpy, String.eqb_refl. }
  apply (Permutation_in _ (Permutation_sym Hperm)) in Hx.
  apply (Permutation_in _ (Permutation_sym Hperm)) in Hy.
  destruct (two_in_order x y sorted Hx Hy Hne)
    as [[l1 [l2 [l3 ->]]]|[l1 [l2 [l3 ->]]]].
  - unfold snowflakePKColumns.
    rewrite filter_app. cbn [filter]. rewrite Hpx, String.eqb_refl.
    rewrite filter_app. cbn [filter]. rewrite Hpy, String.eqb_refl.
    rewrite map_app. cbn [map]. rewrite map_app. cbn [map].
    now eexists _, _, _.
  - rewrite (sortedb_order index_less x y l1 l2 l3 Hsorted) in Hless.
    discriminate Hless.
Qed.

Lemma snowflake_pk_columns_in_text_order_witness :
  snowflakePKColumns sorted_ajb = ["a"; "j"; "b"]
  /\ exists l1 l2 l3,
      snowflakePKColumns sorted_ajb = app l1 ("j" :: app l2 ("b" :: l3)).
Proof.
  split; [reflexivity|].
  refine (snowflake_pk_columns_in_text_order index_abj sorted_ajb
            {| KeyName := "PRIMARY"; ColumnName := "j"; SeqInIndex := "10" |}
            {| KeyName := "PRIMARY"; ColumnName := "b"; SeqInIndex := "2" |}
            _ eq_refl _ _ eq_refl eq_refl eq_refl).
  - unfold sorted_ajb, index_abj. apply perm_skip. apply perm_swap.
  - right. right. left. reflexivity.
  - right. left. reflexivity.
Defined.

End PrimaryKeyExtras.
